(** * Smart Monitor: the status decoder and the animation loop of [src/main.cpp]

    A shallow embedding of the firmware's state ([DataState], [UIState], the
    function-local statics of [loop]) and of the functions that update it:
    [updateFromJsonLine], the animation part of [loop] and the face selection
    of [drawInfoLines].

    Modelling choices, all visible in the definitions below:
    - [float] is IEEE 754 binary32, computed by the Standard Library's
      [SpecFloat] operations at precision 24 and [emax = 128]; NaN and the
      infinities are values like any other;
    - [long] and [int] are integers [Z] (no operation of the modelled code
      overflows them on inputs inside the 32-bit range);
    - [unsigned long] timestamps are [Z] reduced modulo [2^32] after every
      addition and subtraction;
    - [deserializeJson] belongs to the ArduinoJson library: its outcome (an
      error, or the members of the parsed document) is an input;
    - [millis()], [random(n)] and [sin] are inputs as well, one per call
      site. *)

From Stdlib Require Import ZArith List String Ascii Bool Lia DecimalString.
From Stdlib Require Import Floats.SpecFloat.
From Stdlib Require Import QArith Qabs Qpower Lqa.
Import ListNotations.
Open Scope Z_scope.

(** ** binary32 arithmetic *)

Module F32.

Definition prec : Z := 24.
Definition emax : Z := 128.

Definition float := spec_float.

Definition add : float -> float -> float := SFadd prec emax.
Definition sub : float -> float -> float := SFsub prec emax.
Definition mul : float -> float -> float := SFmul prec emax.
Definition div : float -> float -> float := SFdiv prec emax.

(** [x < y], [x <= y]; [x > y] is [ltb y x] and [x >= y] is [leb y x].
    Every comparison with a NaN is false. *)
Definition ltb : float -> float -> bool := SFltb.
Definition leb : float -> float -> bool := SFleb.

Definition isnan (x : float) : bool :=
  match x with S754_nan => true | _ => false end.

Definition is_finite (x : float) : bool :=
  match x with S754_zero _ | S754_finite _ _ _ => true | _ => false end.

Definition valid (x : float) : bool := valid_binary prec emax x.

(** [(float)n] for an integer [n]: round to nearest, ties to even. *)
Definition of_Z (n : Z) : float := binary_normalize prec emax n 0 false.

(** [(int)x]: truncation toward zero.  C++ leaves the conversion of NaN,
    of an infinity and of a value outside [int] undefined; here NaN and
    the infinities give [0] and a large value is not reduced. *)
Definition to_int (x : float) : Z :=
  match x with
  | S754_finite s m e =>
      let a := match e with
               | Zneg p => Z.shiftr (Zpos m) (Zpos p)
               | _ => Z.shiftl (Zpos m) e
               end in
      if s then - a else a
  | _ => 0
  end.

(** [std::max(a, b)], which is [(a < b) ? b : a]. *)
Definition max (a b : float) : float := if ltb a b then b else a.

Definition nan : float := S754_nan.
Definition zero : float := S754_zero false.
Definition one : float := Eval vm_compute in of_Z 1.
Definition minus_one : float := Eval vm_compute in of_Z (-1).
Definition hundred : float := Eval vm_compute in of_Z 100.

(** Decimal literals, each the binary32 number nearest to the decimal. *)
Definition c0_5 : float := Eval vm_compute in div (of_Z 1) (of_Z 2).
Definition c0_15 : float := Eval vm_compute in div (of_Z 15) (of_Z 100).
Definition c0_22 : float := Eval vm_compute in div (of_Z 22) (of_Z 100).
Definition c0_42 : float := Eval vm_compute in div (of_Z 42) (of_Z 100).
Definition c0_68 : float := Eval vm_compute in div (of_Z 68) (of_Z 100).
Definition c0_7 : float := Eval vm_compute in div (of_Z 7) (of_Z 10).
Definition c0_996 : float := Eval vm_compute in div (of_Z 996) (of_Z 1000).

(** [lo <= x <= hi]; false when [x] is NaN. *)
Definition within (lo hi x : float) : bool := leb lo x && leb x hi.

End F32.

(** ** Arduino [String] helpers *)

Definition string_of_Z (z : Z) : string := NilZero.string_of_int (Z.to_int z).

Definition isspace (c : ascii) : bool :=
  let n := nat_of_ascii c in
  (Nat.eqb n 32 || (Nat.leb 9 n && Nat.leb n 13))%bool.

Fixpoint trim_left (s : string) : string :=
  match s with
  | String c s' => if isspace c then trim_left s' else s
  | EmptyString => EmptyString
  end.

Fixpoint rev_string_onto (s acc : string) : string :=
  match s with
  | String c s' => rev_string_onto s' (String c acc)
  | EmptyString => acc
  end.

Definition rev_string (s : string) : string := rev_string_onto s EmptyString.

(** [String::trim()]. *)
Definition trim (s : string) : string :=
  rev_string (trim_left (rev_string (trim_left s))).

Definition Zlength_string (s : string) : Z := Z.of_nat (String.length s).

(** ** Display helpers *)

Definition SCREEN_WIDTH : Z := 128.
Definition SCREEN_HEIGHT : Z := 64.

Definition textWidth (s : string) (size : Z) : Z := Zlength_string s * 6 * size.

Definition fmtDisk (kb : Z) : string :=
  if kb <? 0 then "--"%string
  else
    let mb := Z.quot kb 1024 in
    if 9999 <? mb then (string_of_Z (Z.quot mb 1024) ++ "GB")%string
    else (string_of_Z mb ++ "MB")%string.

Definition fmtUptime (seconds : Z) : string :=
  if seconds <? 0 then "--"%string
  else
    let m := Z.quot seconds 60 in
    let h := Z.quot m 60 in
    let d := Z.quot h 24 in
    let h := Z.rem h 24 in
    let m := Z.rem m 60 in
    let s := if 0 <? d then (string_of_Z d ++ "d ")%string else ""%string in
    (s ++ string_of_Z h ++ "h" ++ string_of_Z m ++ "m")%string.

(** ** State *)

Record DataState := {
  cpu : F32.float;
  ram : Z;
  ram_used : Z;
  tempC : F32.float;
  weatherDesc : string;
  host : string;
  epoch : Z;
  uptime : Z;
  diskFreeKB : Z;
  net_rx : F32.float;
  net_tx : F32.float
}.

Record UIState := {
  hasData : bool;
  tgtCpu : F32.float;
  tgtRamRatio : F32.float;
  tgtNetRatio : F32.float;
  curCpu : F32.float;
  curRamRatio : F32.float;
  curNetRatio : F32.float;
  netMaxKBs : F32.float;
  tickerText : string;
  tickerX : Z;
  tickerW : Z;
  gaugesBottomY : Z;
  tamaBlink : bool;
  tamaBlinkUntil : Z;
  tamaNextBlink : Z;
  tamaMouthPhase : Z;
  tamaMouthMs : Z;
  tamaWink : bool;
  tamaWinkUntil : Z;
  tamaSweat : bool;
  tamaSweatUntil : Z;
  headBob : Z;
  tamaSleeping : bool;
  lowLoadSince : Z;
  sleepStep : Z;
  sleepMs : Z
}.

(** The member initializers of the two structs. *)
Definition data0 : DataState := {|
  cpu := F32.minus_one; ram := -1; ram_used := -1; tempC := F32.nan;
  weatherDesc := ""; host := ""; epoch := 0; uptime := -1; diskFreeKB := -1;
  net_rx := F32.nan; net_tx := F32.nan
|}.

Definition ui0 : UIState := {|
  hasData := false;
  tgtCpu := F32.zero; tgtRamRatio := F32.zero; tgtNetRatio := F32.zero;
  curCpu := F32.zero; curRamRatio := F32.zero; curNetRatio := F32.zero;
  netMaxKBs := F32.one;
  tickerText := ""; tickerX := SCREEN_WIDTH; tickerW := 1; gaugesBottomY := 0;
  tamaBlink := false; tamaBlinkUntil := 0; tamaNextBlink := 0;
  tamaMouthPhase := 0; tamaMouthMs := 0;
  tamaWink := false; tamaWinkUntil := 0;
  tamaSweat := false; tamaSweatUntil := 0;
  headBob := 0;
  tamaSleeping := false; lowLoadSince := 0; sleepStep := 0; sleepMs := 0
|}.

(** The globals [data], [ui], [appName], the statics of [loop] and of
    [paintWaiting], and what was written to [Serial]. *)
Record World := {
  data : DataState;
  ui : UIState;
  appName : string;
  lastDataMs : Z;
  lastAnim : Z;
  nextWink : Z;
  nextSweat : Z;
  lastPaint : Z;
  serialOut : list string
}.

Definition world0 : World := {|
  data := data0; ui := ui0; appName := "";
  lastDataMs := 0; lastAnim := 0; nextWink := 0; nextSweat := 0; lastPaint := 0;
  serialOut := []
|}.

(** ** The parsed document

    One field per member the decoder reads.  A field is [Some v] when
    [doc[key] | fallback] yields the member ([v] already converted to the
    type of the fallback) and [None] when it yields the fallback; [j_app] is
    [Some s] when [doc.containsKey("app")], with [s = doc["app"].as<String>()]. *)
Record JsonDoc := {
  j_cpu : option F32.float;
  j_ram : option Z;
  j_ram_used : option Z;
  j_weather_temp : option F32.float;
  j_host : option string;
  j_time : option Z;
  j_uptime : option Z;
  j_disk_free : option Z;
  j_net_rx : option F32.float;
  j_net_tx : option F32.float;
  j_app : option string
}.

(** The document of the line [{}]. *)
Definition emptyDoc : JsonDoc := {|
  j_cpu := None; j_ram := None; j_ram_used := None; j_weather_temp := None;
  j_host := None; j_time := None; j_uptime := None; j_disk_free := None;
  j_net_rx := None; j_net_tx := None; j_app := None
|}.

(** The outcome of [deserializeJson(doc, line)]. *)
Inductive Deserialized :=
| DeserializationError (f_str : string)
| DeserializationOk (doc : JsonDoc).

(** [member | fallback]. *)
Definition or_default {A : Type} (member : option A) (fallback : A) : A :=
  match member with Some v => v | None => fallback end.

Infix "|?" := or_default (at level 45, left associativity).

(** ** [updateFromJsonLine] *)

(** Lines 142-151: every member overwrites its field, an absent member
    leaves the field as it was. *)
Definition mergeDoc (doc : JsonDoc) (d : DataState) : DataState := {|
  cpu := j_cpu doc |? cpu d;
  ram := j_ram doc |? ram d;
  ram_used := j_ram_used doc |? ram_used d;
  tempC := j_weather_temp doc |? tempC d;
  weatherDesc := weatherDesc d;
  host := j_host doc |? host d;
  epoch := j_time doc |? epoch d;
  uptime := j_uptime doc |? uptime d;
  diskFreeKB := j_disk_free doc |? diskFreeKB d;
  net_rx := j_net_rx doc |? net_rx d;
  net_tx := j_net_tx doc |? net_tx d
|}.

(** Lines 152-156. *)
Definition mergeApp (doc : JsonDoc) (app : string) : string :=
  match j_app doc with
  | Some newApp => trim newApp
  | None => app
  end.

Definition cpuKnown (d : DataState) : bool := F32.leb F32.zero (cpu d).
Definition ramKnown (d : DataState) : bool := (0 <? ram d) && (0 <=? ram_used d).
Definition netKnown (d : DataState) : bool :=
  negb (F32.isnan (net_rx d)) && negb (F32.isnan (net_tx d)).

(** Line 162. *)
Definition netTotal (d : DataState) : F32.float :=
  F32.max F32.zero (F32.add (net_rx d) (net_tx d)).

(** Line 163: the scale after the jump to a new peak. *)
Definition netPeak (total netMax : F32.float) : F32.float :=
  if F32.ltb netMax total then total else netMax.

(** Line 164. *)
Definition netRatio (total netMax : F32.float) : F32.float :=
  if F32.ltb F32.zero netMax then F32.div total netMax else F32.zero.

(** Line 165. *)
Definition netDecay (netMax : F32.float) : F32.float :=
  let m := F32.mul netMax F32.c0_996 in
  if F32.ltb m F32.one then F32.one else m.

(** Lines 170-176. *)
Definition tickerOf (d : DataState) : string :=
  let t := ""%string in
  let t := if negb (F32.isnan (tempC d))
           then (t ++ " " ++ string_of_Z (F32.to_int (tempC d)) ++ "C")%string
           else t in
  let t := if cpuKnown d
           then (t ++ "  CPU " ++ string_of_Z (F32.to_int (cpu d)) ++ "%")%string
           else t in
  let t := if ramKnown d
           then let freeMB := Z.quot (ram d - ram_used d) 1024 in
                (t ++ "  RAM " ++ string_of_Z freeMB ++ "MB")%string
           else t in
  let t := if 0 <=? diskFreeKB d
           then (t ++ "  DISK " ++ fmtDisk (diskFreeKB d))%string
           else t in
  let t := if 0 <=? uptime d
           then (t ++ "  UPT " ++ fmtUptime (uptime d))%string
           else t in
  let t := if Nat.eqb (String.length t) 0 then " Smart Monitor"%string else t in
  (t ++ "   ")%string.

(** Lines 158-180: the targets, the network scale, the ticker and
    [hasData], from the merged snapshot [d]. *)
Definition updateUi (d : DataState) (u : UIState) : UIState :=
  let total := netTotal d in
  let peak := netPeak total (netMaxKBs u) in
  let text := tickerOf d in
  let w := textWidth text 1 in
  {| hasData := true;
     tgtCpu := if cpuKnown d then cpu d else tgtCpu u;
     tgtRamRatio := if ramKnown d
                    then F32.div (F32.of_Z (ram_used d)) (F32.of_Z (ram d))
                    else tgtRamRatio u;
     tgtNetRatio := if netKnown d then netRatio total peak else tgtNetRatio u;
     curCpu := curCpu u;
     curRamRatio := curRamRatio u;
     curNetRatio := curNetRatio u;
     netMaxKBs := if netKnown d then netDecay peak else netMaxKBs u;
     tickerText := text;
     tickerX := if SCREEN_WIDTH <? tickerX u then SCREEN_WIDTH else tickerX u;
     tickerW := if w <? 1 then 1 else w;
     gaugesBottomY := gaugesBottomY u;
     tamaBlink := tamaBlink u;
     tamaBlinkUntil := tamaBlinkUntil u;
     tamaNextBlink := tamaNextBlink u;
     tamaMouthPhase := tamaMouthPhase u;
     tamaMouthMs := tamaMouthMs u;
     tamaWink := tamaWink u;
     tamaWinkUntil := tamaWinkUntil u;
     tamaSweat := tamaSweat u;
     tamaSweatUntil := tamaSweatUntil u;
     headBob := headBob u;
     tamaSleeping := tamaSleeping u;
     lowLoadSince := lowLoadSince u;
     sleepStep := sleepStep u;
     sleepMs := sleepMs u |}.

Definition set_data_ui (w : World) (d : DataState) (u : UIState) (app : string)
  : World :=
  {| data := d; ui := u; appName := app;
     lastDataMs := lastDataMs w; lastAnim := lastAnim w;
     nextWink := nextWink w; nextSweat := nextSweat w;
     lastPaint := lastPaint w; serialOut := serialOut w |}.

Definition serialPrintln (msg : string) (w : World) : World :=
  {| data := data w; ui := ui w; appName := appName w;
     lastDataMs := lastDataMs w; lastAnim := lastAnim w;
     nextWink := nextWink w; nextSweat := nextSweat w;
     lastPaint := lastPaint w; serialOut := serialOut w ++ [msg] |}.

(** The function, applied to the outcome of [deserializeJson] on the line. *)
Definition updateFromJsonLine (parsed : Deserialized) (w : World) : bool * World :=
  match parsed with
  | DeserializationError f_str =>
      (false, serialPrintln ("Erreur JSON: " ++ f_str) w)
  | DeserializationOk doc =>
      let d := mergeDoc doc (data w) in
      (true, set_data_ui w d (updateUi d (ui w)) (mergeApp doc (appName w)))
  end.

(** ** [loop] *)

(** [unsigned long] arithmetic. *)
Definition u32 (z : Z) : Z := z mod 2 ^ 32.

(** What one pass of [loop] reads from outside: the lines completed while
    the serial buffer is drained (the parse outcome of each, and [millis()]
    at line 411), [millis()] at each later call site, the [random] draws
    and the rounded sine of line 479. *)
Record Frame := {
  received : list (Deserialized * Z);
  ms_wait : Z;          (* line 365 *)
  ms_wait_set : Z;      (* line 366 *)
  ms_conn : Z;          (* line 426 *)
  ms_gate : Z;          (* line 432 *)
  ms_anim : Z;          (* line 433 *)
  ms_now : Z;           (* line 446 *)
  ms_wake : Z;          (* line 489 *)
  ms_zz : Z;            (* line 319, the test *)
  ms_zz_set : Z;        (* line 319, the assignment *)
  rnd_wink : Z;         (* random(100), line 458 *)
  rnd_wink_next : Z;    (* random(2000), line 461 *)
  rnd_sweat : Z;        (* random(100), line 473 *)
  rnd_sweat_next : Z;   (* random(2000), line 474 *)
  sin_bob : Z           (* (int8_t)(sin(now / 400.0) * 1.5), line 479 *)
}.

Definition set_ui (w : World) (u : UIState) : World :=
  set_data_ui w (data w) u (appName w).

Definition set_statics (w : World) (lastData lastAn nextW nextS lastP : Z) : World :=
  {| data := data w; ui := ui w; appName := appName w;
     lastDataMs := lastData; lastAnim := lastAn;
     nextWink := nextW; nextSweat := nextS;
     lastPaint := lastP; serialOut := serialOut w |}.

(** Line 411. *)
Definition receiveLine (w : World) (line : Deserialized * Z) : World :=
  let (ok, w') := updateFromJsonLine (fst line) w in
  if ok
  then set_statics w' (snd line) (lastAnim w') (nextWink w') (nextSweat w') (lastPaint w')
  else w'.

(** [paintWaiting], as far as the state goes. *)
Definition paintWaiting (f : Frame) (w : World) : World :=
  if u32 (ms_wait f - lastPaint w) <? 1000 then w
  else set_statics w (lastDataMs w) (lastAnim w) (nextWink w) (nextSweat w) (ms_wait_set f).

(** Lines 435-440: one step toward the target, then the clamp. *)
Definition approach (cur tgt : F32.float) : F32.float :=
  F32.add cur (F32.mul (F32.sub tgt cur) F32.c0_15).

Definition clamp (hi x : F32.float) : F32.float :=
  let x := if F32.ltb x F32.zero then F32.zero else x in
  if F32.ltb hi x then hi else x.

Definition smooth (hi cur tgt : F32.float) : F32.float := clamp hi (approach cur tgt).

(** Lines 469 and 482, from the animated values. *)
Definition smoothedLoad (cpuNow ramNow : F32.float) : F32.float :=
  F32.mul (F32.add (F32.add F32.zero (F32.div cpuNow F32.hundred)) ramNow) F32.c0_5.

Definition lowLoad (load : F32.float) : bool := F32.ltb load F32.c0_22.

(** Lines 426 and 489: more than 4000 ms since the last decoded line. *)
Definition stale (now lastData : Z) : bool := 4000 <? u32 (now - lastData).

(** Lines 435-491. *)
Definition animate (f : Frame) (w : World) : World :=
  let u := ui w in
  let cpu' := smooth F32.hundred (curCpu u) (tgtCpu u) in
  let ram' := smooth F32.one (curRamRatio u) (tgtRamRatio u) in
  let net' := smooth F32.one (curNetRatio u) (tgtNetRatio u) in
  let tx := tickerX u - 1 in
  let tx := if tx + tickerW u <? 0 then SCREEN_WIDTH else tx in
  let now := ms_now f in
  (* blink *)
  let due := tamaNextBlink u <? now in
  let blink := if due then true else tamaBlink u in
  let blinkUntil := if due then u32 (now + 120) else tamaBlinkUntil u in
  let nextBlink := if due then u32 (now + 2000 + now mod 3000) else tamaNextBlink u in
  let blink := if blink && (blinkUntil <? now) then false else blink in
  (* mouth phase *)
  let mouthDue := 300 <? u32 (now - tamaMouthMs u) in
  let mouthMs := if mouthDue then now else tamaMouthMs u in
  let mouthPhase := if mouthDue then Z.land (tamaMouthPhase u + 1) 3 else tamaMouthPhase u in
  (* wink *)
  let winkDue := nextWink w <? now in
  let winks := winkDue && (rnd_wink f <? 10) && negb blink in
  let wink := if winks then true else tamaWink u in
  let winkUntil := if winks then u32 (now + 120) else tamaWinkUntil u in
  let nextWink' := if winkDue then u32 (now + 1500 + rnd_wink_next f) else nextWink w in
  let wink := if wink && (winkUntil <? now) then false else wink in
  (* sweat *)
  let loadNow := smoothedLoad cpu' ram' in
  let sweatDue := nextSweat w <? now in
  let prob :=
    F32.to_int (F32.mul (F32.max F32.zero (F32.sub loadNow F32.c0_7)) F32.hundred) + 5 in
  let sweats := sweatDue && (rnd_sweat f <? prob) in
  let sweat := if sweats then true else tamaSweat u in
  let sweatUntil := if sweats then u32 (now + 500) else tamaSweatUntil u in
  let nextSweat' := if sweatDue then u32 (now + 2000 + rnd_sweat_next f) else nextSweat w in
  let sweat := if sweat && (sweatUntil <? now) then false else sweat in
  (* sleep *)
  let curLoad := smoothedLoad cpu' ram' in
  let low := lowLoad curLoad in
  let since :=
    if low then (if lowLoadSince u =? 0 then now else lowLoadSince u) else 0 in
  let sleeping :=
    if low
    then (if negb (tamaSleeping u) && (9000 <? u32 (now - since)) then true
          else tamaSleeping u)
    else (if stale (ms_wake f) (lastDataMs w) then tamaSleeping u else false) in
  let step := if low then sleepStep u else 0 in
  let u' :=
    {| hasData := hasData u;
       tgtCpu := tgtCpu u; tgtRamRatio := tgtRamRatio u; tgtNetRatio := tgtNetRatio u;
       curCpu := cpu'; curRamRatio := ram'; curNetRatio := net';
       netMaxKBs := netMaxKBs u;
       tickerText := tickerText u; tickerX := tx; tickerW := tickerW u;
       gaugesBottomY := gaugesBottomY u;
       tamaBlink := blink; tamaBlinkUntil := blinkUntil; tamaNextBlink := nextBlink;
       tamaMouthPhase := mouthPhase; tamaMouthMs := mouthMs;
       tamaWink := wink; tamaWinkUntil := winkUntil;
       tamaSweat := sweat; tamaSweatUntil := sweatUntil;
       headBob := sin_bob f;
       tamaSleeping := sleeping; lowLoadSince := since;
       sleepStep := step; sleepMs := sleepMs u |} in
  set_statics (set_ui w u') (lastDataMs w) (lastAnim w) nextWink' nextSweat' (lastPaint w).

(** ** [drawInfoLines]: the face *)

Inductive DrawCmd :=
| DrawFastHLine (x y w : Z)
| FillRect (x y w h : Z)
| DrawLine (x0 y0 x1 y1 : Z).

(** Lines 269-273: the load the face is chosen from, computed from the
    snapshot [data]. *)
Definition moodLoad (d : DataState) : F32.float :=
  let load := F32.zero in
  let load := if cpuKnown d then F32.add load (F32.div (cpu d) F32.hundred) else load in
  let load := if ramKnown d
              then F32.add load (F32.div (F32.of_Z (ram_used d)) (F32.of_Z (ram d)))
              else load in
  F32.mul load F32.c0_5.

Inductive Brows := BrowsHappy | BrowsNone | BrowsSad.
Inductive Mouth := MouthSmile | MouthFlat | MouthSad.

(** The if-chain of lines 293-314. *)
Definition browsOf (sleeping : bool) (load : F32.float) : Brows :=
  if sleeping then BrowsNone
  else if F32.ltb load F32.c0_42 then BrowsHappy
  else if F32.ltb F32.c0_68 load then BrowsSad
  else BrowsNone.

(** Line 295 when asleep, else the if-chain of lines 331-344. *)
Definition mouthOf (sleeping : bool) (load : F32.float) : Mouth :=
  if sleeping then MouthFlat
  else if F32.ltb load F32.c0_42 then MouthSmile
  else if F32.ltb load F32.c0_68 then MouthFlat
  else MouthSad.

(** Lines 317-321: the phase of the sleep bubble, advanced at most once
    per 600 ms while asleep. *)
Definition sleepBubble (f : Frame) (u : UIState) : Z * Z :=
  if tamaSleeping u && (600 <? u32 (ms_zz f - sleepMs u))
  then (ms_zz_set f, Z.rem (sleepStep u + 1) 3)
  else (sleepMs u, sleepStep u).

Definition drawInfoLines (f : Frame) (d : DataState) (u : UIState)
  : list DrawCmd * UIState :=
  let headerH := 10 in
  let leftX := 2 in
  let gap := 2 in
  let halfW := Z.quot (SCREEN_WIDTH - 4 - gap) 2 in
  let leftColW := Z.quot (halfW * 2) 3 in
  let startRight := leftX + leftColW + gap in
  let colW := SCREEN_WIDTH - startRight - 2 in
  let tickH := 9 in
  let topY := headerH + 2 in
  let bottomY := SCREEN_HEIGHT - tickH in
  let areaH := bottomY - topY in
  let areaW := colW in
  let w := Z.min areaW areaH in
  let w := if w <? 22 then 22 else w in
  let w := if 50 <? w then 50 else w in
  let cx := startRight + Z.quot areaW 2 in
  let cy := topY + Z.quot areaH 2 + headBob u in
  let load := moodLoad d in
  let r := Z.quot w 2 - 1 in
  let eyeY := cy - Z.quot r 4 in
  let eyeDX := Z.quot r 2 in
  let eyeW := Z.max 2 (Z.quot r 5) in
  let eyeHLeft := if tamaBlink u || tamaWink u then 1 else Z.max 2 (Z.quot r 5) in
  let eyeHRight := if tamaBlink u then 1 else Z.max 2 (Z.quot r 5) in
  let eyes :=
    if tamaSleeping u
    then [ DrawFastHLine (cx - eyeDX - Z.quot eyeW 2) eyeY eyeW;
           DrawFastHLine (cx + eyeDX - Z.quot eyeW 2) eyeY eyeW ]
    else [ FillRect (cx - eyeDX - Z.quot eyeW 2) (eyeY - Z.quot eyeHLeft 2) eyeW eyeHLeft;
           FillRect (cx + eyeDX - Z.quot eyeW 2) (eyeY - Z.quot eyeHRight 2) eyeW eyeHRight ] in
  let mouthY := cy + Z.quot r 4 in
  let mouthW := Z.max 6 (F32.to_int (F32.mul (F32.of_Z r) F32.c0_7)) in
  let flat := DrawFastHLine (cx - Z.quot mouthW 2) mouthY mouthW in
  let asleepMouth := if tamaSleeping u then [flat] else [] in
  let brows :=
    match browsOf (tamaSleeping u) load with
    | BrowsHappy =>
        let lx0 := cx - eyeDX - eyeW in
        let lx1 := cx - eyeDX + eyeW in
        let lxc := Z.quot (lx0 + lx1) 2 in
        let ly := eyeY - eyeHLeft - 4 in
        let rx0 := cx + eyeDX - eyeW in
        let rx1 := cx + eyeDX + eyeW in
        let rxc := Z.quot (rx0 + rx1) 2 in
        let ry := eyeY - eyeHRight - 4 in
        [ DrawLine lx0 ly lxc (ly - 2); DrawLine lxc (ly - 2) lx1 ly;
          DrawLine rx0 ry rxc (ry - 2); DrawLine rxc (ry - 2) rx1 ry ]
    | BrowsSad =>
        [ DrawLine (cx - eyeDX - eyeW) (eyeY - eyeHLeft - 1) (cx - eyeDX + eyeW) (eyeY - eyeHLeft - 0);
          DrawLine (cx + eyeDX - eyeW) (eyeY - eyeHRight - 0) (cx + eyeDX + eyeW) (eyeY - eyeHRight - 1) ]
    | BrowsNone => []
    end in
  let (zzMs, zzStep) := sleepBubble f u in
  let zz :=
    if tamaSleeping u
    then
      let zx := cx + r - 4 in
      let zy := cy - r + 4 + (if zzStep =? 1 then -1 else if zzStep =? 2 then -2 else 0) in
      [ DrawLine zx zy (zx + 3) zy; DrawLine (zx + 1) (zy - 1) (zx + 1) (zy + 2);
        DrawLine zx (zy + 2) (zx + 3) (zy + 2); DrawLine (zx + 5) (zy - 3) (zx + 8) (zy - 3);
        DrawLine (zx + 6) (zy - 4) (zx + 6) (zy - 1); DrawLine (zx + 5) (zy - 1) (zx + 8) (zy - 1) ]
    else [] in
  let mouth :=
    if tamaSleeping u then []
    else match mouthOf (tamaSleeping u) load with
         | MouthSmile =>
             [ DrawLine (cx - Z.quot mouthW 2) (mouthY + 2) cx (mouthY + 4);
               DrawLine cx (mouthY + 4) (cx + Z.quot mouthW 2) (mouthY + 2) ]
         | MouthFlat => [flat]
         | MouthSad =>
             [ DrawLine (cx - Z.quot mouthW 2) (mouthY + 2) cx mouthY;
               DrawLine cx mouthY (cx + Z.quot mouthW 2) (mouthY + 2) ]
         end in
  let sweat :=
    if tamaSweat u
    then let sx := cx + eyeDX + 2 in
         let sy := eyeY - 2 in
         [ DrawLine sx sy (sx + 1) (sy + 2); DrawLine (sx + 1) (sy + 2) sx (sy + 4) ]
    else [] in
  let u' :=
    {| hasData := hasData u;
       tgtCpu := tgtCpu u; tgtRamRatio := tgtRamRatio u; tgtNetRatio := tgtNetRatio u;
       curCpu := curCpu u; curRamRatio := curRamRatio u; curNetRatio := curNetRatio u;
       netMaxKBs := netMaxKBs u;
       tickerText := tickerText u; tickerX := tickerX u; tickerW := tickerW u;
       gaugesBottomY := gaugesBottomY u;
       tamaBlink := tamaBlink u; tamaBlinkUntil := tamaBlinkUntil u;
       tamaNextBlink := tamaNextBlink u;
       tamaMouthPhase := tamaMouthPhase u; tamaMouthMs := tamaMouthMs u;
       tamaWink := tamaWink u; tamaWinkUntil := tamaWinkUntil u;
       tamaSweat := tamaSweat u; tamaSweatUntil := tamaSweatUntil u;
       headBob := headBob u;
       tamaSleeping := tamaSleeping u; lowLoadSince := lowLoadSince u;
       sleepStep := zzStep; sleepMs := zzMs |} in
  (eyes ++ asleepMouth ++ brows ++ zz ++ mouth ++ sweat, u').

(** [drawGauges], as far as the state goes: [ui.gaugesBottomY]. *)
Definition drawGauges (u : UIState) : UIState :=
  let headerH := 10 in
  let y := headerH + 2 in
  let y := y + 8 in
  let y := y + 7 + 3 in
  let y := y + 8 in
  let y := y + 7 in
  {| hasData := hasData u;
     tgtCpu := tgtCpu u; tgtRamRatio := tgtRamRatio u; tgtNetRatio := tgtNetRatio u;
     curCpu := curCpu u; curRamRatio := curRamRatio u; curNetRatio := curNetRatio u;
     netMaxKBs := netMaxKBs u;
     tickerText := tickerText u; tickerX := tickerX u; tickerW := tickerW u;
     gaugesBottomY := y;
     tamaBlink := tamaBlink u; tamaBlinkUntil := tamaBlinkUntil u;
     tamaNextBlink := tamaNextBlink u;
     tamaMouthPhase := tamaMouthPhase u; tamaMouthMs := tamaMouthMs u;
     tamaWink := tamaWink u; tamaWinkUntil := tamaWinkUntil u;
     tamaSweat := tamaSweat u; tamaSweatUntil := tamaSweatUntil u;
     headBob := headBob u;
     tamaSleeping := tamaSleeping u; lowLoadSince := lowLoadSince u;
     sleepStep := sleepStep u; sleepMs := sleepMs u |}.

(** Lines 494-499, as far as the state goes. *)
Definition render (f : Frame) (w : World) : World :=
  set_ui w (snd (drawInfoLines f (data w) (drawGauges (ui w)))).

(** Line 427. *)
Definition fallAsleep (u : UIState) : UIState :=
  {| hasData := hasData u;
     tgtCpu := tgtCpu u; tgtRamRatio := tgtRamRatio u; tgtNetRatio := tgtNetRatio u;
     curCpu := curCpu u; curRamRatio := curRamRatio u; curNetRatio := curNetRatio u;
     netMaxKBs := netMaxKBs u;
     tickerText := tickerText u; tickerX := tickerX u; tickerW := tickerW u;
     gaugesBottomY := gaugesBottomY u;
     tamaBlink := tamaBlink u; tamaBlinkUntil := tamaBlinkUntil u;
     tamaNextBlink := tamaNextBlink u;
     tamaMouthPhase := tamaMouthPhase u; tamaMouthMs := tamaMouthMs u;
     tamaWink := tamaWink u; tamaWinkUntil := tamaWinkUntil u;
     tamaSweat := tamaSweat u; tamaSweatUntil := tamaSweatUntil u;
     headBob := headBob u;
     tamaSleeping := true; lowLoadSince := lowLoadSince u;
     sleepStep := sleepStep u; sleepMs := sleepMs u |}.

(** Lines 406-418, for the lines completed in this pass. *)
Definition drainSerial (f : Frame) (w : World) : World :=
  fold_left receiveLine (received f) w.

(** Lines 426-428. *)
Definition connectionCheck (f : Frame) (w : World) : World :=
  if stale (ms_conn f) (lastDataMs w) then set_ui w (fallAsleep (ui w)) else w.

(** Line 432: the pass reaches the animation. *)
Definition animationDue (f : Frame) (w : World) : bool :=
  negb (u32 (ms_gate f - lastAnim w) <? 60).

(** Line 433. *)
Definition stampAnim (f : Frame) (w : World) : World :=
  set_statics w (lastDataMs w) (ms_anim f) (nextWink w) (nextSweat w) (lastPaint w).

(** Lines 435-499: one animation tick with its render. *)
Definition tick (f : Frame) (w : World) : World :=
  render f (animate f (stampAnim f w)).

Definition loop (f : Frame) (w : World) : World :=
  let w := drainSerial f w in
  if lastDataMs w =? 0 then paintWaiting f w
  else
    let w := connectionCheck f w in
    if animationDue f w then tick f w else w.

(** The firmware after [setup], run over the passes of [loop]. *)
Definition run (fs : list Frame) (w : World) : World := fold_left (fun w f => loop f w) fs w.

(** The pass reaches the animation (lines 422 and 432), and the state the
    animation then starts from. *)
Definition beforeTick (f : Frame) (w : World) : World :=
  stampAnim f (connectionCheck f (drainSerial f w)).

Definition ticks (f : Frame) (w : World) : bool :=
  negb (lastDataMs (drainSerial f w) =? 0)
  && animationDue f (connectionCheck f (drainSerial f w)).


(** ** Sample states and frames *)

(** A quiet frame: no line received, every clock read equal to [t]. *)
Definition frameAt (t : Z) : Frame := {|
  received := [];
  ms_wait := t; ms_wait_set := t; ms_conn := t; ms_gate := t; ms_anim := t;
  ms_now := t; ms_wake := t; ms_zz := t; ms_zz_set := t;
  rnd_wink := 50; rnd_wink_next := 0; rnd_sweat := 50; rnd_sweat_next := 0;
  sin_bob := 0
|}.

Definition frameWith (lines : list (Deserialized * Z)) (t : Z) : Frame := {|
  received := lines;
  ms_wait := t; ms_wait_set := t; ms_conn := t; ms_gate := t; ms_anim := t;
  ms_now := t; ms_wake := t; ms_zz := t; ms_zz_set := t;
  rnd_wink := 50; rnd_wink_next := 0; rnd_sweat := 50; rnd_sweat_next := 0;
  sin_bob := 0
|}.

(** A state that has settled at the given CPU level (target and animated
    value equal), with the given sleep fields and time of the last decode. *)
Definition settledAt (level : F32.float) (sleeping : bool) (since step lastData : Z)
  : World := {|
  data := data0;
  ui := {| hasData := true;
           tgtCpu := level; tgtRamRatio := F32.zero; tgtNetRatio := F32.zero;
           curCpu := level; curRamRatio := F32.zero; curNetRatio := F32.zero;
           netMaxKBs := F32.one;
           tickerText := " Smart Monitor   "; tickerX := SCREEN_WIDTH; tickerW := 102;
           gaugesBottomY := 45;
           tamaBlink := false; tamaBlinkUntil := 0; tamaNextBlink := 0;
           tamaMouthPhase := 0; tamaMouthMs := 0;
           tamaWink := false; tamaWinkUntil := 0;
           tamaSweat := false; tamaSweatUntil := 0;
           headBob := 0;
           tamaSleeping := sleeping; lowLoadSince := since;
           sleepStep := step; sleepMs := 0 |};
  appName := "";
  lastDataMs := lastData; lastAnim := 0; nextWink := 0; nextSweat := 0; lastPaint := 0;
  serialOut := []
|}.

(** The load that the sleep logic of a tick compares with 0.22: the one of
    the animated values the tick has just computed. *)
Definition loadAfter (f : Frame) (w : World) : F32.float :=
  smoothedLoad (curCpu (ui (animate f w))) (curRamRatio (ui (animate f w))).

(** Every pass of [fs] that reaches the animation finds the smoothed load
    below 0.22. *)
Fixpoint lowLoadThroughout (fs : list Frame) (w : World) : Prop :=
  match fs with
  | [] => True
  | f :: fs' =>
      (ticks f w = true -> lowLoad (loadAfter f (beforeTick f w)) = true)
      /\ lowLoadThroughout fs' (loop f w)
  end.


(** ** The mood bands as the specification words them

    [moodAsSpecified] follows the specification, not the code: the load is
    taken from the animated values, and the band limits are 0.42 and 0.68
    with both ends of the middle band included. *)
Inductive Mood := Happy | Neutral | Sad.

Definition moodAsSpecified (u : UIState) : Mood :=
  let load :=
    F32.add (F32.mul F32.c0_5 (F32.div (curCpu u) F32.hundred))
            (F32.mul F32.c0_5 (curRamRatio u)) in
  if F32.ltb load F32.c0_42 then Happy
  else if F32.leb load F32.c0_68 then Neutral
  else Sad.

Definition browsFor (m : Mood) : Brows :=
  match m with Happy => BrowsHappy | Neutral => BrowsNone | Sad => BrowsSad end.

Definition mouthFor (m : Mood) : Mouth :=
  match m with Happy => MouthSmile | Neutral => MouthFlat | Sad => MouthSad end.

(** A snapshot with the given CPU and RAM members and nothing else. *)
Definition snapshotOf (cpuPercent : F32.float) (ramTotal ramUsed : Z) : DataState := {|
  cpu := cpuPercent; ram := ramTotal; ram_used := ramUsed; tempC := F32.nan;
  weatherDesc := ""; host := ""; epoch := 0; uptime := -1; diskFreeKB := -1;
  net_rx := F32.nan; net_tx := F32.nan
|}.

(** [u] with the three animated values replaced. *)
Definition set_cur (u : UIState) (c r n : F32.float) : UIState :=
  {| hasData := hasData u;
     tgtCpu := tgtCpu u; tgtRamRatio := tgtRamRatio u; tgtNetRatio := tgtNetRatio u;
     curCpu := c; curRamRatio := r; curNetRatio := n;
     netMaxKBs := netMaxKBs u;
     tickerText := tickerText u; tickerX := tickerX u; tickerW := tickerW u;
     gaugesBottomY := gaugesBottomY u;
     tamaBlink := tamaBlink u; tamaBlinkUntil := tamaBlinkUntil u;
     tamaNextBlink := tamaNextBlink u;
     tamaMouthPhase := tamaMouthPhase u; tamaMouthMs := tamaMouthMs u;
     tamaWink := tamaWink u; tamaWinkUntil := tamaWinkUntil u;
     tamaSweat := tamaSweat u; tamaSweatUntil := tamaSweatUntil u;
     headBob := headBob u;
     tamaSleeping := tamaSleeping u; lowLoadSince := lowLoadSince u;
     sleepStep := sleepStep u; sleepMs := sleepMs u |}.

(** ** The faces

    The drawings that make up a face, for a head centred at [(85, cy)]
    whose eyes are [hl] and [hr] pixels high: the eyes open and closed,
    the raised brows of the happy face and the slanted brows of the sad
    one, the three mouths, the sweat drop and the two small letters Z of
    the sleep bubble (top of the first at row [zy]). *)
Definition openEyes (cy hl hr : Z) : list DrawCmd :=
  [ FillRect 73 (cy - 5 - Z.quot hl 2) 4 hl; FillRect 93 (cy - 5 - Z.quot hr 2) 4 hr ].

Definition closedEyes (cy : Z) : list DrawCmd :=
  [ DrawFastHLine 73 (cy - 5) 4; DrawFastHLine 93 (cy - 5) 4 ].

Definition raisedBrows (cy hl hr : Z) : list DrawCmd :=
  [ DrawLine 71 (cy - 5 - hl - 4) 75 (cy - 5 - hl - 4 - 2);
    DrawLine 75 (cy - 5 - hl - 4 - 2) 79 (cy - 5 - hl - 4);
    DrawLine 91 (cy - 5 - hr - 4) 95 (cy - 5 - hr - 4 - 2);
    DrawLine 95 (cy - 5 - hr - 4 - 2) 99 (cy - 5 - hr - 4) ].

Definition slantedBrows (cy hl hr : Z) : list DrawCmd :=
  [ DrawLine 71 (cy - 5 - hl - 1) 79 (cy - 5 - hl - 0);
    DrawLine 91 (cy - 5 - hr - 0) 99 (cy - 5 - hr - 1) ].

Definition smileMouth (cy : Z) : list DrawCmd :=
  [ DrawLine 78 (cy + 5 + 2) 85 (cy + 5 + 4); DrawLine 85 (cy + 5 + 4) 92 (cy + 5 + 2) ].

Definition flatMouth (cy : Z) : list DrawCmd := [ DrawFastHLine 78 (cy + 5) 14 ].

Definition sadMouth (cy : Z) : list DrawCmd :=
  [ DrawLine 78 (cy + 5 + 2) 85 (cy + 5); DrawLine 85 (cy + 5) 92 (cy + 5 + 2) ].

Definition sweatDrop (cy : Z) : list DrawCmd :=
  [ DrawLine 97 (cy - 5 - 2) 98 (cy - 5 - 2 + 2); DrawLine 98 (cy - 5 - 2 + 2) 97 (cy - 5 - 2 + 4) ].

Definition sleepLetters (zy : Z) : list DrawCmd :=
  [ DrawLine 101 zy 104 zy; DrawLine 102 (zy - 1) 102 (zy + 2);
    DrawLine 101 (zy + 2) 104 (zy + 2); DrawLine 106 (zy - 3) 109 (zy - 3);
    DrawLine 107 (zy - 4) 107 (zy - 1); DrawLine 106 (zy - 1) 109 (zy - 1) ].

Definition browsShapes (b : Brows) (cy hl hr : Z) : list DrawCmd :=
  match b with
  | BrowsHappy => raisedBrows cy hl hr
  | BrowsNone => []
  | BrowsSad => slantedBrows cy hl hr
  end.

Definition mouthShapes (m : Mouth) (cy : Z) : list DrawCmd :=
  match m with
  | MouthSmile => smileMouth cy
  | MouthFlat => flatMouth cy
  | MouthSad => sadMouth cy
  end.

(** The face of a mood, awake: open eyes (one pixel high while blinking,
    the left one also while winking), the brows and the mouth of the mood,
    and the sweat drop when there is one. *)
Definition faceOf (m : Mood) (u : UIState) : list DrawCmd :=
  let cy := 33 + headBob u in
  let hl := if tamaBlink u || tamaWink u then 1 else 4 in
  let hr := if tamaBlink u then 1 else 4 in
  openEyes cy hl hr ++ browsShapes (browsFor m) cy hl hr ++ mouthShapes (mouthFor m) cy
  ++ (if tamaSweat u then sweatDrop cy else []).

(** The face asleep, with the sleep bubble in phase [step]: closed eyes, a
    flat mouth, no brows, the letters of the bubble. *)
Definition faceAsleep (step : Z) (u : UIState) : list DrawCmd :=
  let cy := 33 + headBob u in
  closedEyes cy ++ flatMouth cy
  ++ sleepLetters (cy - 20 + 4 + (if step =? 1 then -1 else if step =? 2 then -2 else 0))
  ++ (if tamaSweat u then sweatDrop cy else []).

(** The document of the line [{"cpu": c}]. *)
Definition cpuDoc (c : F32.float) : JsonDoc := {|
  j_cpu := Some c; j_ram := None; j_ram_used := None; j_weather_temp := None;
  j_host := None; j_time := None; j_uptime := None; j_disk_free := None;
  j_net_rx := None; j_net_tx := None; j_app := None
|}.

(** ** The ticker, field by field

    The labelled texts of the fields that are available, in ticker order:
    the temperature behind one space, the other four behind two spaces and
    their label. *)
Definition tickerFields (d : DataState) : list string :=
  (if negb (F32.isnan (tempC d))
   then [(" " ++ string_of_Z (F32.to_int (tempC d)) ++ "C")%string] else [])
  ++ (if cpuKnown d
      then [("  CPU " ++ string_of_Z (F32.to_int (cpu d)) ++ "%")%string] else [])
  ++ (if ramKnown d
      then [("  RAM " ++ string_of_Z (Z.quot (ram d - ram_used d) 1024) ++ "MB")%string]
      else [])
  ++ (if 0 <=? diskFreeKB d then [("  DISK " ++ fmtDisk (diskFreeKB d))%string] else [])
  ++ (if 0 <=? uptime d then [("  UPT " ++ fmtUptime (uptime d))%string] else []).

Definition placeholder : string := " Smart Monitor".
Definition padding : string := "   ".

(** The same fields as the specification words them: every one of them,
    the temperature included, behind two spaces. *)
Definition tickerFieldsAsSpecified (d : DataState) : list string :=
  (if negb (F32.isnan (tempC d))
   then [("  " ++ string_of_Z (F32.to_int (tempC d)) ++ "C")%string] else [])
  ++ (if cpuKnown d
      then [("  CPU " ++ string_of_Z (F32.to_int (cpu d)) ++ "%")%string] else [])
  ++ (if ramKnown d
      then [("  RAM " ++ string_of_Z (Z.quot (ram d - ram_used d) 1024) ++ "MB")%string]
      else [])
  ++ (if 0 <=? diskFreeKB d then [("  DISK " ++ fmtDisk (diskFreeKB d))%string] else [])
  ++ (if 0 <=? uptime d then [("  UPT " ++ fmtUptime (uptime d))%string] else []).

Definition tickerFrom (fields : list string) : string :=
  match fields with
  | [] => (placeholder ++ padding)%string
  | _ => (String.concat "" fields ++ padding)%string
  end.

(** The document of the line [{"weather":{"temp": t}}]. *)
Definition tempDoc (t : F32.float) : JsonDoc := {|
  j_cpu := None; j_ram := None; j_ram_used := None; j_weather_temp := Some t;
  j_host := None; j_time := None; j_uptime := None; j_disk_free := None;
  j_net_rx := None; j_net_tx := None; j_app := None
|}.

(** The document of a full status line. *)
Definition statusDoc (c : F32.float) (ramTotal ramUsed : Z) (t : F32.float)
  (disk up : Z) (rx tx : F32.float) : JsonDoc := {|
  j_cpu := Some c; j_ram := Some ramTotal; j_ram_used := Some ramUsed;
  j_weather_temp := Some t;
  j_host := Some "desk"%string; j_time := Some 1700000000; j_uptime := Some up;
  j_disk_free := Some disk;
  j_net_rx := Some rx; j_net_tx := Some tx; j_app := Some " editor "%string
|}.

(** ** What a decode derives from the snapshot *)

(** [u] with the network target and the network scale replaced. *)
Definition set_net (u : UIState) (ratio scale : F32.float) : UIState :=
  {| hasData := hasData u;
     tgtCpu := tgtCpu u; tgtRamRatio := tgtRamRatio u; tgtNetRatio := ratio;
     curCpu := curCpu u; curRamRatio := curRamRatio u; curNetRatio := curNetRatio u;
     netMaxKBs := scale;
     tickerText := tickerText u; tickerX := tickerX u; tickerW := tickerW u;
     gaugesBottomY := gaugesBottomY u;
     tamaBlink := tamaBlink u; tamaBlinkUntil := tamaBlinkUntil u;
     tamaNextBlink := tamaNextBlink u;
     tamaMouthPhase := tamaMouthPhase u; tamaMouthMs := tamaMouthMs u;
     tamaWink := tamaWink u; tamaWinkUntil := tamaWinkUntil u;
     tamaSweat := tamaSweat u; tamaSweatUntil := tamaSweatUntil u;
     headBob := headBob u;
     tamaSleeping := tamaSleeping u; lowLoadSince := lowLoadSince u;
     sleepStep := sleepStep u; sleepMs := sleepMs u |}.

(** The network target and scale that a decode computes from the
    snapshot [d] and the scale [scale] (lines 161-166). *)
Definition netUpdate (d : DataState) (u : UIState) : UIState :=
  if netKnown d
  then set_net u (netRatio (netTotal d) (netPeak (netTotal d) (netMaxKBs u)))
               (netDecay (netPeak (netTotal d) (netMaxKBs u)))
  else u.

(** The derived fields agree with the snapshot: what holds of every state
    once a line has been decoded. *)
Definition derived (w : World) : Prop :=
  tickerX (ui w) <= SCREEN_WIDTH
  /\ (hasData (ui w) = true ->
      (cpuKnown (data w) = true -> tgtCpu (ui w) = cpu (data w))
      /\ (ramKnown (data w) = true ->
          tgtRamRatio (ui w) = F32.div (F32.of_Z (ram_used (data w))) (F32.of_Z (ram (data w))))
      /\ tickerText (ui w) = tickerOf (data w)
      /\ tickerW (ui w) = Z.max 1 (textWidth (tickerOf (data w)) 1)).

(** The document of the line [{"net":{"rx": rx, "tx": tx}}]. *)
Definition netDoc (rx tx : F32.float) : JsonDoc := {|
  j_cpu := None; j_ram := None; j_ram_used := None; j_weather_temp := None;
  j_host := None; j_time := None; j_uptime := None; j_disk_free := None;
  j_net_rx := Some rx; j_net_tx := Some tx; j_app := None
|}.

(** Two passes from power-on: the first decodes rx = tx = 100 KB/s, the
    second rx = tx = 50 KB/s. *)
Definition afterTwoNetLines : World :=
  run [ frameWith [(DeserializationOk (netDoc (F32.of_Z 100) (F32.of_Z 100)), 1000)] 1000;
        frameWith [(DeserializationOk (netDoc (F32.of_Z 50) (F32.of_Z 50)), 2000)] 2000 ]
      world0.

(** ** Well-formed input and the range invariant *)

(** A [long] of the target (32 bits). *)
Definition inLong (z : Z) : bool := (- 2 ^ 31 <=? z) && (z <? 2 ^ 31).

Definition whenSome {A : Type} (p : A -> bool) (member : option A) : bool :=
  match member with Some v => p v | None => true end.

(** What the types of the members give: the integers fit a [long], the
    numbers are binary32 numbers in canonical form. *)
Definition wfDoc (doc : JsonDoc) : bool :=
  whenSome F32.valid (j_cpu doc)
  && whenSome inLong (j_ram doc) && whenSome inLong (j_ram_used doc)
  && whenSome F32.valid (j_weather_temp doc)
  && whenSome inLong (j_time doc) && whenSome inLong (j_uptime doc)
  && whenSome inLong (j_disk_free doc)
  && whenSome F32.valid (j_net_rx doc) && whenSome F32.valid (j_net_tx doc).

Definition wfLine (line : Deserialized * Z) : bool :=
  match fst line with
  | DeserializationOk doc => wfDoc doc
  | DeserializationError _ => true
  end.

Definition wfFrame (f : Frame) : bool := forallb wfLine (received f).

(** A ratio that is a number is between 0 and 1. *)
Definition ratioOrNaN (x : F32.float) : Prop :=
  F32.isnan x = false -> F32.within F32.zero F32.one x = true.

(** The ranges the code keeps: the animated CPU and RAM values inside
    their range, the CPU and RAM targets at or above zero, the network scale
    at or above one, the network ratios inside [0, 1] as long as they are
    numbers. *)
Definition gaugesOk (w : World) : Prop :=
  inLong (ram (data w)) = true /\ inLong (ram_used (data w)) = true
  /\ F32.valid (net_rx (data w)) = true /\ F32.valid (net_tx (data w)) = true
  /\ F32.within F32.zero F32.hundred (curCpu (ui w)) = true
  /\ F32.within F32.zero F32.one (curRamRatio (ui w)) = true
  /\ F32.leb F32.zero (tgtCpu (ui w)) = true
  /\ F32.leb F32.zero (tgtRamRatio (ui w)) = true
  /\ F32.leb F32.one (netMaxKBs (ui w)) = true
  /\ F32.valid (netMaxKBs (ui w)) = true
  /\ ratioOrNaN (tgtNetRatio (ui w))
  /\ ratioOrNaN (curNetRatio (ui w)).

(** The binary32 number nearest to 3e38, a finite number. *)
Definition huge : F32.float := Eval vm_compute in F32.of_Z (3 * 10 ^ 38).

(** The document of the line [{"cpu": c, "ram": total, "ram_used": used}]. *)
Definition loadDoc (c : F32.float) (total used : Z) : JsonDoc := {|
  j_cpu := Some c; j_ram := Some total; j_ram_used := Some used; j_weather_temp := None;
  j_host := None; j_time := None; j_uptime := None; j_disk_free := None;
  j_net_rx := None; j_net_tx := None; j_app := None
|}.

(** ** The order of binary32 numbers

    [SFcompare] orders two numbers by sign, then exponent, then mantissa.
    [rank] makes that explicit: a triple compared lexicographically. *)

Definition rank (x : F32.float) : option (Z * Z * Z) :=
  match x with
  | S754_nan => None
  | S754_infinity false => Some (2, 0, 0)
  | S754_infinity true => Some (-2, 0, 0)
  | S754_zero _ => Some (0, 0, 0)
  | S754_finite false m e => Some (1, e, Zpos m)
  | S754_finite true m e => Some (-1, - e, Zneg m)
  end.

(** The lexicographic comparison of two triples. *)
Definition lex3 (a b : Z * Z * Z) : comparison :=
  let '(a1, a2, a3) := a in
  let '(b1, b2, b3) := b in
  match a1 ?= b1 with
  | Eq => match a2 ?= b2 with
          | Eq => a3 ?= b3
          | c => c
          end
  | c => c
  end.

(** The strict lexicographic order, as a proposition. *)
Definition lexlt (a b : Z * Z * Z) : Prop :=
  let '(a1, a2, a3) := a in
  let '(b1, b2, b3) := b in
  a1 < b1 \/ (a1 = b1 /\ (a2 < b2 \/ (a2 = b2 /\ a3 < b3))).

(** ** Rounding

    The pieces of [SpecFloat]'s rounding, read on integers. *)

(** Where the fraction [R / D], with [0 <= R < D], lies in the unit
    interval: at 0, or below, at, or above the middle. *)
Definition location_of (R D : Z) : location :=
  if R =? 0 then loc_Exact else loc_Inexact (2 * R ?= D).

(** The shift record [r] holds the quotient of [N] by [D] and the location
    of the remainder. *)
Definition represents (N D : Z) (r : shr_record) : Prop :=
  0 < D /\ 0 <= N /\ shr_m r = N / D
  /\ loc_of_shr_record r = location_of (N mod D) D.

(** Round to nearest, ties to even, of the fraction N / D. *)
Definition rne (N D : Z) : Z :=
  let q := N / D in
  match 2 * (N mod D) ?= D with
  | Lt => q
  | Gt => q + 1
  | Eq => if Z.even q then q else q + 1
  end.

(** The exponent of the last place of a binary32 number of magnitude
    below [2^e]. *)
Definition fexp32 (e : Z) : Z := Z.max (e - 24) (-149).

(** The number built from a rounded mantissa [mr <= 2^24] at exponent
    [E]: a carry into the 25th bit moves the exponent up, an exponent
    above 104 overflows to infinity. *)
Definition round_result (s : bool) (mr E : Z) : spec_float :=
  if mr =? 0 then S754_zero s
  else if mr =? 2 ^ 24
       then (if E + 1 <=? 104 then S754_finite s (2 ^ 23)%positive (E + 1)
             else S754_infinity s)
       else (if E <=? 104 then S754_finite s (Z.to_pos mr) E else S754_infinity s).

(** The sign of a number that is not NaN. *)
Definition signbit (x : F32.float) : bool :=
  match x with
  | S754_zero s | S754_infinity s | S754_finite s _ _ => s
  | S754_nan => false
  end.

(** The value of a finite number in units of [2^-K]. *)
Definition scaled (K : Z) (x : F32.float) : Z :=
  match x with
  | S754_finite s m e => cond_Zopp s (Z.pos m * 2 ^ (e + K))
  | _ => 0
  end.

(** A valid finite number: a zero or a canonical mantissa and exponent. *)
Definition finite (x : F32.float) : Prop :=
  F32.valid x = true /\ F32.is_finite x = true.

(** ** Runs of ticks *)

(** [n] smoothing steps from [cur] toward the fixed target [tgt]. *)
Definition settle (hi tgt : F32.float) (n : nat) (cur : F32.float) : F32.float :=
  Nat.iter n (fun c => smooth hi c tgt) cur.

(** The rational value of a finite number. *)
Definition value (x : F32.float) : Q :=
  match x with
  | S754_finite s m e => (inject_Z (cond_Zopp s (Z.pos m)) * (2 # 1) ^ e)%Q
  | _ => 0%Q
  end.

(** Consecutive animation ticks with no decode in between. *)
Definition ticksOf (fs : list Frame) (w : World) : World :=
  fold_left (fun w f => tick f w) fs w.
(** * The rest of the sketch

    The display helpers, the header, the gauges, the serial reader of
    [loop] and the parts of the animation that the theorems above do not
    reach. *)

(** ** More display helpers *)

Definition fmtTempC (t : Z) : string := (string_of_Z t ++ "C")%string.

(** [s.substring(0, maxChars)] is [String.substring 0 maxChars s]: the first
    [maxChars] characters. *)
Definition clipToWidth (s : string) (pxWidth : Z) : string :=
  let maxChars := Z.quot pxWidth 6 in
  let maxChars := if maxChars <? 0 then 0 else maxChars in
  if Zlength_string s <=? maxChars then s
  else String.substring 0 (Z.to_nat maxChars) s.

(** What the drawing functions send to the display besides the shapes of
    [DrawCmd]: the outline of a rectangle, and a text printed at a cursor
    position (6 pixels per character at size 1). *)
Inductive Paint :=
| PaintShape (c : DrawCmd)
| PaintRect (x y w h : Z)
| PaintText (x y : Z) (s : string).

(** The text of the temperature in the header, line 195. *)
Definition headerTemp (d : DataState) : string :=
  if F32.isnan (tempC d) then "--C"%string else fmtTempC (F32.to_int (tempC d)).

(** The title of the header, line 199. *)
Definition headerTitle (app : string) : string :=
  if 0 <? Zlength_string app then app else "SMON"%string.

(** [drawHeader]. *)
Definition drawHeader (d : DataState) (app : string) : list Paint :=
  let H := 10 in
  let tempStr := headerTemp d in
  let title := headerTitle app in
  let tempW := textWidth tempStr 1 in
  let xAvail := 2 + tempW + 4 in
  let availW := SCREEN_WIDTH - xAvail - 2 in
  let availW := if availW <? 0 then 0 else availW in
  let clipped := clipToWidth title availW in
  let tw := textWidth clipped 1 in
  let tx := xAvail + Z.quot (availW - tw) 2 in
  let tx := if tx <? xAvail then xAvail else tx in
  [ PaintShape (FillRect 0 0 SCREEN_WIDTH H);
    PaintText 2 2 tempStr;
    PaintText tx 2 clipped ].

(** The [n] numbers from [z] on print in at most [k] characters. *)
Fixpoint printsWithin (k : nat) (n : nat) (z : Z) : bool :=
  match n with
  | O => true
  | S n' => Nat.leb (String.length (string_of_Z z)) k && printsWithin k n' (z + 1)
  end.

(** ** Whitespace *)

Fixpoint allSpaces (s : string) : bool :=
  match s with
  | EmptyString => true
  | String c s' => isspace c && allSpaces s'
  end.

Definition startsWithSpace (s : string) : bool :=
  match s with
  | String c _ => isspace c
  | EmptyString => false
  end.

Definition endsWithSpace (s : string) : bool := startsWithSpace (rev_string s).

(** ** The serial reader of [loop] *)

(** ['\n'] or ['\r'], line 408. *)
Definition isLineEnd (c : ascii) : bool :=
  (Ascii.eqb c "010" || Ascii.eqb c "013")%bool.

(** Lines 407-417 for one character.  The state is the static buffer
    [line] with the rest of the program state; [deserializeJson] is the
    parser of the library, a function of the text; [t] is what [millis()]
    returns at line 411 if the line is decoded. *)
Definition readChar (deserializeJson : string -> Deserialized)
  (st : string * World) (ct : ascii * Z) : string * World :=
  let (line, w) := st in
  let (c, t) := ct in
  if isLineEnd c
  then let line := trim line in
       let w := if 0 <? Zlength_string line
                then receiveLine w (deserializeJson line, t)
                else w in
       (""%string, w)
  else ((if Zlength_string line <? 1536 then (line ++ String c "")%string else line), w).

(** Lines 406-418: the characters available in one pass. *)
Definition readSerial (deserializeJson : string -> Deserialized)
  (chars : list (ascii * Z)) (st : string * World) : string * World :=
  fold_left (readChar deserializeJson) chars st.

(** The text of the characters read. *)
Definition textOf (chars : list (ascii * Z)) : string :=
  string_of_list_ascii (map fst chars).

Definition noLineEnd (chars : list (ascii * Z)) : bool :=
  forallb (fun ct => negb (isLineEnd (fst ct))) chars.

(** The lines that the characters complete, each with its parse and its
    time stamp: the buffer alone decides them. *)
Fixpoint completedLines (deserializeJson : string -> Deserialized)
  (line : string) (chars : list (ascii * Z)) : list (Deserialized * Z) :=
  match chars with
  | [] => []
  | (c, t) :: rest =>
      if isLineEnd c
      then (if 0 <? Zlength_string (trim line)
            then [(deserializeJson (trim line), t)] else [])
           ++ completedLines deserializeJson "" rest
      else completedLines deserializeJson
             (if Zlength_string line <? 1536 then (line ++ String c "")%string else line)
             rest
  end.

(** ** Extents *)

(** The shape paints no pixel outside the columns [x0 .. x1] and the rows
    [y0 .. y1]. *)
Definition insideBox (x0 y0 x1 y1 : Z) (c : DrawCmd) : bool :=
  match c with
  | DrawFastHLine x y w =>
      (x0 <=? x) && (x + w - 1 <=? x1) && (y0 <=? y) && (y <=? y1)
  | FillRect x y w h =>
      (x0 <=? x) && (x + w - 1 <=? x1) && (y0 <=? y) && (y + h - 1 <=? y1)
  | DrawLine xa ya xb yb =>
      (x0 <=? xa) && (xa <=? x1) && (x0 <=? xb) && (xb <=? x1)
      && (y0 <=? ya) && (ya <=? y1) && (y0 <=? yb) && (yb <=? y1)
  end.

(** ** Passes without a decode *)

Definition failsToParse (line : Deserialized * Z) : bool :=
  match fst line with
  | DeserializationError _ => true
  | DeserializationOk _ => false
  end.

(** What every reachable state keeps of the counters and of the ticker. *)
Definition countersOk (w : World) : Prop :=
  0 <= tamaMouthPhase (ui w) <= 3
  /\ 0 <= sleepStep (ui w) <= 2
  /\ tickerX (ui w) <= SCREEN_WIDTH
  /\ 1 <= tickerW (ui w)
  /\ (hasData (ui w) = true ->
      tickerW (ui w) = 6 * Zlength_string (tickerText (ui w)) /\ 18 <= tickerW (ui w)).

(** ** Numbers in canonical form *)

(** The numbers of the state that the animation computes with are binary32
    numbers in canonical form. *)
Definition numbersOk (w : World) : Prop :=
  F32.valid (cpu (data w)) = true
  /\ F32.valid (tgtCpu (ui w)) = true
  /\ F32.valid (tgtRamRatio (ui w)) = true
  /\ F32.valid (curCpu (ui w)) = true
  /\ F32.valid (curRamRatio (ui w)) = true.

(** Lines 471-472: the chance, in percent, that a sweat drop appears when
    one is due. *)
Definition sweatChance (loadNow : F32.float) : Z :=
  F32.to_int (F32.mul (F32.max F32.zero (F32.sub loadNow F32.c0_7)) F32.hundred) + 5.

(** Lines 470-475: a sweat drop starts on this tick. *)
Definition sweatStarts (f : Frame) (w : World) : bool :=
  (nextSweat w <? ms_now f) && (rnd_sweat f <? sweatChance (loadAfter f w)).

(** Lines 230 and 239: the width of the filled part of a gauge of inner
    width [iw] that shows [ratio], rounded to the nearest pixel and kept
    inside the frame. *)
Definition gaugeFill (iw : Z) (ratio : F32.float) : Z :=
  let fw := F32.to_int (F32.add (F32.mul (F32.of_Z iw) ratio) F32.c0_5) in
  let fw := if fw <? 0 then 0 else fw in
  if iw <? fw then iw else fw.

(** Lines 231 and 240: the filled part is painted only when it is not
    empty. *)
Definition gaugeBar (x y fw : Z) : list Paint :=
  if 0 <? fw then [PaintShape (FillRect x y fw 5)] else [].

(** [drawGauges], as the list of what it paints. *)
Definition drawGaugesPaints (u : UIState) : list Paint :=
  let headerH := 10 in
  let leftX := 2 in
  let gap := 2 in
  let halfW := Z.quot (SCREEN_WIDTH - 4 - gap) 2 in
  let colW := Z.quot (halfW * 2) 3 in
  let y := headerH + 2 in
  let labelX := Z.max 0 (leftX - 2) in
  let cpuLabel := PaintText labelX y "CPU:" in
  let y := y + 8 in
  let cpuFrame := PaintRect leftX y colW 7 in
  let cpuBar :=
    let iw := colW - 2 in
    gaugeBar (leftX + 1) (y + 1) (gaugeFill iw (F32.div (curCpu u) F32.hundred)) in
  let y := y + 7 + 3 in
  let ramLabel := PaintText labelX y "RAM:" in
  let y := y + 8 in
  let ramFrame := PaintRect leftX y colW 7 in
  let ramBar :=
    let iw := colW - 2 in
    gaugeBar (leftX + 1) (y + 1) (gaugeFill iw (curRamRatio u)) in
  [cpuLabel; cpuFrame] ++ cpuBar ++ [ramLabel; ramFrame] ++ ramBar.

(** * The order of binary32 numbers *)

Lemma SFcompare_rank (x y : F32.float) :
  SFcompare x y = match rank x, rank y with
                  | Some a, Some b => Some (lex3 a b)
                  | _, _ => None
                  end.
Proof.
  destruct x as [sx|sx| |sx mx ex], y as [sy|sy| |sy my ey];
    try destruct sx; try destruct sy; try reflexivity.
  cbn. rewrite Z.compare_opp, (Z.compare_antisym ex ey).
  destruct (ex ?= ey); reflexivity.
Qed.

Lemma lex3_spec (a b : Z * Z * Z) :
  match lex3 a b with
  | Lt => lexlt a b
  | Eq => a = b
  | Gt => lexlt b a
  end.
Proof.
  destruct a as [[a1 a2] a3], b as [[b1 b2] b3]. cbn.
  destruct (Z.compare_spec a1 b1); [|lia|lia].
  destruct (Z.compare_spec a2 b2); [|lia|lia].
  destruct (Z.compare_spec a3 b3); [|lia|lia]. now subst.
Qed.

Lemma lexlt_irrefl (a : Z * Z * Z) : ~ lexlt a a.
Proof. destruct a as [[a1 a2] a3]. cbn. lia. Qed.

Lemma lexlt_trans (a b c : Z * Z * Z) : lexlt a b -> lexlt b c -> lexlt a c.
Proof. destruct a as [[a1 a2] a3], b as [[b1 b2] b3], c as [[c1 c2] c3]. cbn. lia. Qed.

Lemma lexlt_total (a b : Z * Z * Z) : lexlt a b \/ a = b \/ lexlt b a.
Proof.
  pose proof (lex3_spec a b). destruct (lex3 a b); auto.
Qed.

(** The two comparisons, read on ranks. *)
Lemma ltb_rank (x y : F32.float) :
  F32.ltb x y = true <->
  exists a b, rank x = Some a /\ rank y = Some b /\ lexlt a b.
Proof.
  unfold F32.ltb, SFltb. rewrite SFcompare_rank.
  destruct (rank x) as [a|], (rank y) as [b|];
    try (split; [discriminate | intros (? & ? & ? & ? & ?); discriminate]).
  pose proof (lex3_spec a b) as Hs. split.
  - destruct (lex3 a b); try discriminate. intros _. now exists a, b.
  - intros (a' & b' & [= <-] & [= <-] & Hlt).
    destruct (lex3 a b); [subst; now apply lexlt_irrefl in Hlt|reflexivity|].
    exfalso. exact (lexlt_irrefl _ (lexlt_trans _ _ _ Hlt Hs)).
Qed.

Lemma leb_rank (x y : F32.float) :
  F32.leb x y = true <->
  exists a b, rank x = Some a /\ rank y = Some b /\ (lexlt a b \/ a = b).
Proof.
  unfold F32.leb, SFleb. rewrite SFcompare_rank.
  destruct (rank x) as [a|], (rank y) as [b|];
    try (split; [discriminate | intros (? & ? & ? & ? & ?); discriminate]).
  pose proof (lex3_spec a b) as Hs. split.
  - destruct (lex3 a b); try discriminate; intros _; exists a, b; auto.
  - intros (a' & b' & [= <-] & [= <-] & Hle).
    destruct (lex3 a b); try reflexivity.
    exfalso. destruct Hle as [Hlt| ->].
    + exact (lexlt_irrefl _ (lexlt_trans _ _ _ Hlt Hs)).
    + exact (lexlt_irrefl _ Hs).
Qed.

Lemma rank_isnan (x : F32.float) : F32.isnan x = false <-> exists a, rank x = Some a.
Proof.
  destruct x as [s|s| |s m e]; try destruct s; cbn;
    split; try discriminate; try (intros [? ?]; discriminate);
    intros _; eauto.
Qed.

Lemma ltb_leb (x y : F32.float) : F32.ltb x y = true -> F32.leb x y = true.
Proof.
  rewrite ltb_rank, leb_rank. intros (a & b & ? & ? & ?). exists a, b. auto.
Qed.

Lemma ltb_asym (x y : F32.float) : F32.ltb x y = true -> F32.ltb y x = false.
Proof.
  intros H. destruct (F32.ltb y x) eqn:H'; [|reflexivity].
  apply ltb_rank in H as (a & b & Ha & Hb & Hlt).
  apply ltb_rank in H' as (b' & a' & Hb' & Ha' & Hlt').
  rewrite Ha in Ha'. rewrite Hb in Hb'. injection Ha' as <-. injection Hb' as <-.
  exfalso. exact (lexlt_irrefl _ (lexlt_trans _ _ _ Hlt Hlt')).
Qed.

Lemma ltb_not_leb (x y : F32.float) : F32.ltb x y = true -> F32.leb y x = false.
Proof.
  intros H. destruct (F32.leb y x) eqn:H'; [|reflexivity].
  apply ltb_rank in H as (a & b & Ha & Hb & Hlt).
  apply leb_rank in H' as (b' & a' & Hb' & Ha' & Hle).
  rewrite Ha in Ha'. rewrite Hb in Hb'. injection Ha' as <-. injection Hb' as <-.
  exfalso. destruct Hle as [Hlt'| ->].
  - exact (lexlt_irrefl _ (lexlt_trans _ _ _ Hlt Hlt')).
  - exact (lexlt_irrefl _ Hlt).
Qed.

Lemma leb_total (x y : F32.float) :
  F32.isnan x = false -> F32.isnan y = false ->
  F32.ltb x y = false -> F32.leb y x = true.
Proof.
  intros Hx Hy H. apply rank_isnan in Hx as [a Ha]. apply rank_isnan in Hy as [b Hb].
  apply leb_rank. exists b, a. repeat split; try assumption.
  destruct (lexlt_total a b) as [Hlt|[->|Hgt]]; auto.
  exfalso. assert (F32.ltb x y = true) by (apply ltb_rank; eauto). congruence.
Qed.

Lemma leb_refl (x : F32.float) : F32.isnan x = false -> F32.leb x x = true.
Proof.
  intros Hx. apply rank_isnan in Hx as [a Ha]. apply leb_rank. exists a, a. auto.
Qed.

Lemma leb_trans (x y z : F32.float) :
  F32.leb x y = true -> F32.leb y z = true -> F32.leb x z = true.
Proof.
  rewrite !leb_rank. intros (a & b & Ha & Hb & H1) (b' & c & Hb' & Hc & H2).
  rewrite Hb in Hb'. injection Hb' as <-. exists a, c. repeat split; try assumption.
  destruct H1 as [H1| ->], H2 as [H2| <-]; auto. left. eapply lexlt_trans; eauto.
Qed.

Lemma ltb_leb_trans (x y z : F32.float) :
  F32.ltb x y = true -> F32.leb y z = true -> F32.ltb x z = true.
Proof.
  rewrite !ltb_rank, leb_rank. intros (a & b & Ha & Hb & H1) (b' & c & Hb' & Hc & H2).
  rewrite Hb in Hb'. injection Hb' as <-. exists a, c. repeat split; try assumption.
  destruct H2 as [H2| <-]; auto. eapply lexlt_trans; eauto.
Qed.

Lemma leb_ltb_trans (x y z : F32.float) :
  F32.leb x y = true -> F32.ltb y z = true -> F32.ltb x z = true.
Proof.
  rewrite !ltb_rank, leb_rank. intros (a & b & Ha & Hb & H1) (b' & c & Hb' & Hc & H2).
  rewrite Hb in Hb'. injection Hb' as <-. exists a, c. repeat split; try assumption.
  destruct H1 as [H1| ->]; auto. eapply lexlt_trans; eauto.
Qed.

Lemma leb_not_nan (x y : F32.float) :
  F32.leb x y = true -> F32.isnan x = false /\ F32.isnan y = false.
Proof.
  rewrite leb_rank, !rank_isnan. intros (a & b & Ha & Hb & _). eauto.
Qed.

(** * Rounding *)

Ltac loc_solve :=
  unfold location_of;
  repeat match goal with
    | |- context [?a =? ?b] => destruct (Z.eqb_spec a b); try lia
    | |- context [?a ?= ?b] => destruct (Z.compare_spec a b); try lia
    end;
  try reflexivity.

Lemma location_of_flags (R D : Z) (m : Z) (rb sb : bool) :
  0 <= R < D ->
  loc_of_shr_record (Build_shr_record m rb sb) = location_of R D ->
  (rb = false /\ sb = false /\ R = 0)
  \/ (rb = false /\ sb = true /\ 0 < R /\ 2 * R < D)
  \/ (rb = true /\ sb = false /\ 0 < R /\ 2 * R = D)
  \/ (rb = true /\ sb = true /\ 0 < R /\ D < 2 * R).
Proof.
  intros HR. unfold location_of, loc_of_shr_record.
  destruct (Z.eqb_spec R 0) as [->|Hne].
  - destruct rb, sb; try discriminate. auto.
  - destruct (Z.compare_spec (2 * R) D); destruct rb, sb; try discriminate; intros _.
    + right; right; left. repeat split; try reflexivity; lia.
    + right; left. repeat split; try reflexivity; lia.
    + right; right; right. repeat split; try reflexivity; lia.
Qed.

Lemma shr_1_represents (N D : Z) (r : shr_record) :
  represents N D r -> represents N (2 * D) (shr_1 r).
Proof.
  intros (HD & HN & Hm & Hloc). destruct r as [m rb sb]. cbn in Hm.
  pose proof (Z.mod_pos_bound N D HD) as HR.
  assert (Hq : N / (2 * D) = (N / D) / 2).
  { rewrite (Z.mul_comm 2 D), Z.div_div by lia. reflexivity. }
  assert (Hr : N mod (2 * D) = N mod D + D * ((N / D) mod 2)).
  { rewrite (Z.mul_comm 2 D). apply Z.rem_mul_r; lia. }
  pose proof (Z.div_pos N D HN HD) as Hq0.
  apply (location_of_flags (N mod D) D m rb sb HR) in Hloc.
  unfold represents. split; [lia|]. split; [lia|].
  rewrite Hq, Hr, <- Hm. clear Hq Hr. rewrite <- Hm in Hq0. clear Hm.
  set (R := N mod D) in *. clearbody R.
  assert (Hm2 : exists h b, m = 2 * h + b /\ (b = 0 \/ b = 1) /\
                            shr_1 (Build_shr_record m rb sb)
                            = Build_shr_record h (if b =? 0 then false else true) (rb || sb)).
  { destruct m as [|[p|p|]|p]; try lia.
    - exists 0, 0. repeat split; auto.
    - exists (Z.pos p), 1. repeat split; auto; lia.
    - exists (Z.pos p), 0. repeat split; auto; lia.
    - exists 0, 1. repeat split; auto. }
  destruct Hm2 as (h & b & -> & Hb & ->).
  assert (H1 : (2 * h + b) / 2 = h) by (symmetry; apply (Z.div_unique _ 2 h b); lia).
  assert (H2 : (2 * h + b) mod 2 = b) by (symmetry; apply (Z.mod_unique _ 2 h b); lia).
  rewrite H1, H2. cbn [shr_m loc_of_shr_record]. split; [reflexivity|].
  destruct Hloc as [(-> & -> & ?)|[(-> & -> & ? & ?)|[(-> & -> & ? & ?)|(-> & -> & ? & ?)]]];
    destruct Hb as [-> | ->]; cbn [orb Z.eqb]; loc_solve.
Qed.

Lemma iter_shr_1_represents (p : positive) :
  forall (N D : Z) (r : shr_record),
    represents N D r -> represents N (D * 2 ^ Z.pos p) (SpecFloat.iter_pos shr_1 p r).
Proof.
  induction p as [p IH|p IH|]; intros N D r H; cbn [SpecFloat.iter_pos].
  - apply shr_1_represents in H. apply IH, IH in H.
    replace (D * 2 ^ Z.pos p~1) with (2 * D * 2 ^ Z.pos p * 2 ^ Z.pos p); [exact H|].
    assert (Hp : Z.pos p~1 = Z.pos p + Z.pos p + 1) by lia.
    rewrite Hp, !Z.pow_add_r by lia. ring.
  - apply IH, IH in H.
    replace (D * 2 ^ Z.pos p~0) with (D * 2 ^ Z.pos p * 2 ^ Z.pos p); [exact H|].
    assert (Hp : Z.pos p~0 = Z.pos p + Z.pos p) by lia.
    rewrite Hp, !Z.pow_add_r by lia. ring.
  - apply shr_1_represents in H. rewrite Z.pow_1_r, Z.mul_comm. exact H.
Qed.

Lemma shr_record_of_loc_represents (N D m : Z) (l : location) :
  0 < D -> 0 <= N -> m = N / D -> l = location_of (N mod D) D ->
  represents N D (shr_record_of_loc m l).
Proof.
  intros HD HN -> ->. repeat split; try assumption.
  - now destruct (location_of _ _) as [|[| |]].
  - now destruct (location_of _ _) as [|[| |]].
Qed.

Lemma shr_represents (N D : Z) (r : shr_record) (e n : Z) :
  represents N D r ->
  represents N (D * 2 ^ Z.max 0 n) (fst (shr r e n)) /\ snd (shr r e n) = e + Z.max 0 n.
Proof.
  intros H. destruct n as [|p|p]; cbn [shr fst snd].
  - rewrite Z.max_id, Z.mul_1_r, Z.add_0_r. auto.
  - rewrite Z.max_r by lia. split; [now apply iter_shr_1_represents|reflexivity].
  - rewrite Z.max_l by lia. rewrite Z.mul_1_r, Z.add_0_r. auto.
Qed.

Lemma round_nearest_even_rne (N D : Z) :
  0 < D -> round_nearest_even (N / D) (location_of (N mod D) D) = rne N D.
Proof.
  intros HD. pose proof (Z.mod_pos_bound N D HD). unfold rne, location_of.
  destruct (Z.eqb_spec (N mod D) 0) as [E|E].
  - rewrite E. cbn [round_nearest_even]. destruct (Z.compare_spec (2 * 0) D); lia.
  - cbn [round_nearest_even]. destruct (2 * (N mod D) ?= D); reflexivity.
Qed.

Lemma rne_bounds (N D : Z) :
  0 < D -> N / D <= rne N D <= N / D + 1 /\ (N mod D = 0 -> rne N D = N / D)
           /\ 2 * Z.abs (rne N D * D - N) <= D.
Proof.
  intros HD. pose proof (Z.mod_pos_bound N D HD). pose proof (Z.div_mod N D ltac:(lia)).
  unfold rne. destruct (Z.compare_spec (2 * (N mod D)) D); try destruct (Z.even (N / D));
    repeat split; try lia; try nia.
Qed.

Lemma rne_le (N D j : Z) : 0 < D -> N <= j * D -> rne N D <= j.
Proof.
  intros HD H. pose proof (Z.mod_pos_bound N D HD). pose proof (Z.div_mod N D ltac:(lia)).
  assert (Hq : N / D <= j) by (apply Z.div_le_upper_bound; lia).
  unfold rne. destruct (Z.compare_spec (2 * (N mod D)) D); try destruct (Z.even (N / D));
    try lia; nia.
Qed.

Lemma rne_ge (N D j : Z) : 0 < D -> j * D <= N -> j <= rne N D.
Proof.
  intros HD H. assert (Hq : j <= N / D) by (apply Z.div_le_lower_bound; lia).
  destruct (rne_bounds N D HD) as (Hb & _). lia.
Qed.

Lemma rne_nonneg (N D : Z) : 0 < D -> 0 <= N -> 0 <= rne N D.
Proof.
  intros HD HN. destruct (rne_bounds N D HD) as (Hb & _).
  pose proof (Z.div_pos N D HN HD). lia.
Qed.

Lemma fexp_fexp32 (e : Z) : fexp 24 128 e = fexp32 e.
Proof. reflexivity. Qed.

Lemma digits2_pos_bounds (p : positive) :
  2 ^ (Z.pos (digits2_pos p) - 1) <= Z.pos p < 2 ^ Z.pos (digits2_pos p).
Proof.
  induction p as [p IH|p IH|]; cbn [digits2_pos].
  - rewrite Pos2Z.inj_succ. replace (Z.succ (Z.pos (digits2_pos p)) - 1) with (Z.pos (digits2_pos p) - 1 + 1) by lia.
    rewrite Z.pow_succ_r, Z.pow_add_r by lia. lia.
  - rewrite Pos2Z.inj_succ. replace (Z.succ (Z.pos (digits2_pos p)) - 1) with (Z.pos (digits2_pos p) - 1 + 1) by lia.
    rewrite Z.pow_succ_r, Z.pow_add_r by lia. lia.
  - cbn. lia.
Qed.

Lemma Zdigits2_bounds (z : Z) :
  0 < z -> 0 < Zdigits2 z /\ 2 ^ (Zdigits2 z - 1) <= z < 2 ^ Zdigits2 z.
Proof.
  destruct z as [|p|p]; try lia. intros _. cbn [Zdigits2].
  split; [lia|apply digits2_pos_bounds].
Qed.

Lemma Zdigits2_le (z k : Z) : 0 <= k -> 0 <= z < 2 ^ k -> Zdigits2 z <= k.
Proof.
  intros Hk [H0 Hz]. destruct (Z.eq_dec z 0) as [->|Hne]; [cbn; lia|].
  destruct (Zdigits2_bounds z ltac:(lia)) as (Hd & Hlo & _).
  destruct (Z_le_gt_dec (Zdigits2 z) k) as [|Hgt]; [assumption|exfalso].
  assert (2 ^ k <= 2 ^ (Zdigits2 z - 1)) by (apply Z.pow_le_mono_r; lia). lia.
Qed.

Lemma Zdigits2_ge (z k : Z) : 0 <= k -> 2 ^ k <= z -> k < Zdigits2 z.
Proof.
  intros Hk Hz. assert (0 < z) by (pose proof (Z.pow_pos_nonneg 2 k); lia).
  destruct (Zdigits2_bounds z ltac:(lia)) as (Hd & _ & Hhi).
  destruct (Z_lt_le_dec k (Zdigits2 z)) as [|Hle]; [assumption|exfalso].
  assert (2 ^ Zdigits2 z <= 2 ^ k) by (apply Z.pow_le_mono_r; lia). lia.
Qed.

Lemma shr_fexp_noshift (m e : Z) :
  fexp32 (Zdigits2 m + e) - e <= 0 ->
  shr_fexp 24 128 m e loc_Exact = (Build_shr_record m false false, e).
Proof.
  intros H. unfold shr_fexp. rewrite fexp_fexp32.
  destruct (fexp32 (Zdigits2 m + e) - e); try lia; reflexivity.
Qed.

Lemma binary_round_aux_spec (s : bool) (m e : Z) (l : location) (N D : Z) :
  0 < D -> 0 <= N -> m = N / D -> l = location_of (N mod D) D ->
  e <= fexp32 (Zdigits2 m + e) ->
  let E := fexp32 (Zdigits2 m + e) in
  let mr := rne N (D * 2 ^ (E - e)) in
  0 <= mr <= 2 ^ 24 /\ binary_round_aux 24 128 s m e l = round_result s mr E.
Proof.
  intros HD HN Hm Hl He E mr.
  assert (Hm0 : 0 <= m) by (subst m; apply Z.div_pos; lia).
  pose proof (shr_record_of_loc_represents N D m l HD HN Hm Hl) as Hrep.
  destruct (shr_represents N D _ e (E - e) Hrep) as [Hrep1 He1].
  rewrite Z.max_r in Hrep1, He1 by (subst E; lia).
  replace (e + (E - e)) with E in He1 by lia.
  destruct Hrep1 as (HD1 & _ & Hm1 & Hloc1).
  assert (Hpow : 0 < 2 ^ (E - e)) by (apply Z.pow_pos_nonneg; subst E; lia).
  assert (Hq1 : N / (D * 2 ^ (E - e)) = m / 2 ^ (E - e)).
  { subst m. rewrite Z.div_div by lia. reflexivity. }
  assert (Hq1b : 0 <= m / 2 ^ (E - e) < 2 ^ 24).
  { split; [apply Z.div_pos; lia|].
    apply Z.div_lt_upper_bound; [lia|].
    destruct (Z.eq_dec m 0) as [->|Hne]; [lia|].
    destruct (Zdigits2_bounds m ltac:(lia)) as (Hd & _ & Hhi).
    assert (Zdigits2 m <= E - e + 24) by (subst E; unfold fexp32; lia).
    assert (2 ^ Zdigits2 m <= 2 ^ (E - e + 24)) by (apply Z.pow_le_mono_r; lia).
    rewrite Z.pow_add_r in * by (subst E; lia). lia. }
  destruct (rne_bounds N (D * 2 ^ (E - e)) HD1) as (Hb & _ & _).
  fold mr in Hb. rewrite Hq1 in Hb.
  split; [lia|].
  unfold binary_round_aux. unfold shr_fexp at 1. rewrite fexp_fexp32. fold E.
  destruct (shr (shr_record_of_loc m l) e (E - e)) as [mrs' e'] eqn:Hshr.
  cbn [fst snd] in *. subst e'.
  rewrite Hm1, Hloc1, round_nearest_even_rne by assumption. fold mr.
  assert (HE : -149 <= E) by (subst E; unfold fexp32; lia).
  unfold round_result.
  destruct (Z.eqb_spec mr 0) as [H0|H0].
  - rewrite H0, shr_fexp_noshift by (cbn [Zdigits2]; unfold fexp32; lia).
    reflexivity.
  - destruct (Z.eqb_spec mr (2 ^ 24)) as [H24|H24].
    + rewrite H24. unfold shr_fexp. rewrite fexp_fexp32.
      change (Zdigits2 (2 ^ 24)) with 25.
      replace (fexp32 (25 + E) - E) with 1 by (unfold fexp32; lia).
      reflexivity.
    + assert (Hd : Zdigits2 mr <= 24) by (apply Zdigits2_le; lia).
      rewrite shr_fexp_noshift by (unfold fexp32; lia).
      cbn [shr_m]. destruct mr as [|p|p]; try lia. reflexivity.
Qed.

(** Whatever the exponent, rounding a non-negative mantissa gives a number
    of the requested sign. *)
Lemma binary_round_aux_sign (s : bool) (m e : Z) (l : location) (N D : Z) :
  0 < D -> 0 <= N -> m = N / D -> l = location_of (N mod D) D ->
  F32.isnan (binary_round_aux 24 128 s m e l) = false
  /\ signbit (binary_round_aux 24 128 s m e l) = s.
Proof.
  intros HD HN Hm Hl.
  pose proof (shr_record_of_loc_represents N D m l HD HN Hm Hl) as Hrep.
  unfold binary_round_aux, shr_fexp.
  destruct (shr_represents N D _ e (fexp 24 128 (Zdigits2 m + e) - e) Hrep) as [Hrep1 _].
  destruct (shr (shr_record_of_loc m l) e _) as [mrs' e'].
  cbn [fst] in Hrep1. destruct Hrep1 as (HD1 & _ & Hm1 & Hloc1).
  rewrite Hm1, Hloc1, round_nearest_even_rne by assumption.
  set (mr := rne N _).
  assert (Hmr : 0 <= mr).
  { destruct (rne_bounds N _ HD1) as (Hb & _). fold mr in Hb.
    pose proof (Z.div_pos N _ HN HD1). lia. }
  assert (Hrep2 : represents mr 1 (shr_record_of_loc mr loc_Exact)).
  { apply shr_record_of_loc_represents; try lia.
    - now rewrite Z.div_1_r.
    - now rewrite Z.mod_1_r. }
  destruct (shr_represents mr 1 _ e' (fexp 24 128 (Zdigits2 mr + e') - e') Hrep2) as [Hrep3 _].
  destruct (shr (shr_record_of_loc mr loc_Exact) e' _) as [mrs'' e''].
  cbn [fst] in Hrep3. destruct Hrep3 as (HD3 & _ & Hm3 & _).
  pose proof (Z.div_pos mr _ Hmr HD3) as Hpos. rewrite <- Hm3 in Hpos.
  destruct (shr_m mrs'') as [|p|p]; try lia.
  - split; reflexivity.
  - destruct (e'' <=? 128 - 24); split; reflexivity.
Qed.

Lemma binary_round_sign (s : bool) (m : positive) (e : Z) :
  F32.isnan (binary_round 24 128 s m e) = false
  /\ signbit (binary_round 24 128 s m e) = s.
Proof.
  unfold binary_round. destruct (shl_align m e _) as [mz ez].
  apply (binary_round_aux_sign s (Z.pos mz) ez loc_Exact (Z.pos mz) 1); try lia.
  - now rewrite Z.div_1_r.
  - now rewrite Z.mod_1_r.
Qed.

Lemma binary_normalize_not_nan (M e : Z) (sz : bool) :
  F32.isnan (binary_normalize 24 128 M e sz) = false.
Proof.
  destruct M as [|p|p]; cbn [binary_normalize]; [reflexivity| |]; apply binary_round_sign.
Qed.

Lemma add_not_nan (x y : F32.float) :
  F32.is_finite x = true -> F32.isnan y = false -> F32.isnan (F32.add x y) = false.
Proof.
  destruct x as [sx|sx| |sx mx ex], y as [sy|sy| |sy my ey]; try discriminate;
    intros _ _; try reflexivity.
  - destruct sx, sy; reflexivity.
  - apply binary_normalize_not_nan.
Qed.

Lemma sub_not_nan (x y : F32.float) :
  F32.isnan x = false -> F32.is_finite y = true -> F32.isnan (F32.sub x y) = false.
Proof.
  destruct x as [sx|sx| |sx mx ex], y as [sy|sy| |sy my ey]; try discriminate;
    intros _ _; try reflexivity.
  - destruct sx, sy; reflexivity.
  - apply binary_normalize_not_nan.
Qed.

Lemma mul_not_nan (x : F32.float) (s : bool) (m : positive) (e : Z) :
  F32.isnan x = false -> F32.isnan (F32.mul x (S754_finite s m e)) = false.
Proof.
  destruct x as [sx|sx| |sx mx ex]; try discriminate; intros _; try reflexivity.
  apply (binary_round_aux_sign _ _ _ loc_Exact (Z.pos (mx * m)) 1); try lia.
  - now rewrite Z.div_1_r.
  - now rewrite Z.mod_1_r.
Qed.

(** The quotient digit and location computed by [SFdiv_core_binary]
    describe a fraction. *)
Lemma new_location_location_of (D R : Z) :
  0 <= R < D -> new_location D R = location_of R D.
Proof.
  intros HR. unfold new_location, new_location_even, new_location_odd, location_of.
  destruct (Z.even D) eqn:Hev; destruct (Z.eqb_spec R 0); try reflexivity.
  f_equal.
  destruct (Z.compare_spec (2 * R + 1) D), (Z.compare_spec (2 * R) D); try lia; try reflexivity.
  exfalso. subst D. rewrite Z.even_mul in Hev. discriminate.
Qed.

Lemma div_finite_sign (sx sy : bool) (mx my : positive) (ex ey : Z) :
  F32.isnan (F32.div (S754_finite sx mx ex) (S754_finite sy my ey)) = false
  /\ signbit (F32.div (S754_finite sx mx ex) (S754_finite sy my ey)) = xorb sx sy.
Proof.
  unfold F32.div, SFdiv, SFdiv_core_binary.
  set (e' := Z.min _ _). set (m' := match _ with Z.pos _ => _ | _ => _ end).
  assert (Hm' : 0 <= m').
  { subst m'. destruct (ex - ey - e'); try lia. apply Z.shiftl_nonneg. lia. }
  pose proof (Z.div_eucl_eq m' (Z.pos my) ltac:(lia)) as Heq.
  pose proof (Z.mod_pos_bound m' (Z.pos my) ltac:(lia)) as Hmod.
  unfold Z.modulo in Hmod.
  assert (Hdiv : fst (Z.div_eucl m' (Z.pos my)) = m' / Z.pos my) by reflexivity.
  assert (Hmd : snd (Z.div_eucl m' (Z.pos my)) = m' mod Z.pos my) by reflexivity.
  destruct (Z.div_eucl m' (Z.pos my)) as [q r]. cbn [fst snd] in *.
  apply (binary_round_aux_sign _ _ _ _ m' (Z.pos my)); try lia.
  rewrite <- Hmd. apply new_location_location_of. lia.
Qed.

Lemma valid_finite (s : bool) (m : positive) (e : Z) :
  F32.valid (S754_finite s m e) = true <->
  fexp32 (Z.pos (digits2_pos m) + e) = e /\ e <= 104.
Proof.
  unfold F32.valid, valid_binary, bounded, canonical_mantissa.
  rewrite fexp_fexp32, andb_true_iff, Z.eqb_eq, Z.leb_le. change (128 - 24) with 104.
  reflexivity.
Qed.

(** A valid number has at most 24 digits, exactly 24 above the least
    exponent. *)
Lemma valid_digits (s : bool) (m : positive) (e : Z) :
  F32.valid (S754_finite s m e) = true ->
  -149 <= e <= 104 /\ Z.pos (digits2_pos m) <= 24
  /\ (-149 < e -> Z.pos (digits2_pos m) = 24)
  /\ Z.pos m < 2 ^ 24 /\ (-149 < e -> 2 ^ 23 <= Z.pos m).
Proof.
  rewrite valid_finite. unfold fexp32. intros [Hc He].
  pose proof (digits2_pos_bounds m) as Hb.
  assert (Hd : Z.pos (digits2_pos m) <= 24) by lia.
  assert (2 ^ Z.pos (digits2_pos m) <= 2 ^ 24) by (apply Z.pow_le_mono_r; lia).
  repeat split; try lia.
  intros Hn. replace (Z.pos (digits2_pos m)) with 24 in Hb by lia. 
  change (24 - 1) with 23 in Hb. lia.
Qed.

Lemma round_result_valid (s : bool) (m e N D : Z) :
  0 < D -> 0 <= N -> m = N / D ->
  e <= fexp32 (Zdigits2 m + e) ->
  let E := fexp32 (Zdigits2 m + e) in
  F32.valid (round_result s (rne N (D * 2 ^ (E - e))) E) = true.
Proof.
  intros HD HN Hm He E. set (mr := rne N (D * 2 ^ (E - e))).
  assert (Hm0 : 0 <= m) by (subst m; apply Z.div_pos; lia).
  assert (HE : -149 <= E) by (subst E; unfold fexp32; lia).
  assert (Hpow : 0 < 2 ^ (E - e)) by (apply Z.pow_pos_nonneg; lia).
  assert (HD1 : 0 < D * 2 ^ (E - e)) by lia.
  assert (Hq1 : N / (D * 2 ^ (E - e)) = m / 2 ^ (E - e)).
  { subst m. rewrite Z.div_div by lia. reflexivity. }
  destruct (rne_bounds N (D * 2 ^ (E - e)) HD1) as (Hb & _ & _).
  fold mr in Hb. rewrite Hq1 in Hb. clearbody mr.
  assert (Hq0 : 0 <= m / 2 ^ (E - e)) by (apply Z.div_pos; lia).
  assert (Hlow : -149 < E -> 2 ^ 23 <= m / 2 ^ (E - e)).
  { intros Hn. assert (HEq : E = Zdigits2 m + e - 24) by (subst E; unfold fexp32 in *; lia).
    assert (Hmpos : 0 < m).
    { destruct (Z.eq_dec m 0) as [H0|H0]; [|lia]. exfalso. subst E. rewrite H0 in *.
      cbn [Zdigits2] in *. unfold fexp32 in *. lia. }
    destruct (Zdigits2_bounds m Hmpos) as (Hd & Hlo & _).
    apply Z.div_le_lower_bound; [lia|].
    rewrite <- Z.pow_add_r by lia.
    replace (E - e + 23) with (Zdigits2 m - 1) by lia. exact Hlo. }
  unfold round_result.
  destruct (Z.eqb_spec mr 0); [reflexivity|].
  destruct (Z.eqb_spec mr (2 ^ 24)).
  - destruct (Z.leb_spec (E + 1) 104); [|reflexivity].
    apply valid_finite. change (Z.pos (digits2_pos (2 ^ 23))) with 24. unfold fexp32. lia.
  - destruct (Z.leb_spec E 104); [|reflexivity].
    apply valid_finite. split; [|assumption].
    destruct mr as [|p|p]; try lia. cbn [Z.to_pos].
    change (Z.pos (digits2_pos p)) with (Zdigits2 (Z.pos p)).
    assert (Hq1b : m / 2 ^ (E - e) < 2 ^ 24).
    { apply Z.div_lt_upper_bound; [lia|].
      destruct (Z.eq_dec m 0) as [->|Hne]; [lia|].
      destruct (Zdigits2_bounds m ltac:(lia)) as (Hd & _ & Hhi).
      assert (Zdigits2 m <= E - e + 24) by (subst E; unfold fexp32; lia).
      assert (2 ^ Zdigits2 m <= 2 ^ (E - e + 24)) by (apply Z.pow_le_mono_r; lia).
      rewrite Z.pow_add_r in * by lia. lia. }
    assert (Hd24 : Zdigits2 (Z.pos p) <= 24) by (apply Zdigits2_le; lia).
    destruct (Z.eq_dec E (-149)) as [HEq|HEq].
    + unfold fexp32. lia.
    + assert (23 < Zdigits2 (Z.pos p)) by (apply Zdigits2_ge; lia).
      unfold fexp32. lia.
Qed.

Lemma fexp32_mono (a b : Z) : a <= b -> fexp32 a <= fexp32 b.
Proof. unfold fexp32. lia. Qed.

Lemma pow2_pos (n : Z) : 0 <= n -> 0 < 2 ^ n.
Proof. intros. apply Z.pow_pos_nonneg; lia. Qed.

Lemma pow2_le (a b : Z) : 0 <= a <= b -> 2 ^ a <= 2 ^ b.
Proof. intros. apply Z.pow_le_mono_r; lia. Qed.

Lemma pow2_split (a b : Z) : 0 <= a -> 0 <= b -> 2 ^ (a + b) = 2 ^ a * 2 ^ b.
Proof. intros. apply Z.pow_add_r; lia. Qed.

Lemma digits_le_of_bound (m e K k : Z) :
  0 < m -> 0 <= e + K -> 0 <= k + K -> m * 2 ^ (e + K) < 2 ^ (k + K) -> Zdigits2 m + e <= k.
Proof.
  intros Hm HeK HkK Hlt.
  destruct (Zdigits2_bounds m Hm) as (Hd & Hlo & _).
  destruct (Z_le_gt_dec (Zdigits2 m + e) k) as [|Hgt]; [assumption|exfalso].
  assert (H1 : 2 ^ (k + K) <= 2 ^ (Zdigits2 m - 1 + (e + K))) by (apply pow2_le; lia).
  rewrite (pow2_split (Zdigits2 m - 1) (e + K)) in H1 by lia.
  pose proof (pow2_pos (e + K) HeK).
  assert (2 ^ (Zdigits2 m - 1) * 2 ^ (e + K) <= m * 2 ^ (e + K))
    by (apply Z.mul_le_mono_nonneg_r; lia).
  lia.
Qed.

(** The value of a rounded result: the mantissa rounded to the exponent
    [fexp32] gives for its magnitude. *)
Lemma binary_round_aux_value (s : bool) (m e K k : Z) :
  0 < m -> 150 <= K -> 0 <= e + K -> k <= 127 -> 0 <= k + K ->
  m * 2 ^ (e + K) < 2 ^ (k + K) ->
  e <= fexp32 (Zdigits2 m + e) ->
  let E := fexp32 (Zdigits2 m + e) in
  let f := binary_round_aux 24 128 s m e loc_Exact in
  finite f /\ scaled K f = cond_Zopp s (rne m (2 ^ (E - e)) * 2 ^ (E + K)).
Proof.
  intros Hm HK HeK Hk HkK Hlt He E f.
  assert (Hdm : Zdigits2 m + e <= k) by (eapply digits_le_of_bound; eauto).
  destruct (binary_round_aux_spec s m e loc_Exact m 1) as [Hmr Heq]; try lia.
  { now rewrite Z.div_1_r. }
  { now rewrite Z.mod_1_r. }
  pose proof (round_result_valid s m e m 1 ltac:(lia) ltac:(lia)
                ltac:(now rewrite Z.div_1_r) He) as Hval.
  cbv zeta in Heq, Hmr, Hval. fold f in Heq. rewrite <- Heq in Hval.
  fold E in Heq, Hmr, Hval.
  rewrite Z.mul_1_l in *.
  set (mr := rne m (2 ^ (E - e))) in *.
  assert (HE : -149 <= E <= fexp32 k) by (subst E; split; [unfold fexp32; lia|apply fexp32_mono; lia]).
  assert (HE103 : E <= 103) by (unfold fexp32 in HE; lia).
  split; [split; [exact Hval|]|].
  - rewrite Heq. unfold round_result.
    destruct (mr =? 0); [reflexivity|]. destruct (mr =? 2 ^ 24).
    + destruct (Z.leb_spec (E + 1) 104); [reflexivity|lia].
    + destruct (Z.leb_spec E 104); [reflexivity|lia].
  - rewrite Heq. unfold round_result.
    destruct (Z.eqb_spec mr 0) as [->|H0]; [destruct s; reflexivity|].
    destruct (Z.eqb_spec mr (2 ^ 24)) as [->|H24].
    + destruct (Z.leb_spec (E + 1) 104); [|lia]. cbn [scaled].
      replace (E + 1 + K) with (1 + (E + K)) by lia. rewrite pow2_split by lia.
      f_equal. change (Z.pos (2 ^ 23)) with (2 ^ 23). change (2 ^ 1) with 2. lia.
    + destruct (Z.leb_spec E 104); [|lia]. cbn [scaled].
      rewrite Z2Pos.id by lia. reflexivity.
Qed.

(** Rounding an exact value [m * 2^e] below [2^k]: the result is a valid
    finite number of the requested sign, within half a unit in the last
    place of the value. *)
Lemma binary_round_aux_scaled (s : bool) (m e K k : Z) :
  0 < m -> 150 <= K -> 0 <= e + K -> k <= 127 -> 0 <= k + K ->
  m * 2 ^ (e + K) < 2 ^ (k + K) ->
  e <= fexp32 (Zdigits2 m + e) ->
  let f := binary_round_aux 24 128 s m e loc_Exact in
  F32.valid f = true /\ F32.is_finite f = true /\ signbit f = s
  /\ Z.abs (scaled K f - cond_Zopp s (m * 2 ^ (e + K))) <= 2 ^ (fexp32 k + K - 1)
  /\ (e = fexp32 (Zdigits2 m + e) -> scaled K f = cond_Zopp s (m * 2 ^ (e + K))).
Proof.
  intros Hm HK HeK Hk HkK Hlt He f.
  destruct (binary_round_aux_value s m e K k Hm HK HeK Hk HkK Hlt He) as [[Hval Hfin] Hsc].
  cbv zeta in Hsc. fold f in Hval, Hfin, Hsc.
  assert (Hdm : Zdigits2 m + e <= k) by (eapply digits_le_of_bound; eauto).
  set (E := fexp32 (Zdigits2 m + e)) in *.
  set (mr := rne m (2 ^ (E - e))) in *.
  assert (HE : -149 <= E <= fexp32 k) by (subst E; split; [unfold fexp32; lia|apply fexp32_mono; lia]).
  assert (Hp : 0 < 2 ^ (E - e)) by (apply pow2_pos; lia).
  destruct (rne_bounds m (2 ^ (E - e)) Hp) as (Hb & Hex & Herr).
  fold mr in Hb, Hex, Herr.
  split; [exact Hval|]. split; [exact Hfin|]. split.
  { apply (binary_round_aux_sign s m e loc_Exact m 1); try lia.
    - now rewrite Z.div_1_r.
    - now rewrite Z.mod_1_r. }
  assert (HeE : e + K + (E - e) = E + K) by lia.
  assert (Hpow : 2 ^ (E + K) = 2 ^ (e + K) * 2 ^ (E - e)) by (rewrite <- HeE; apply pow2_split; lia).
  pose proof (pow2_pos (e + K) HeK) as HpeK.
  split.
  - rewrite Hsc.
    assert (Habs : Z.abs (mr * 2 ^ (E + K) - m * 2 ^ (e + K)) <= 2 ^ (fexp32 k + K - 1)).
    { destruct (Z.eq_dec E e) as [HEe|HEe].
      - rewrite HEe in *. replace (e - e) with 0 in * by lia. change (2 ^ 0) with 1 in *.
        pose proof (pow2_pos (fexp32 k + K - 1) ltac:(unfold fexp32; lia)).
        assert (mr = m) by lia. subst mr. rewrite H0. rewrite Z.sub_diag. cbn. lia.
      - assert (H2 : 2 ^ (E - e) = 2 * 2 ^ (E - e - 1)).
        { replace (E - e) with (1 + (E - e - 1)) at 1 by lia. rewrite pow2_split by lia. reflexivity. }
        assert (H3 : Z.abs (mr * 2 ^ (E - e) - m) <= 2 ^ (E - e - 1)) by lia.
        assert (H4 : 2 ^ (E + K - 1) = 2 ^ (e + K) * 2 ^ (E - e - 1)).
        { replace (E + K - 1) with (e + K + (E - e - 1)) by lia. apply pow2_split; lia. }
        assert (H5 : 2 ^ (E + K - 1) <= 2 ^ (fexp32 k + K - 1)) by (apply pow2_le; lia).
        rewrite Hpow.
        replace (mr * (2 ^ (e + K) * 2 ^ (E - e)) - m * 2 ^ (e + K))
          with (2 ^ (e + K) * (mr * 2 ^ (E - e) - m)) by ring.
        rewrite Z.abs_mul, (Z.abs_eq (2 ^ (e + K))) by lia. nia. }
    destruct s; cbn [cond_Zopp]; lia.
  - intros HEe. rewrite Hsc. fold E in HEe. rewrite <- HEe in *.
    replace (e - e) with 0 in * by lia. change (2 ^ 0) with 1 in *.
    assert (mr = m) by lia. congruence.
Qed.

Lemma iter_xO_pow (d m : positive) : Z.pos (Pos.iter xO m d) = Z.pos m * 2 ^ Z.pos d.
Proof.
  induction d as [|d IH] using Pos.peano_ind.
  - cbn. lia.
  - rewrite Pos.iter_succ, Pos2Z.inj_xO, IH, Pos2Z.inj_succ, Z.pow_succ_r by lia. ring.
Qed.

Lemma shl_align_spec (m : positive) (e e' : Z) :
  snd (shl_align m e e') = Z.min e e'
  /\ Z.pos (fst (shl_align m e e')) = Z.pos m * 2 ^ (e - Z.min e e').
Proof.
  unfold shl_align. destruct (e' - e) as [|d|d] eqn:Hd; cbn [fst snd].
  - rewrite Z.min_l by lia. rewrite Z.sub_diag. split; lia.
  - rewrite Z.min_l by lia. rewrite Z.sub_diag. split; lia.
  - rewrite Z.min_r by lia. split; [reflexivity|].
    rewrite iter_xO_pow. f_equal. f_equal. lia.
Qed.

Lemma Zdigits2_shift (m k : Z) : 0 < m -> 0 <= k -> Zdigits2 (m * 2 ^ k) = Zdigits2 m + k.
Proof.
  intros Hm Hk. destruct (Zdigits2_bounds m Hm) as (Hd & Hlo & Hhi).
  pose proof (pow2_pos k Hk) as Hp.
  assert (Hlo' : 2 ^ (Zdigits2 m + k - 1) <= m * 2 ^ k).
  { replace (Zdigits2 m + k - 1) with (Zdigits2 m - 1 + k) by lia.
    rewrite pow2_split by lia. apply Z.mul_le_mono_nonneg_r; lia. }
  assert (Hhi' : m * 2 ^ k < 2 ^ (Zdigits2 m + k)).
  { rewrite pow2_split by lia. apply Z.mul_lt_mono_pos_r; lia. }
  assert (H1 : Zdigits2 (m * 2 ^ k) <= Zdigits2 m + k) by (apply Zdigits2_le; lia).
  assert (H2 : Zdigits2 m + k - 1 < Zdigits2 (m * 2 ^ k)) by (apply Zdigits2_ge; lia).
  lia.
Qed.

(** [binary_round] aligns the mantissa first, so it rounds any exact value. *)
Lemma binary_round_scaled (s : bool) (m : positive) (e K k : Z) :
  150 <= K -> 0 <= e + K -> k <= 127 -> 0 <= k + K ->
  Z.pos m * 2 ^ (e + K) < 2 ^ (k + K) ->
  let f := binary_round 24 128 s m e in
  F32.valid f = true /\ F32.is_finite f = true /\ signbit f = s
  /\ Z.abs (scaled K f - cond_Zopp s (Z.pos m * 2 ^ (e + K))) <= 2 ^ (fexp32 k + K - 1)
  /\ (fexp32 (Z.pos (digits2_pos m) + e) <= e -> scaled K f = cond_Zopp s (Z.pos m * 2 ^ (e + K))).
Proof.
  intros HK HeK Hk HkK Hlt f. subst f. unfold binary_round.
  rewrite fexp_fexp32. set (E0 := fexp32 (Z.pos (digits2_pos m) + e)).
  destruct (shl_align_spec m e E0) as [Hez Hmz].
  destruct (shl_align m e E0) as [mz ez]. cbn [fst snd] in Hez, Hmz.
  assert (HE0 : -149 <= E0) by (subst E0; unfold fexp32; lia).
  assert (Hval : Z.pos mz * 2 ^ (ez + K) = Z.pos m * 2 ^ (e + K)).
  { rewrite Hmz, <- Z.mul_assoc, <- pow2_split by lia. f_equal. f_equal. lia. }
  assert (Hdig : Zdigits2 (Z.pos mz) + ez = Z.pos (digits2_pos m) + e).
  { rewrite Hmz, Zdigits2_shift by lia. cbn [Zdigits2]. lia. }
  assert (HE : fexp32 (Zdigits2 (Z.pos mz) + ez) = E0) by (rewrite Hdig; reflexivity).
  destruct (binary_round_aux_scaled s (Z.pos mz) ez K k) as (H1 & H2 & H3 & H4 & H5);
    try lia.
  rewrite Hval in H4, H5.
  repeat split; try assumption.
  intros Hle. apply H5. rewrite HE. lia.
Qed.

Lemma binary_normalize_scaled (M e K k : Z) :
  150 <= K -> 0 <= e + K -> k <= 127 -> 0 <= k + K ->
  Z.abs M * 2 ^ (e + K) < 2 ^ (k + K) ->
  let f := binary_normalize 24 128 M e false in
  F32.valid f = true /\ F32.is_finite f = true
  /\ Z.abs (scaled K f - M * 2 ^ (e + K)) <= 2 ^ (fexp32 k + K - 1)
  /\ (fexp32 (Zdigits2 M + e) <= e -> scaled K f = M * 2 ^ (e + K))
  /\ (0 <= M -> signbit f = false) /\ (M < 0 -> signbit f = true).
Proof.
  intros HK HeK Hk HkK Hlt f. subst f.
  destruct M as [|p|p]; cbn [binary_normalize].
  - pose proof (pow2_pos (fexp32 k + K - 1) ltac:(unfold fexp32; lia)).
    cbn. repeat split; try reflexivity; try lia.
  - destruct (binary_round_scaled false p e K k) as (H1 & H2 & H3 & H4 & H5); try lia.
    cbn [cond_Zopp] in *. change (Zdigits2 (Z.pos p)) with (Z.pos (digits2_pos p)).
    repeat split; try assumption; intros; try assumption; lia.
  - destruct (binary_round_scaled true p e K k) as (H1 & H2 & H3 & H4 & H5); try lia.
    cbn [cond_Zopp] in *. change (Zdigits2 (Z.neg p)) with (Z.pos (digits2_pos p)).
    replace (Z.neg p * 2 ^ (e + K)) with (- (Z.pos p * 2 ^ (e + K))) by lia.
    repeat split; try assumption; intros; try assumption; lia.
Qed.

Lemma finite_zero (s : bool) : finite (S754_zero s).
Proof. split; reflexivity. Qed.

Lemma finite_exponent (s : bool) (m : positive) (e : Z) :
  finite (S754_finite s m e) -> -149 <= e <= 104.
Proof. intros [Hv _]. apply valid_digits in Hv. lia. Qed.

Lemma add_scaled (x y : F32.float) (K k : Z) :
  150 <= K -> k <= 127 -> 0 <= k + K ->
  finite x -> finite y ->
  Z.abs (scaled K x + scaled K y) < 2 ^ (k + K) ->
  finite (F32.add x y)
  /\ Z.abs (scaled K (F32.add x y) - (scaled K x + scaled K y)) <= 2 ^ (fexp32 k + K - 1).
Proof.
  intros HK Hk HkK Hx Hy Hlt.
  pose proof (pow2_pos (fexp32 k + K - 1) ltac:(unfold fexp32; lia)) as Hpos.
  destruct x as [sx|sx| |sx mx ex], y as [sy|sy| |sy my ey];
    try (destruct Hx as [_ Hx]; discriminate Hx);
    try (destruct Hy as [_ Hy]; discriminate Hy).
  - assert (Hz : exists s, F32.add (S754_zero sx) (S754_zero sy) = S754_zero s)
      by (destruct sx, sy; eexists; reflexivity).
    destruct Hz as [s ->]. split; [apply finite_zero|]. cbn. lia.
  - change (F32.add (S754_zero sx) (S754_finite sy my ey)) with (S754_finite sy my ey).
    split; [assumption|]. cbn [scaled]. rewrite Z.add_0_l, Z.sub_diag. cbn. lia.
  - change (F32.add (S754_finite sx mx ex) (S754_zero sy)) with (S754_finite sx mx ex).
    split; [assumption|]. cbn [scaled]. rewrite Z.add_0_r, Z.sub_diag. cbn. lia.
  - pose proof (finite_exponent _ _ _ Hx) as Hex. pose proof (finite_exponent _ _ _ Hy) as Hey.
    unfold F32.add, SFadd. set (ez := Z.min ex ey).
    destruct (shl_align_spec mx ex ez) as [_ Hmx]. destruct (shl_align_spec my ey ez) as [_ Hmy].
    rewrite Hmx, Hmy. rewrite (Z.min_r ex ez), (Z.min_r ey ez) by (unfold ez; lia).
    set (M := cond_Zopp sx _ + cond_Zopp sy _).
    assert (HM : M * 2 ^ (ez + K) = scaled K (S754_finite sx mx ex) + scaled K (S754_finite sy my ey)).
    { subst M. cbn [scaled]. rewrite Z.mul_add_distr_r.
      assert (H1 : 2 ^ (ex + K) = 2 ^ (ex - ez) * 2 ^ (ez + K))
        by (rewrite <- pow2_split by (unfold ez; lia); f_equal; lia).
      assert (H2 : 2 ^ (ey + K) = 2 ^ (ey - ez) * 2 ^ (ez + K))
        by (rewrite <- pow2_split by (unfold ez; lia); f_equal; lia).
      rewrite H1, H2. destruct sx, sy; cbn [cond_Zopp]; ring. }
    destruct (binary_normalize_scaled M ez K k) as (H1 & H2 & H3 & _); try lia.
    rewrite HM in H3. split; [split; assumption|exact H3].
Qed.

Lemma sub_scaled (x y : F32.float) (K k : Z) :
  150 <= K -> k <= 127 -> 0 <= k + K ->
  finite x -> finite y ->
  Z.abs (scaled K x - scaled K y) < 2 ^ (k + K) ->
  finite (F32.sub x y)
  /\ Z.abs (scaled K (F32.sub x y) - (scaled K x - scaled K y)) <= 2 ^ (fexp32 k + K - 1).
Proof.
  intros HK Hk HkK Hx Hy Hlt.
  pose proof (pow2_pos (fexp32 k + K - 1) ltac:(unfold fexp32; lia)) as Hpos.
  destruct x as [sx|sx| |sx mx ex], y as [sy|sy| |sy my ey];
    try (destruct Hx as [_ Hx]; discriminate Hx);
    try (destruct Hy as [_ Hy]; discriminate Hy).
  - assert (Hz : exists s, F32.sub (S754_zero sx) (S754_zero sy) = S754_zero s)
      by (destruct sx, sy; eexists; reflexivity).
    destruct Hz as [s ->]. split; [apply finite_zero|]. cbn. lia.
  - change (F32.sub (S754_zero sx) (S754_finite sy my ey)) with (S754_finite (negb sy) my ey).
    split; [exact Hy|]. cbn [scaled]. destruct sy; cbn [negb cond_Zopp]; lia.
  - change (F32.sub (S754_finite sx mx ex) (S754_zero sy)) with (S754_finite sx mx ex).
    split; [assumption|]. cbn [scaled]. rewrite Z.sub_0_r, Z.sub_diag. cbn. lia.
  - pose proof (finite_exponent _ _ _ Hx) as Hex. pose proof (finite_exponent _ _ _ Hy) as Hey.
    unfold F32.sub, SFsub. set (ez := Z.min ex ey).
    destruct (shl_align_spec mx ex ez) as [_ Hmx]. destruct (shl_align_spec my ey ez) as [_ Hmy].
    rewrite Hmx, Hmy. rewrite (Z.min_r ex ez), (Z.min_r ey ez) by (unfold ez; lia).
    set (M := cond_Zopp sx _ - cond_Zopp sy _).
    assert (HM : M * 2 ^ (ez + K) = scaled K (S754_finite sx mx ex) - scaled K (S754_finite sy my ey)).
    { subst M. cbn [scaled]. rewrite Z.mul_sub_distr_r.
      assert (H1 : 2 ^ (ex + K) = 2 ^ (ex - ez) * 2 ^ (ez + K))
        by (rewrite <- pow2_split by (unfold ez; lia); f_equal; lia).
      assert (H2 : 2 ^ (ey + K) = 2 ^ (ey - ez) * 2 ^ (ez + K))
        by (rewrite <- pow2_split by (unfold ez; lia); f_equal; lia).
      rewrite H1, H2. destruct sx, sy; cbn [cond_Zopp]; ring. }
    destruct (binary_normalize_scaled M ez K k) as (H1 & H2 & H3 & _); try lia.
    rewrite HM in H3. split; [split; assumption|exact H3].
Qed.

Lemma Zdigits2_mul_ge (a b : positive) :
  Z.pos (digits2_pos a) + Z.pos (digits2_pos b) - 1 <= Zdigits2 (Z.pos (a * b)).
Proof.
  pose proof (digits2_pos_bounds a) as [Ha _]. pose proof (digits2_pos_bounds b) as [Hb _].
  assert (H : 2 ^ (Z.pos (digits2_pos a) - 1 + (Z.pos (digits2_pos b) - 1)) <= Z.pos (a * b)).
  { rewrite pow2_split, Pos2Z.inj_mul by lia.
    apply Z.mul_le_mono_nonneg; try lia; apply Z.lt_le_incl, pow2_pos; lia. }
  apply Zdigits2_ge in H; lia.
Qed.

(** The product of two valid numbers is already aligned for rounding. *)
Lemma mul_aligned (sx sy : bool) (mx my : positive) (ex ey : Z) :
  finite (S754_finite sx mx ex) -> finite (S754_finite sy my ey) ->
  ex + ey <= fexp32 (Zdigits2 (Z.pos (mx * my)) + (ex + ey)).
Proof.
  intros [Hx _] [Hy _]. apply valid_digits in Hx, Hy.
  pose proof (Zdigits2_mul_ge mx my). unfold fexp32.
  destruct (Z.eq_dec ex (-149)), (Z.eq_dec ey (-149)); lia.
Qed.

Lemma mul_scaled (x : F32.float) (sy : bool) (my : positive) (ey K k : Z) :
  150 <= K -> k <= 127 -> 0 <= k + K -> 149 <= ey + K ->
  finite x -> finite (S754_finite sy my ey) ->
  Z.abs (scaled (ey + K) x) * Z.pos my < 2 ^ (k + K) ->
  finite (F32.mul x (S754_finite sy my ey))
  /\ Z.abs (scaled K (F32.mul x (S754_finite sy my ey))
            - cond_Zopp sy (scaled (ey + K) x * Z.pos my)) <= 2 ^ (fexp32 k + K - 1).
Proof.
  intros HK Hk HkK HeyK Hx Hy Hlt.
  pose proof (pow2_pos (fexp32 k + K - 1) ltac:(unfold fexp32; lia)) as Hpos.
  destruct x as [sx|sx| |sx mx ex]; try (destruct Hx as [_ Hx]; discriminate Hx).
  - change (F32.mul (S754_zero sx) (S754_finite sy my ey)) with (S754_zero (xorb sx sy)).
    split; [apply finite_zero|]. cbn [scaled]. destruct sy; cbn; lia.
  - pose proof (finite_exponent _ _ _ Hx) as Hex.
    pose proof (mul_aligned sx sy mx my ex ey Hx Hy) as Hal.
    cbn [scaled] in Hlt.
    assert (Hee : ex + (ey + K) = ex + ey + K) by lia.
    rewrite Hee in Hlt.
    assert (Hlt' : Z.pos (mx * my) * 2 ^ (ex + ey + K) < 2 ^ (k + K)).
    { rewrite Pos2Z.inj_mul. destruct sx; cbn [cond_Zopp] in Hlt; lia. }
    destruct (binary_round_aux_scaled (xorb sx sy) (Z.pos (mx * my)) (ex + ey) K k)
      as (H1 & H2 & H3 & H4 & _); try lia.
    change (F32.mul (S754_finite sx mx ex) (S754_finite sy my ey))
      with (binary_round_aux 24 128 (xorb sx sy) (Z.pos (mx * my)) (ex + ey) loc_Exact).
    split; [split; assumption|].
    cbn [scaled]. rewrite Hee.
    replace (cond_Zopp sy (cond_Zopp sx (Z.pos mx * 2 ^ (ex + ey + K)) * Z.pos my))
      with (cond_Zopp (xorb sx sy) (Z.pos (mx * my) * 2 ^ (ex + ey + K))); [exact H4|].
    rewrite Pos2Z.inj_mul. destruct sx, sy; cbn [cond_Zopp xorb]; ring.
Qed.

(** ** Monotone rounding and relative errors *)

(** Rounding is monotone: against a valid number [my * 2^ey] the rounded
    magnitude is on the same side as the exact one. *)
Lemma rne_grid (m e K : Z) (my : positive) (ey : Z) :
  0 < m -> 150 <= K -> 0 <= e + K -> e <= fexp32 (Zdigits2 m + e) ->
  F32.valid (S754_finite false my ey) = true ->
  let E := fexp32 (Zdigits2 m + e) in
  let mr := rne m (2 ^ (E - e)) in
  (m * 2 ^ (e + K) <= Z.pos my * 2 ^ (ey + K) -> mr * 2 ^ (E + K) <= Z.pos my * 2 ^ (ey + K))
  /\ (Z.pos my * 2 ^ (ey + K) <= m * 2 ^ (e + K) -> Z.pos my * 2 ^ (ey + K) <= mr * 2 ^ (E + K)).
Proof.
  intros Hm HK HeK He Hy E mr.
  pose proof (valid_digits _ _ _ Hy) as (Hey & Hdy24 & _).
  apply valid_finite in Hy. destruct Hy as [Hcan _].
  pose proof (digits2_pos_bounds my) as Hby.
  assert (Hdy0 : 0 < Z.pos (digits2_pos my)) by lia.
  set (dy := Z.pos (digits2_pos my)) in *.
  destruct (Zdigits2_bounds m Hm) as (Hdm & Hlo & Hhi). set (dm := Zdigits2 m) in *.
  assert (HE : -149 <= E) by (unfold E, fexp32; lia).
  assert (HD : 0 < 2 ^ (E - e)) by (apply pow2_pos; lia).
  pose proof (pow2_pos (e + K) HeK) as HpeK.
  pose proof (pow2_pos (E + K) ltac:(lia)) as HpEK.
  assert (HEe : 2 ^ (E + K) = 2 ^ (E - e) * 2 ^ (e + K))
    by (rewrite <- pow2_split by lia; f_equal; lia).
  assert (Hgrid : E <= ey ->
                  Z.pos my * 2 ^ (ey + K) = Z.pos my * 2 ^ (ey - E) * 2 ^ (E + K)).
  { intros Hle. rewrite <- Z.mul_assoc, <- pow2_split by lia. do 2 f_equal. lia. }
  assert (Hytop : Z.pos my * 2 ^ (ey + K) < 2 ^ (dy + ey + K)).
  { replace (dy + ey + K) with (dy + (ey + K)) by lia.
    rewrite (pow2_split dy (ey + K)) by lia.
    apply Z.mul_lt_mono_pos_r; [apply pow2_pos; lia|lia]. }
  split.
  - intros Hle.
    assert (Hd : dm + e <= dy + ey)
      by (apply (digits_le_of_bound m e K (dy + ey)); lia).
    assert (HEy : E <= ey) by (rewrite <- Hcan; apply fexp32_mono; exact Hd).
    rewrite (Hgrid HEy) in *. set (j := Z.pos my * 2 ^ (ey - E)) in *.
    apply Z.mul_le_mono_nonneg_r; [lia|].
    apply rne_le; [exact HD|].
    rewrite HEe in Hle. rewrite Z.mul_assoc in Hle.
    apply Z.mul_le_mono_pos_r in Hle; assumption.
  - intros Hle. destruct (Z_le_gt_dec E ey) as [HEy|HEy].
    + rewrite (Hgrid HEy) in *. set (j := Z.pos my * 2 ^ (ey - E)) in *.
      apply Z.mul_le_mono_nonneg_r; [lia|].
      apply rne_ge; [exact HD|].
      rewrite HEe in Hle. rewrite Z.mul_assoc in Hle.
      apply Z.mul_le_mono_pos_r in Hle; assumption.
    + assert (HEn : E = dm + e - 24) by (unfold E, fexp32 in *; lia).
      assert (Hdy : dy + ey <= 23 + E) by (unfold fexp32 in Hcan; lia).
      assert (H23 : 2 ^ 23 <= mr).
      { apply rne_ge; [exact HD|]. rewrite <- pow2_split by lia.
        replace (23 + (E - e)) with (dm - 1) by lia. exact Hlo. }
      assert (H1 : 2 ^ (dy + ey + K) <= 2 ^ (23 + (E + K))) by (apply pow2_le; lia).
      rewrite (pow2_split 23 (E + K)) in H1 by lia.
      assert (2 ^ 23 * 2 ^ (E + K) <= mr * 2 ^ (E + K))
        by (apply Z.mul_le_mono_nonneg_r; lia).
      lia.
Qed.

(** A rounded result is on the same side of every valid number as the
    exact value. *)
Lemma binary_round_aux_between (s : bool) (m e K k : Z) (y : F32.float) :
  0 < m -> 150 <= K -> 0 <= e + K -> k <= 127 -> 0 <= k + K ->
  m * 2 ^ (e + K) < 2 ^ (k + K) ->
  e <= fexp32 (Zdigits2 m + e) ->
  finite y ->
  let f := binary_round_aux 24 128 s m e loc_Exact in
  let V := cond_Zopp s (m * 2 ^ (e + K)) in
  (V <= scaled K y -> scaled K f <= scaled K y)
  /\ (scaled K y <= V -> scaled K y <= scaled K f).
Proof.
  intros Hm HK HeK Hk HkK Hlt He Hy f V.
  destruct (binary_round_aux_value s m e K k Hm HK HeK Hk HkK Hlt He) as [_ Hsc].
  cbv zeta in Hsc. fold f in Hsc. subst V. rewrite Hsc.
  set (E := fexp32 (Zdigits2 m + e)) in *. set (mr := rne m (2 ^ (E - e))) in *.
  assert (HE : -149 <= E) by (unfold E, fexp32; lia).
  assert (Hmr0 : 0 <= mr * 2 ^ (E + K)).
  { apply Z.mul_nonneg_nonneg; [apply rne_nonneg; [apply pow2_pos|]; lia|].
    apply Z.lt_le_incl, pow2_pos; lia. }
  assert (HV : 0 < m * 2 ^ (e + K)) by (apply Z.mul_pos_pos; [lia|apply pow2_pos; lia]).
  destruct y as [sy|sy| |sy my ey]; try (destruct Hy as [_ Hy]; discriminate Hy).
  - cbn [scaled]. destruct s; cbn [cond_Zopp]; lia.
  - pose proof (finite_exponent _ _ _ Hy) as Hey. destruct Hy as [Hy _].
    destruct (rne_grid m e K my ey Hm HK HeK He Hy) as [Hup Hdown].
    fold E mr in Hup, Hdown.
    assert (HY : 0 < Z.pos my * 2 ^ (ey + K)) by (apply Z.mul_pos_pos; [lia|apply pow2_pos; lia]).
    cbn [scaled]. destruct s, sy; cbn [cond_Zopp]; split; intros; lia.
Qed.

(** The rounding error is at most [2^-24] of the magnitude, or half the
    least unit [2^-149]; only the first for an exponent of at least -149. *)
Lemma binary_round_aux_relative (s : bool) (m e K k : Z) :
  0 < m -> 150 <= K -> 0 <= e + K -> k <= 127 -> 0 <= k + K ->
  m * 2 ^ (e + K) < 2 ^ (k + K) ->
  e <= fexp32 (Zdigits2 m + e) ->
  let f := binary_round_aux 24 128 s m e loc_Exact in
  let V := m * 2 ^ (e + K) in
  0 <= cond_Zopp s (scaled K f)
  /\ 2 ^ 24 * Z.abs (scaled K f - cond_Zopp s V) <= V + 2 ^ (K - 126)
  /\ (-149 <= e -> 2 ^ 24 * Z.abs (scaled K f - cond_Zopp s V) <= V).
Proof.
  intros Hm HK HeK Hk HkK Hlt He f V.
  destruct (binary_round_aux_value s m e K k Hm HK HeK Hk HkK Hlt He) as [_ Hsc].
  cbv zeta in Hsc. fold f in Hsc. rewrite Hsc.
  set (E := fexp32 (Zdigits2 m + e)) in *. set (mr := rne m (2 ^ (E - e))) in *.
  assert (HE : -149 <= E) by (unfold E, fexp32; lia).
  assert (HD : 0 < 2 ^ (E - e)) by (apply pow2_pos; lia).
  pose proof (pow2_pos (e + K) HeK) as HpeK.
  pose proof (pow2_pos (K - 126) ltac:(lia)) as Hp126.
  assert (Hmr0 : 0 <= mr * 2 ^ (E + K)).
  { apply Z.mul_nonneg_nonneg; [apply rne_nonneg; lia|].
    apply Z.lt_le_incl, pow2_pos; lia. }
  assert (HV : 0 < V) by (apply Z.mul_pos_pos; lia).
  destruct (Zdigits2_bounds m Hm) as (Hdm & Hlo & Hhi). set (dm := Zdigits2 m) in *.
  destruct (rne_bounds m (2 ^ (E - e)) HD) as (_ & _ & Herr). fold mr in Herr.
  assert (HEe : 2 ^ (E + K) = 2 ^ (E - e) * 2 ^ (e + K))
    by (rewrite <- pow2_split by lia; f_equal; lia).
  assert (Hdiff : mr * 2 ^ (E + K) - V = (mr * 2 ^ (E - e) - m) * 2 ^ (e + K))
    by (unfold V; rewrite HEe; ring).
  assert (Habs : Z.abs (cond_Zopp s (mr * 2 ^ (E + K)) - cond_Zopp s V)
                 = Z.abs (mr * 2 ^ (E - e) - m) * 2 ^ (e + K)).
  { transitivity (Z.abs (mr * 2 ^ (E + K) - V)); [destruct s; cbn [cond_Zopp]; lia|].
    rewrite Hdiff, Z.abs_mul, (Z.abs_eq (2 ^ (e + K))) by lia. reflexivity. }
  rewrite Habs. split; [destruct s; cbn [cond_Zopp]; lia|].
  destruct (Z.eq_dec E e) as [HEq|HEq].
  - rewrite HEq in Herr. rewrite HEq, Z.sub_diag in *. change (2 ^ 0) with 1 in *.
    replace (Z.abs (mr * 1 - m)) with 0 by lia. lia.
  - assert (H2 : 2 ^ (E - e) = 2 * 2 ^ (E - e - 1)).
    { replace (E - e) with (1 + (E - e - 1)) at 1 by lia. rewrite pow2_split by lia. reflexivity. }
    assert (H3 : Z.abs (mr * 2 ^ (E - e) - m) <= 2 ^ (E - e - 1)) by lia.
    assert (H4 : Z.abs (mr * 2 ^ (E - e) - m) * 2 ^ (e + K) <= 2 ^ (E - e - 1) * 2 ^ (e + K))
      by (apply Z.mul_le_mono_nonneg_r; lia).
    rewrite <- pow2_split in H4 by lia.
    replace (E - e - 1 + (e + K)) with (E + K - 1) in H4 by lia.
    assert (H5 : 2 ^ 24 * 2 ^ (E + K - 1) = 2 ^ (E + K + 23))
      by (rewrite <- pow2_split by lia; f_equal; lia).
    destruct (Z.eq_dec E (dm + e - 24)) as [HEn|HEn].
    + assert (H6 : 2 ^ (E + K + 23) <= V).
      { replace (E + K + 23) with (dm - 1 + (e + K)) by lia. rewrite pow2_split by lia.
        unfold V. apply Z.mul_le_mono_nonneg_r; lia. }
      split; [|intros _]; lia.
    + assert (HE149 : E = -149) by (unfold E, fexp32 in *; lia).
      split; [|intros; lia].
      replace (E + K + 23) with (K - 126) in H5 by lia. lia.
Qed.

Lemma binary_round_between (s : bool) (m : positive) (e K k : Z) :
  150 <= K -> 0 <= e + K -> k <= 127 -> 0 <= k + K ->
  Z.pos m * 2 ^ (e + K) < 2 ^ (k + K) ->
  let f := binary_round 24 128 s m e in
  let V := Z.pos m * 2 ^ (e + K) in
  (forall y, finite y ->
             (cond_Zopp s V <= scaled K y -> scaled K f <= scaled K y)
             /\ (scaled K y <= cond_Zopp s V -> scaled K y <= scaled K f))
  /\ (-149 <= e -> 2 ^ 24 * Z.abs (scaled K f - cond_Zopp s V) <= V).
Proof.
  intros HK HeK Hk HkK Hlt f V. subst f. unfold binary_round.
  rewrite fexp_fexp32. set (E0 := fexp32 (Z.pos (digits2_pos m) + e)).
  destruct (shl_align_spec m e E0) as [Hez Hmz].
  destruct (shl_align m e E0) as [mz ez]. cbn [fst snd] in Hez, Hmz.
  assert (HE0 : -149 <= E0) by (subst E0; unfold fexp32; lia).
  assert (Hval : Z.pos mz * 2 ^ (ez + K) = V).
  { unfold V. rewrite Hmz, <- Z.mul_assoc, <- pow2_split by lia. f_equal. f_equal. lia. }
  assert (Hdig : Zdigits2 (Z.pos mz) + ez = Z.pos (digits2_pos m) + e).
  { rewrite Hmz, Zdigits2_shift by lia. cbn [Zdigits2]. lia. }
  assert (HE : fexp32 (Zdigits2 (Z.pos mz) + ez) = E0) by (rewrite Hdig; reflexivity).
  split.
  - intros y Hy.
    destruct (binary_round_aux_between s (Z.pos mz) ez K k y) as [H1 H2]; try lia; try assumption.
    rewrite Hval in H1, H2. split; assumption.
  - intros He.
    destruct (binary_round_aux_relative s (Z.pos mz) ez K k) as (_ & _ & H3); try lia.
    rewrite Hval in H3. apply H3. lia.
Qed.

Lemma binary_normalize_between (M e K k : Z) :
  150 <= K -> 0 <= e + K -> k <= 127 -> 0 <= k + K ->
  Z.abs M * 2 ^ (e + K) < 2 ^ (k + K) ->
  let f := binary_normalize 24 128 M e false in
  let V := M * 2 ^ (e + K) in
  (forall y, finite y ->
             (V <= scaled K y -> scaled K f <= scaled K y)
             /\ (scaled K y <= V -> scaled K y <= scaled K f))
  /\ (-149 <= e -> 2 ^ 24 * Z.abs (scaled K f - V) <= Z.abs V).
Proof.
  intros HK HeK Hk HkK Hlt f V. subst f V.
  pose proof (pow2_pos (e + K) HeK) as Hp.
  destruct M as [|p|p]; cbn [binary_normalize].
  - cbn [scaled]. rewrite Z.mul_0_l. split; [intros; split; auto|cbn; lia].
  - destruct (binary_round_between false p e K k) as [H1 H2]; try lia.
    cbn [cond_Zopp] in *. split; [exact H1|].
    intros He. rewrite (Z.abs_eq (Z.pos p * 2 ^ (e + K))) by lia. auto.
  - destruct (binary_round_between true p e K k) as [H1 H2]; try lia.
    cbn [cond_Zopp] in *.
    replace (Z.neg p * 2 ^ (e + K)) with (- (Z.pos p * 2 ^ (e + K))) by lia.
    split; [exact H1|].
    intros He. rewrite Z.abs_opp, (Z.abs_eq (Z.pos p * 2 ^ (e + K))) by lia. auto.
Qed.

(** A sum is on the same side of every valid number as the exact sum. *)
Lemma add_between (x y z : F32.float) (K k : Z) :
  150 <= K -> k <= 127 -> 0 <= k + K ->
  finite x -> finite y -> finite z ->
  Z.abs (scaled K x + scaled K y) < 2 ^ (k + K) ->
  (scaled K x + scaled K y <= scaled K z -> scaled K (F32.add x y) <= scaled K z)
  /\ (scaled K z <= scaled K x + scaled K y -> scaled K z <= scaled K (F32.add x y)).
Proof.
  intros HK Hk HkK Hx Hy Hz Hlt.
  destruct x as [sx|sx| |sx mx ex], y as [sy|sy| |sy my ey];
    try (destruct Hx as [_ Hx]; discriminate Hx);
    try (destruct Hy as [_ Hy]; discriminate Hy).
  - assert (Hs : exists s, F32.add (S754_zero sx) (S754_zero sy) = S754_zero s)
      by (destruct sx, sy; eexists; reflexivity).
    destruct Hs as [s ->]. cbn [scaled]. lia.
  - change (F32.add (S754_zero sx) (S754_finite sy my ey)) with (S754_finite sy my ey).
    cbn [scaled]. lia.
  - change (F32.add (S754_finite sx mx ex) (S754_zero sy)) with (S754_finite sx mx ex).
    cbn [scaled]. lia.
  - pose proof (finite_exponent _ _ _ Hx) as Hex. pose proof (finite_exponent _ _ _ Hy) as Hey.
    unfold F32.add, SFadd. set (ez := Z.min ex ey).
    destruct (shl_align_spec mx ex ez) as [_ Hmx]. destruct (shl_align_spec my ey ez) as [_ Hmy].
    rewrite Hmx, Hmy. rewrite (Z.min_r ex ez), (Z.min_r ey ez) by (unfold ez; lia).
    set (M := cond_Zopp sx _ + cond_Zopp sy _).
    assert (HM : M * 2 ^ (ez + K) = scaled K (S754_finite sx mx ex) + scaled K (S754_finite sy my ey)).
    { subst M. cbn [scaled]. rewrite Z.mul_add_distr_r.
      assert (H1 : 2 ^ (ex + K) = 2 ^ (ex - ez) * 2 ^ (ez + K))
        by (rewrite <- pow2_split by (unfold ez; lia); f_equal; lia).
      assert (H2 : 2 ^ (ey + K) = 2 ^ (ey - ez) * 2 ^ (ez + K))
        by (rewrite <- pow2_split by (unfold ez; lia); f_equal; lia).
      rewrite H1, H2. destruct sx, sy; cbn [cond_Zopp]; ring. }
    destruct (binary_normalize_between M ez K k) as [H1 _]; try lia.
    rewrite HM in H1. apply H1, Hz.
Qed.

(** A difference carries a relative error of at most [2^-24]. *)
Lemma sub_relative (x y : F32.float) (K k : Z) :
  150 <= K -> k <= 127 -> 0 <= k + K ->
  finite x -> finite y ->
  Z.abs (scaled K x - scaled K y) < 2 ^ (k + K) ->
  2 ^ 24 * Z.abs (scaled K (F32.sub x y) - (scaled K x - scaled K y))
  <= Z.abs (scaled K x - scaled K y).
Proof.
  intros HK Hk HkK Hx Hy Hlt.
  destruct x as [sx|sx| |sx mx ex], y as [sy|sy| |sy my ey];
    try (destruct Hx as [_ Hx]; discriminate Hx);
    try (destruct Hy as [_ Hy]; discriminate Hy).
  - assert (Hs : exists s, F32.sub (S754_zero sx) (S754_zero sy) = S754_zero s)
      by (destruct sx, sy; eexists; reflexivity).
    destruct Hs as [s ->]. cbn. lia.
  - change (F32.sub (S754_zero sx) (S754_finite sy my ey)) with (S754_finite (negb sy) my ey).
    cbn [scaled]. destruct sy; cbn [negb cond_Zopp]; lia.
  - change (F32.sub (S754_finite sx mx ex) (S754_zero sy)) with (S754_finite sx mx ex).
    cbn [scaled]. lia.
  - pose proof (finite_exponent _ _ _ Hx) as Hex. pose proof (finite_exponent _ _ _ Hy) as Hey.
    unfold F32.sub, SFsub. set (ez := Z.min ex ey).
    destruct (shl_align_spec mx ex ez) as [_ Hmx]. destruct (shl_align_spec my ey ez) as [_ Hmy].
    rewrite Hmx, Hmy. rewrite (Z.min_r ex ez), (Z.min_r ey ez) by (unfold ez; lia).
    set (M := cond_Zopp sx _ - cond_Zopp sy _).
    assert (HM : M * 2 ^ (ez + K) = scaled K (S754_finite sx mx ex) - scaled K (S754_finite sy my ey)).
    { subst M. cbn [scaled]. rewrite Z.mul_sub_distr_r.
      assert (H1 : 2 ^ (ex + K) = 2 ^ (ex - ez) * 2 ^ (ez + K))
        by (rewrite <- pow2_split by (unfold ez; lia); f_equal; lia).
      assert (H2 : 2 ^ (ey + K) = 2 ^ (ey - ez) * 2 ^ (ez + K))
        by (rewrite <- pow2_split by (unfold ez; lia); f_equal; lia).
      rewrite H1, H2. destruct sx, sy; cbn [cond_Zopp]; ring. }
    destruct (binary_normalize_between M ez K k) as [_ H2]; try lia.
    rewrite HM in H2. apply H2. unfold ez. lia.
Qed.

(** A product keeps the sign of the exact product, with a relative error
    of at most [2^-24] or an error of at most half the least unit. *)
Lemma mul_relative (x : F32.float) (sy : bool) (my : positive) (ey K k : Z) :
  150 <= K -> k <= 127 -> 0 <= k + K -> 149 <= ey + K ->
  finite x -> finite (S754_finite sy my ey) ->
  Z.abs (scaled (ey + K) x) * Z.pos my < 2 ^ (k + K) ->
  let Q := cond_Zopp sy (scaled (ey + K) x * Z.pos my) in
  let P := scaled K (F32.mul x (S754_finite sy my ey)) in
  2 ^ 24 * Z.abs (P - Q) <= Z.abs Q + 2 ^ (K - 126)
  /\ (0 <= Q -> 0 <= P) /\ (Q <= 0 -> P <= 0).
Proof.
  intros HK Hk HkK HeyK Hx Hy Hlt Q P. subst Q P.
  pose proof (pow2_pos (K - 126) ltac:(lia)) as Hp126.
  destruct x as [sx|sx| |sx mx ex]; try (destruct Hx as [_ Hx]; discriminate Hx).
  - change (F32.mul (S754_zero sx) (S754_finite sy my ey)) with (S754_zero (xorb sx sy)).
    cbn [scaled]. destruct sy; cbn; lia.
  - pose proof (finite_exponent _ _ _ Hx) as Hex.
    pose proof (mul_aligned sx sy mx my ex ey Hx Hy) as Hal.
    cbn [scaled] in Hlt |- *.
    assert (Hee : ex + (ey + K) = ex + ey + K) by lia.
    rewrite Hee in *.
    pose proof (pow2_pos (ex + ey + K) ltac:(lia)) as Hpe.
    assert (Hlt' : Z.pos (mx * my) * 2 ^ (ex + ey + K) < 2 ^ (k + K)).
    { rewrite Pos2Z.inj_mul. destruct sx; cbn [cond_Zopp] in Hlt; lia. }
    destruct (binary_round_aux_relative (xorb sx sy) (Z.pos (mx * my)) (ex + ey) K k)
      as (H1 & H2 & _); try lia.
    change (F32.mul (S754_finite sx mx ex) (S754_finite sy my ey))
      with (binary_round_aux 24 128 (xorb sx sy) (Z.pos (mx * my)) (ex + ey) loc_Exact).
    set (P := scaled K (binary_round_aux 24 128 (xorb sx sy) (Z.pos (mx * my)) (ex + ey) loc_Exact)) in *.
    set (V := Z.pos (mx * my) * 2 ^ (ex + ey + K)) in *.
    assert (HV : 0 < V) by (apply Z.mul_pos_pos; lia).
    assert (HQ : cond_Zopp sy (cond_Zopp sx (Z.pos mx * 2 ^ (ex + ey + K)) * Z.pos my)
                 = cond_Zopp (xorb sx sy) V).
    { unfold V. rewrite Pos2Z.inj_mul. destruct sx, sy; cbn [cond_Zopp xorb]; ring. }
    rewrite HQ. destruct (xorb sx sy); cbn [cond_Zopp] in *; lia.
Qed.

(** On valid finite numbers the comparisons are those of the values. *)
Lemma canonical_order (sx sy : bool) (mx my : positive) (ex ey K : Z) :
  149 <= K ->
  finite (S754_finite sx mx ex) -> finite (S754_finite sy my ey) ->
  (ex < ey \/ (ex = ey /\ Z.pos mx < Z.pos my)) ->
  Z.pos mx * 2 ^ (ex + K) < Z.pos my * 2 ^ (ey + K).
Proof.
  intros HK [Hx _] [Hy _] H. apply valid_digits in Hx, Hy.
  destruct H as [Hlt|[-> Hlt]].
  - assert (H1 : 2 ^ (ey + K) = 2 ^ (ey - ex - 1) * 2 * 2 ^ (ex + K)).
    { replace (ey + K) with ((ey - ex - 1) + 1 + (ex + K)) by lia.
      rewrite !pow2_split by lia. reflexivity. }
    pose proof (pow2_pos (ex + K) ltac:(lia)). pose proof (pow2_pos (ey - ex - 1) ltac:(lia)).
    rewrite H1.
    assert (Z.pos mx * 2 ^ (ex + K) < 2 ^ 24 * 2 ^ (ex + K))
      by (apply Z.mul_lt_mono_pos_r; lia).
    assert (2 ^ 23 * (2 ^ (ey - ex - 1) * 2 * 2 ^ (ex + K))
            <= Z.pos my * (2 ^ (ey - ex - 1) * 2 * 2 ^ (ex + K)))
      by (apply Z.mul_le_mono_nonneg_r; lia).
    change (2 ^ 24) with (2 ^ 23 * 2) in *. nia.
  - apply Z.mul_lt_mono_pos_r; [apply pow2_pos; lia|assumption].
Qed.

Lemma scaled_ltb (x y : F32.float) (K : Z) :
  149 <= K -> finite x -> finite y ->
  F32.ltb x y = true <-> scaled K x < scaled K y.
Proof.
  intros HK Hx Hy.
  destruct x as [sx|sx| |sx mx ex], y as [sy|sy| |sy my ey];
    try (destruct Hx as [_ Hx]; discriminate Hx);
    try (destruct Hy as [_ Hy]; discriminate Hy).
  - cbn. split; [discriminate|lia].
  - pose proof (finite_exponent _ _ _ Hy). pose proof (pow2_pos (ey + K) ltac:(lia)).
    assert (0 < Z.pos my * 2 ^ (ey + K)) by (apply Z.mul_pos_pos; lia).
    destruct sy; unfold F32.ltb, SFltb; cbn [SFcompare scaled cond_Zopp];
      split; try discriminate; try reflexivity; lia.
  - pose proof (finite_exponent _ _ _ Hx). pose proof (pow2_pos (ex + K) ltac:(lia)).
    assert (0 < Z.pos mx * 2 ^ (ex + K)) by (apply Z.mul_pos_pos; lia).
    destruct sx; unfold F32.ltb, SFltb; cbn [SFcompare scaled cond_Zopp];
      split; try discriminate; try reflexivity; lia.
  - pose proof (finite_exponent _ _ _ Hx). pose proof (finite_exponent _ _ _ Hy).
    pose proof (pow2_pos (ex + K) ltac:(lia)). pose proof (pow2_pos (ey + K) ltac:(lia)).
    assert (0 < Z.pos mx * 2 ^ (ex + K)) by (apply Z.mul_pos_pos; lia).
    assert (0 < Z.pos my * 2 ^ (ey + K)) by (apply Z.mul_pos_pos; lia).
    rewrite ltb_rank. cbn [rank scaled].
    assert (Hxy := canonical_order sx sy mx my ex ey K HK Hx Hy).
    assert (Hyx := canonical_order sy sx my mx ey ex K HK Hy Hx).
    destruct sx, sy; cbn [cond_Zopp]; split.
    + intros (a & b & [= <-] & [= <-] & Hl). cbn in Hl.
      assert (Z.pos my * 2 ^ (ey + K) < Z.pos mx * 2 ^ (ex + K)) by (apply Hyx; lia). lia.
    + intros Hl. eexists _, _. repeat split. cbn.
      destruct (Z.lt_trichotomy ex ey) as [Hc|[Hc|Hc]].
      * assert (Z.pos mx * 2 ^ (ex + K) < Z.pos my * 2 ^ (ey + K)) by (apply Hxy; lia). lia.
      * subst ey. assert (Z.pos my < Z.pos mx) by nia. lia.
      * lia.
    + intros _. lia.
    + intros _. eexists _, _. repeat split. cbn. lia.
    + intros (a & b & [= <-] & [= <-] & Hl). cbn in Hl. lia.
    + lia.
    + intros (a & b & [= <-] & [= <-] & Hl). cbn in Hl. apply Hxy. lia.
    + intros Hl. eexists _, _. repeat split. cbn.
      destruct (Z.lt_trichotomy ex ey) as [Hc|[Hc|Hc]].
      * lia.
      * subst ey. assert (Z.pos mx < Z.pos my) by nia. lia.
      * assert (Z.pos my * 2 ^ (ey + K) < Z.pos mx * 2 ^ (ex + K)) by (apply Hyx; lia). lia.
Qed.

Lemma scaled_leb (x y : F32.float) (K : Z) :
  149 <= K -> finite x -> finite y ->
  F32.leb x y = true -> scaled K x <= scaled K y.
Proof.
  intros HK Hx Hy Hle.
  destruct (Z_le_gt_dec (scaled K x) (scaled K y)) as [|Hgt]; [assumption|exfalso].
  assert (Hlt : F32.ltb y x = true) by (apply (scaled_ltb y x K); try assumption; lia).
  apply ltb_not_leb in Hlt. congruence.
Qed.

Lemma finite_not_nan (x : F32.float) : finite x -> F32.isnan x = false.
Proof. intros [_ H]. now destruct x. Qed.

Lemma leb_scaled (x y : F32.float) (K : Z) :
  149 <= K -> finite x -> finite y ->
  scaled K x <= scaled K y -> F32.leb x y = true.
Proof.
  intros HK Hx Hy Hle. apply leb_total; try now apply finite_not_nan.
  destruct (F32.ltb y x) eqn:Hlt; [|reflexivity].
  apply (scaled_ltb y x K) in Hlt; try assumption. lia.
Qed.

(** The quotient of [0 <= x <= y], [0 < y], is between 0 and 1. *)
Lemma div_le_one (mx my : positive) (ex ey : Z) :
  finite (S754_finite false mx ex) -> finite (S754_finite false my ey) ->
  F32.leb (S754_finite false mx ex) (S754_finite false my ey) = true ->
  F32.within F32.zero F32.one (F32.div (S754_finite false mx ex) (S754_finite false my ey)) = true.
Proof.
  intros Hx Hy Hle.
  pose proof (scaled_leb _ _ 500 ltac:(lia) Hx Hy Hle) as Hval. cbn [scaled cond_Zopp] in Hval.
  destruct Hx as [Hvx _], Hy as [Hvy _]. apply valid_digits in Hvx, Hvy.
  destruct Hvx as (Hex & Hdx & Hdx' & Hmx & Hmx'). destruct Hvy as (Hey & Hdy & Hdy' & Hmy & Hmy').
  pose proof (digits2_pos_bounds mx) as [Hlx Hhx]. pose proof (digits2_pos_bounds my) as [Hly Hhy].
  set (d1 := Z.pos (digits2_pos mx)) in *. set (d2 := Z.pos (digits2_pos my)) in *.
  assert (Hd1 : 0 < d1) by (unfold d1; lia). assert (Hd2 : 0 < d2) by (unfold d2; lia).
  (* the magnitudes *)
  assert (Hdelta : d1 + ex - (d2 + ey) <= 0).
  { destruct (Z_le_gt_dec (d1 + ex - (d2 + ey)) 0) as [|Hgt]; [assumption|exfalso].
    assert (H1 : 2 ^ (d2 + (ey + 500)) <= 2 ^ (d1 - 1 + (ex + 500))) by (apply pow2_le; lia).
    rewrite (pow2_split d2 (ey + 500)), (pow2_split (d1 - 1) (ex + 500)) in H1 by lia.
    pose proof (pow2_pos (ex + 500) ltac:(lia)). pose proof (pow2_pos (ey + 500) ltac:(lia)).
    assert (2 ^ (d1 - 1) * 2 ^ (ex + 500) <= Z.pos mx * 2 ^ (ex + 500))
      by (apply Z.mul_le_mono_nonneg_r; lia).
    assert (Z.pos my * 2 ^ (ey + 500) < 2 ^ d2 * 2 ^ (ey + 500))
      by (apply Z.mul_lt_mono_pos_r; lia).
    lia. }
  unfold F32.div, SFdiv, SFdiv_core_binary. rewrite fexp_fexp32.
  change (Zdigits2 (Z.pos mx)) with d1. change (Zdigits2 (Z.pos my)) with d2.
  set (e' := Z.min (fexp32 (d1 + ex - (d2 + ey))) (ex - ey)).
  assert (He'24 : e' <= -24) by (unfold e', fexp32; lia).
  assert (He'lo : -253 <= e') by (unfold e', fexp32; lia).
  set (s := ex - ey - e').
  assert (Hs : 0 <= s) by (unfold s, e'; lia).
  set (m' := match s with Z.pos _ => Z.shiftl (Z.pos mx) s | 0 => Z.pos mx | Z.neg _ => 0 end).
  assert (Hm' : m' = Z.pos mx * 2 ^ s).
  { unfold m'. destruct s as [|p|p] eqn:Hsp; try lia.
    apply Z.shiftl_mul_pow2. lia. }
  clearbody m'.
  pose proof (pow2_pos s Hs) as Hps.
  assert (Hm'pos : 0 < m') by (rewrite Hm'; apply Z.mul_pos_pos; lia).
  (* m' <= my * 2^(-e') *)
  assert (Hbound : m' <= Z.pos my * 2 ^ (- e')).
  { pose proof (pow2_pos (e' + ey + 500) ltac:(lia)) as Hp.
    assert (H1 : Z.pos mx * 2 ^ (ex + 500) = m' * 2 ^ (e' + ey + 500)).
    { rewrite Hm', <- Z.mul_assoc, <- pow2_split by lia. f_equal. f_equal. unfold s. lia. }
    assert (H2 : Z.pos my * 2 ^ (ey + 500) = Z.pos my * 2 ^ (- e') * 2 ^ (e' + ey + 500)).
    { rewrite <- Z.mul_assoc, <- pow2_split by lia. f_equal. f_equal. lia. }
    rewrite H1, H2 in Hval. apply Z.mul_le_mono_pos_r in Hval; assumption. }
  pose proof (Z.div_mod m' (Z.pos my) ltac:(lia)) as Hdm.
  pose proof (Z.mod_pos_bound m' (Z.pos my) ltac:(lia)) as Hmod.
  assert (Hdiv : fst (Z.div_eucl m' (Z.pos my)) = m' / Z.pos my) by reflexivity.
  assert (Hmd : snd (Z.div_eucl m' (Z.pos my)) = m' mod Z.pos my) by reflexivity.
  destruct (Z.div_eucl m' (Z.pos my)) as [q r]. cbn [fst snd] in Hdiv, Hmd. subst q r.
  set (q := m' / Z.pos my) in *. set (r := m' mod Z.pos my) in *.
  pose proof (pow2_pos (- e') ltac:(lia)) as Hpe.
  assert (Hq0 : 0 <= q) by (apply Z.div_pos; lia).
  assert (Hq : q <= 2 ^ (- e')).
  { apply Z.div_le_upper_bound; lia. }
  assert (Hdq : Zdigits2 q + e' <= 1).
  { assert (Zdigits2 q <= - e' + 1); [|lia].
    apply Zdigits2_le; [lia|]. rewrite pow2_split by lia. change (2 ^ 1) with 2. lia. }
  (* alignment *)
  assert (Hal : e' <= fexp32 (Zdigits2 q + e')).
  { unfold fexp32. destruct (Z_le_gt_dec e' (-149)) as [|Hgt]; [lia|].
    assert (He'eq : e' = d1 + ex - (d2 + ey) - 24) by (unfold e', fexp32 in *; lia).
    assert (Hseq : s = 24 - d1 + d2) by (unfold s; lia).
    assert (H23 : 2 ^ 23 <= q).
    { apply Z.div_le_lower_bound; [lia|].
      assert (H1 : 2 ^ 23 * 2 ^ d2 <= m').
      { rewrite Hm', Hseq. replace (24 - d1 + d2) with ((24 - d1) + d2) by lia.
        rewrite pow2_split by lia.
        assert (2 ^ 23 <= Z.pos mx * 2 ^ (24 - d1)).
        { replace 23 with ((d1 - 1) + (24 - d1)) by lia. rewrite pow2_split by lia.
          apply Z.mul_le_mono_nonneg_r; [apply Z.lt_le_incl, pow2_pos|]; lia. }
        pose proof (pow2_pos d2 ltac:(lia)). nia. }
      nia. }
    apply Zdigits2_ge in H23; lia. }
  destruct (binary_round_aux_spec false q e' (new_location (Z.pos my) r) m' (Z.pos my))
    as [Hmr Heq]; try lia; try reflexivity.
  { apply new_location_location_of. exact Hmod. }
  cbv zeta in Hmr, Heq. cbv beta iota zeta. unfold F32.prec, F32.emax. cbn [xorb]. rewrite Heq. clear Heq.
  set (E := fexp32 (Zdigits2 q + e')) in *.
  set (mr := rne m' (Z.pos my * 2 ^ (E - e'))) in *.
  assert (HE : -149 <= E <= -23) by (unfold E, fexp32; lia).
  destruct (Z.eq_dec (Zdigits2 q + e') 1) as [Hone|Hless].
  - (* the quotient is exactly one *)
    assert (HE23 : E = -23) by (unfold E; rewrite Hone; reflexivity).
    assert (Hqeq : q = 2 ^ (- e')).
    { assert (- e' < Zdigits2 q) by lia.
      destruct (Z.eq_dec q 0) as [H0|H0]; [rewrite H0 in *; cbn in *; lia|].
      destruct (Zdigits2_bounds q ltac:(lia)) as (_ & Hlo & _).
      replace (Zdigits2 q - 1) with (- e') in Hlo by lia. lia. }
    assert (Hm'eq : m' = Z.pos my * 2 ^ (- e')) by (unfold q, r in *; nia).
    assert (Hmr23 : mr = 2 ^ 23).
    { unfold mr. rewrite HE23.
      assert (Hsplit : 2 ^ (- e') = 2 ^ (-23 - e') * 2 ^ 23)
        by (rewrite <- pow2_split by lia; f_equal; lia).
      pose proof (pow2_pos (-23 - e') ltac:(lia)) as Hp23.
      assert (HN : m' = 2 ^ 23 * (Z.pos my * 2 ^ (-23 - e'))) by (rewrite Hm'eq, Hsplit; ring).
      destruct (rne_bounds m' (Z.pos my * 2 ^ (-23 - e')) ltac:(lia)) as (_ & Hex0 & _).
      rewrite Hex0; rewrite HN.
      - apply Z.div_mul. lia.
      - apply Z.mod_mul. lia. }
    rewrite Hmr23, HE23. reflexivity.
  - assert (HE24 : E <= -24) by (unfold E, fexp32; lia).
    clearbody mr. unfold round_result.
    destruct (Z.eqb_spec mr 0); [reflexivity|].
    destruct (Z.eqb_spec mr (2 ^ 24)).
    + destruct (Z.leb_spec (E + 1) 104); [|lia].
      unfold F32.within. apply andb_true_iff. split; [reflexivity|].
      apply leb_rank. eexists _, _. split; [reflexivity|]. split; [reflexivity|].
      destruct (Z.eq_dec (E + 1) (-23)) as [->|Hne]; [right; reflexivity|left; cbn; lia].
    + destruct (Z.leb_spec E 104); [|lia].
      unfold F32.within. apply andb_true_iff. split; [reflexivity|].
      apply leb_rank. eexists _, _. split; [reflexivity|]. split; [reflexivity|].
      left. cbn. lia.
Qed.

Lemma scaled_shift (x : F32.float) (K j : Z) :
  finite x -> 149 <= K -> 0 <= j -> scaled (K + j) x = scaled K x * 2 ^ j.
Proof.
  intros Hx HK Hj. destruct x as [s|s| |s m e]; try reflexivity.
  pose proof (finite_exponent _ _ _ Hx). cbn [scaled].
  replace (e + (K + j)) with (e + K + j) by lia. rewrite pow2_split by lia.
  destruct s; cbn [cond_Zopp]; ring.
Qed.

Lemma finite_c0_15 : finite F32.c0_15.
Proof. split; reflexivity. Qed.

(** One step toward the target, on values in units of [2^-175]: the
    distance to the target shrinks by the factor [1 - 0.15f], up to three
    roundings. [u] is a quarter of the rounding unit of the range. *)
Lemma approach_scaled (k : Z) (a t : F32.float) :
  -100 <= k <= 127 ->
  finite a -> finite t ->
  let u := 2 ^ (k + 148) in
  0 <= scaled 175 a <= 2 ^ 27 * u - 8 * u ->
  0 <= scaled 175 t <= 2 ^ 27 * u - 8 * u ->
  finite (approach a t)
  /\ 2 ^ 26 * Z.abs (scaled 175 (approach a t) - scaled 175 t)
     <= (2 ^ 26 - 10066330) * Z.abs (scaled 175 a - scaled 175 t) + 375809640 * u.
Proof.
  intros Hk Ha Ht u HA HT.
  assert (Hu : 0 < u) by (apply pow2_pos; lia).
  assert (Hk0 : 2 ^ (k + 175) = 2 ^ 27 * u).
  { unfold u. rewrite <- pow2_split by lia. f_equal. lia. }
  assert (Hk2 : 2 ^ (k - 2 + 175) = 2 ^ 25 * u).
  { unfold u. rewrite <- pow2_split by lia. f_equal. lia. }
  assert (He1 : 2 ^ (fexp32 k + 175 - 1) = 4 * u).
  { unfold u, fexp32. replace (Z.max (k - 24) (-149) + 175 - 1) with (2 + (k + 148)) by lia.
    rewrite pow2_split by lia. reflexivity. }
  assert (He2 : 2 ^ (fexp32 (k - 2) + 175 - 1) = u).
  { unfold u, fexp32. f_equal. lia. }
  set (A := scaled 175 a) in *. set (T := scaled 175 t) in *.
  unfold approach.
  (* the difference *)
  destruct (sub_scaled t a 175 k) as [Hd Hde]; try lia; try assumption.
  fold T A in Hde. rewrite He1 in Hde.
  set (d := F32.sub t a) in *.
  (* the product *)
  assert (Hdsh : scaled 175 d = scaled 149 d * 2 ^ 26).
  { change 175 with (149 + 26). apply scaled_shift; try assumption; lia. }
  destruct (mul_scaled d false 10066330 (-26) 175 (k - 2)) as [Hp Hpe];
    try lia; try assumption; try exact finite_c0_15.
  { change (-26 + 175) with 149. rewrite Hk2. change (2 ^ 25) with 33554432.
    change (2 ^ 26) with 67108864 in *. change (2 ^ 27) with 134217728 in *. lia. }
  change (-26 + 175) with 149 in Hpe. cbn [cond_Zopp] in Hpe. rewrite He2 in Hpe.
  change (S754_finite false 10066330 (-26)) with F32.c0_15 in *.
  set (p := F32.mul d F32.c0_15) in *.
  (* the sum *)
  destruct (add_scaled a p 175 k) as [Hs Hse]; try lia; try assumption.
  fold A in Hse. rewrite He1 in Hse.
  split; [exact Hs|].
  change (2 ^ 26) with 67108864 in *. change (2 ^ 27) with 134217728 in *. lia.
Qed.

(** Every finite number is a multiple of the least unit [2^-149]. *)
Lemma scaled_multiple (x : F32.float) :
  finite x -> exists j, scaled 175 x = j * 2 ^ 26.
Proof.
  intros Hx. exists (scaled 149 x). change 175 with (149 + 26).
  apply scaled_shift; [exact Hx|lia|lia].
Qed.

(** One step toward the target lands between the current value and the
    target: it never overshoots, and never leaves the range the two are
    in. *)
Lemma approach_between (k : Z) (a t : F32.float) :
  -100 <= k <= 127 ->
  finite a -> finite t ->
  let u := 2 ^ (k + 148) in
  0 <= scaled 175 a <= 2 ^ 27 * u - 8 * u ->
  0 <= scaled 175 t <= 2 ^ 27 * u - 8 * u ->
  Z.min (scaled 175 a) (scaled 175 t) <= scaled 175 (approach a t)
  <= Z.max (scaled 175 a) (scaled 175 t).
Proof.
  intros Hk Ha Ht u HA HT.
  assert (Hu : 0 < u) by (apply pow2_pos; lia).
  assert (Hk0 : 2 ^ (k + 175) = 2 ^ 27 * u).
  { unfold u. rewrite <- pow2_split by lia. f_equal. lia. }
  assert (Hk2 : 2 ^ (k - 2 + 175) = 2 ^ 25 * u).
  { unfold u. rewrite <- pow2_split by lia. f_equal. lia. }
  assert (He1 : 2 ^ (fexp32 k + 175 - 1) = 4 * u).
  { unfold u, fexp32. replace (Z.max (k - 24) (-149) + 175 - 1) with (2 + (k + 148)) by lia.
    rewrite pow2_split by lia. reflexivity. }
  destruct (scaled_multiple a Ha) as [ja Hja]. destruct (scaled_multiple t Ht) as [jt Hjt].
  set (A := scaled 175 a) in *. set (T := scaled 175 t) in *.
  unfold approach.
  (* the difference *)
  destruct (sub_scaled t a 175 k) as [Hd Hde]; try lia; try assumption.
  pose proof (sub_relative t a 175 k ltac:(lia) ltac:(lia) ltac:(lia) Ht Ha ltac:(fold T A; lia))
    as Hdr.
  fold T A in Hde, Hdr. rewrite He1 in Hde.
  set (d := F32.sub t a) in *.
  assert (Hdsh : scaled 175 d = scaled 149 d * 2 ^ 26).
  { change 175 with (149 + 26). apply scaled_shift; try assumption; lia. }
  rewrite Hdsh in Hde, Hdr. set (D := scaled 149 d) in *.
  (* the product *)
  assert (Hsmall : Z.abs (scaled (-26 + 175) d) * Z.pos 10066330 < 2 ^ (k - 2 + 175)).
  { change (-26 + 175) with 149. fold D. rewrite Hk2. change (2 ^ 25) with 33554432.
    change (2 ^ 26) with 67108864 in *. change (2 ^ 27) with 134217728 in *. lia. }
  destruct (mul_scaled d false 10066330 (-26) 175 (k - 2)) as [Hp _];
    try lia; try assumption; try exact finite_c0_15.
  destruct (mul_relative d false 10066330 (-26) 175 (k - 2)) as (Hpr & Hpos & Hneg);
    try lia; try assumption; try exact finite_c0_15.
  change (-26 + 175) with 149 in Hpr, Hpos, Hneg. fold D in Hpr, Hpos, Hneg.
  cbn [cond_Zopp] in Hpr, Hpos, Hneg.
  change (S754_finite false 10066330 (-26)) with F32.c0_15 in *.
  set (p := F32.mul d F32.c0_15) in *. set (P := scaled 175 p) in *.
  change (175 - 126) with 49 in Hpr.
  change (2 ^ 24) with 16777216 in *. change (2 ^ 26) with 67108864 in *.
  change (2 ^ 27) with 134217728 in *. change (2 ^ 49) with 562949953421312 in *.
  change (Z.pos 10066330) with 10066330 in *.
  (* the step is toward the target and no longer than the distance *)
  assert (Hstep : (A <= T -> 0 <= P <= T - A) /\ (T <= A -> T - A <= P <= 0)) by lia.
  (* the sum *)
  assert (Hsum : Z.abs (A + P) < 2 ^ (k + 175)) by (rewrite Hk0; lia).
  destruct (add_between a p a 175 k ltac:(lia) ltac:(lia) ltac:(lia) Ha Hp Ha Hsum) as [Ha1 Ha2].
  destruct (add_between a p t 175 k ltac:(lia) ltac:(lia) ltac:(lia) Ha Hp Ht Hsum) as [Ht1 Ht2].
  fold A P T in Ha1, Ha2, Ht1, Ht2.
  set (R := scaled 175 (F32.add a p)) in *. lia.
Qed.

Lemma clamp_scaled (hi x : F32.float) :
  finite hi -> finite x -> 0 <= scaled 175 hi ->
  finite (clamp hi x)
  /\ scaled 175 (clamp hi x) = Z.max 0 (Z.min (scaled 175 hi) (scaled 175 x)).
Proof.
  intros Hhi Hx H0. unfold clamp.
  pose proof (scaled_ltb x F32.zero 175 ltac:(lia) Hx (finite_zero false)) as Hneg.
  change (scaled 175 F32.zero) with 0 in Hneg.
  destruct (F32.ltb x F32.zero) eqn:E1.
  - assert (scaled 175 x < 0) by (apply Hneg; reflexivity).
    pose proof (scaled_ltb hi F32.zero 175 ltac:(lia) Hhi (finite_zero false)) as Hh.
    change (scaled 175 F32.zero) with 0 in Hh.
    destruct (F32.ltb hi F32.zero) eqn:E2.
    + assert (scaled 175 hi < 0) by (apply Hh; reflexivity). lia.
    + split; [apply finite_zero|]. change (scaled 175 F32.zero) with 0. lia.
  - assert (0 <= scaled 175 x).
    { destruct (Z_le_gt_dec 0 (scaled 175 x)); [assumption|].
      assert (false = true) by (apply Hneg; lia). discriminate. }
    pose proof (scaled_ltb hi x 175 ltac:(lia) Hhi Hx) as Hh.
    destruct (F32.ltb hi x) eqn:E2.
    + assert (scaled 175 hi < scaled 175 x) by (apply Hh; reflexivity).
      split; [assumption|]. lia.
    + assert (scaled 175 x <= scaled 175 hi).
      { destruct (Z_le_gt_dec (scaled 175 x) (scaled 175 hi)); [assumption|].
        assert (false = true) by (apply Hh; lia). discriminate. }
      split; [assumption|]. lia.
Qed.

Lemma smooth_scaled (k : Z) (hi a t : F32.float) :
  -100 <= k <= 127 ->
  finite hi -> finite a -> finite t ->
  let u := 2 ^ (k + 148) in
  0 <= scaled 175 hi <= 2 ^ 27 * u - 8 * u ->
  0 <= scaled 175 a <= scaled 175 hi ->
  0 <= scaled 175 t <= scaled 175 hi ->
  finite (smooth hi a t)
  /\ 0 <= scaled 175 (smooth hi a t) <= scaled 175 hi
  /\ 100 * (Z.abs (scaled 175 (smooth hi a t) - scaled 175 t) - 40 * u)
     <= 85 * (Z.abs (scaled 175 a - scaled 175 t) - 40 * u).
Proof.
  intros Hk Hhi Ha Ht u HH HA HT.
  destruct (approach_scaled k a t Hk Ha Ht) as [Hs Hse]; try lia.
  fold u in Hse.
  destruct (clamp_scaled hi (approach a t) Hhi Hs ltac:(lia)) as [Hc Hce].
  unfold smooth. split; [exact Hc|]. rewrite Hce.
  change (2 ^ 26) with 67108864 in *. change (2 ^ 27) with 134217728 in *.
  split; lia.
Qed.

Lemma settle_scaled (k : Z) (hi t : F32.float) (n : nat) (a : F32.float) :
  -100 <= k <= 127 ->
  finite hi -> finite a -> finite t ->
  let u := 2 ^ (k + 148) in
  0 <= scaled 175 hi <= 2 ^ 27 * u - 8 * u ->
  0 <= scaled 175 a <= scaled 175 hi ->
  0 <= scaled 175 t <= scaled 175 hi ->
  finite (settle hi t n a)
  /\ 0 <= scaled 175 (settle hi t n a) <= scaled 175 hi
  /\ 100 ^ Z.of_nat n * (Z.abs (scaled 175 (settle hi t n a) - scaled 175 t) - 40 * u)
     <= 85 ^ Z.of_nat n * (Z.abs (scaled 175 a - scaled 175 t) - 40 * u).
Proof.
  intros Hk Hhi Ha Ht u HH HA HT.
  induction n as [|n IH].
  - change (settle hi t 0 a) with a. split; [assumption|]. split; [assumption|].
    change (Z.of_nat 0) with 0. rewrite !Z.pow_0_r. lia.
  - destruct IH as (Hf & Hr & Hd).
    change (settle hi t (S n) a) with (smooth hi (settle hi t n a) t).
    destruct (smooth_scaled k hi (settle hi t n a) t Hk Hhi Hf Ht HH Hr HT) as (Hf' & Hr' & Hd').
    fold u in Hd'. split; [assumption|]. split; [assumption|].
    rewrite Nat2Z.inj_succ, !Z.pow_succ_r by lia.
    set (x' := Z.abs (scaled 175 (smooth hi (settle hi t n a) t) - scaled 175 t) - 40 * u) in *.
    set (x := Z.abs (scaled 175 (settle hi t n a) - scaled 175 t) - 40 * u) in *.
    set (x0 := Z.abs (scaled 175 a - scaled 175 t) - 40 * u) in *.
    assert (H100 : 0 < 100 ^ Z.of_nat n) by (apply Z.pow_pos_nonneg; lia).
    assert (H1 : 100 ^ Z.of_nat n * (100 * x') <= 100 ^ Z.of_nat n * (85 * x))
      by (apply Z.mul_le_mono_nonneg_l; lia).
    assert (H2 : 85 * (100 ^ Z.of_nat n * x) <= 85 * (85 ^ Z.of_nat n * x0))
      by (apply Z.mul_le_mono_nonneg_l; lia).
    lia.
Qed.

Lemma value_scaled (x : F32.float) :
  finite x -> (value x * inject_Z (2 ^ 175) == inject_Z (scaled 175 x))%Q.
Proof.
  intros Hx. destruct x as [s|s| |s m e];
    try (cbn [value scaled]; rewrite Qmult_0_l; reflexivity).
  pose proof (finite_exponent _ _ _ Hx) as He. cbn [value scaled].
  rewrite (Zpower_Qpower 2 175) by lia.
  rewrite <- Qmult_assoc, <- Qpower_plus by (intros H; discriminate H).
  rewrite <- (Zpower_Qpower 2 (e + 175)) by lia.
  rewrite <- inject_Z_mult. destruct s; cbn [cond_Zopp]; [|reflexivity].
  apply inject_Z_injective. lia.
Qed.

Lemma value_distance (x y : F32.float) :
  finite x -> finite y ->
  (Qabs (value x - value y) * inject_Z (2 ^ 175)
   == inject_Z (Z.abs (scaled 175 x - scaled 175 y)))%Q.
Proof.
  intros Hx Hy.
  assert (HD : (0 < inject_Z (2 ^ 175))%Q) by reflexivity.
  rewrite <- (Qabs_pos (inject_Z (2 ^ 175))) at 1 by (apply Qlt_le_weak, HD).
  rewrite <- Qabs_Qmult.
  assert (H : ((value x - value y) * inject_Z (2 ^ 175)
               == inject_Z (scaled 175 x - scaled 175 y))%Q).
  { unfold Zminus. rewrite inject_Z_plus, inject_Z_opp, <- (value_scaled x Hx), <- (value_scaled y Hy).
    ring. }
  rewrite H. reflexivity.
Qed.

Lemma power_ratio (n : nat) :
  ((85 # 100) ^ Z.of_nat n * inject_Z (100 ^ Z.of_nat n) == inject_Z (85 ^ Z.of_nat n))%Q.
Proof.
  rewrite !Zpower_Qpower by lia. rewrite <- Qmult_power.
  assert (H : ((85 # 100) * inject_Z 100 == inject_Z 85)%Q) by reflexivity.
  rewrite H. reflexivity.
Qed.

(** From the integer recurrence to values. *)
Lemma distance_bound (n : nat) (c a t : F32.float) (u : Z) :
  finite c -> finite a -> finite t -> 0 <= u ->
  100 ^ Z.of_nat n * (Z.abs (scaled 175 c - scaled 175 t) - 40 * u)
  <= 85 ^ Z.of_nat n * (Z.abs (scaled 175 a - scaled 175 t) - 40 * u) ->
  (Qabs (value c - value t)
   <= Qabs (value a - value t) * (85 # 100) ^ Z.of_nat n
      + inject_Z (40 * u) / inject_Z (2 ^ 175))%Q.
Proof.
  intros Hc Ha Ht Hu H.
  pose proof (value_distance c t Hc Ht) as Hxc. pose proof (value_distance a t Ha Ht) as Hxa.
  set (xn := Qabs (value c - value t)) in *. set (x0 := Qabs (value a - value t)) in *.
  set (Xn := Z.abs (scaled 175 c - scaled 175 t)) in *.
  set (X0 := Z.abs (scaled 175 a - scaled 175 t)) in *.
  pose proof (power_ratio n) as HR. set (R := ((85 # 100) ^ Z.of_nat n)%Q) in *.
  assert (HR0 : (0 <= R)%Q) by (apply Qpower_0_le; discriminate).
  assert (Ha100 : (0 < inject_Z (100 ^ Z.of_nat n))%Q).
  { rewrite <- (Zlt_Qlt 0). apply Z.pow_pos_nonneg; lia. }
  set (P := inject_Z (100 ^ Z.of_nat n)) in *.
  rewrite Zle_Qle in H. rewrite !inject_Z_mult in H. fold P in H.
  unfold Zminus in H. rewrite !inject_Z_plus, !inject_Z_opp in H.
  rewrite <- HR, <- Hxc, <- Hxa in H.
  rewrite inject_Z_mult.
  assert (Hu' : (0 <= inject_Z 40 * inject_Z u)%Q).
  { rewrite <- inject_Z_mult, <- (Zle_Qle 0). lia. }
  set (U := (inject_Z 40 * inject_Z u)%Q) in *.
  assert (HDpos : (0 < inject_Z (2 ^ 175))%Q) by reflexivity.
  set (D := inject_Z (2 ^ 175)) in *.
  assert (H1 : (xn * D + - U <= R * (x0 * D + - U))%Q).
  { apply Qmult_le_l with (z := P); [exact Ha100|].
    setoid_replace (P * (R * (x0 * D + - U)))%Q with (R * P * (x0 * D + - U))%Q by ring.
    exact H. }
  assert (H2 : (xn * D <= (x0 * R) * D + U)%Q).
  { assert (0 <= R * U)%Q by (apply Qmult_le_0_compat; assumption). lra. }
  apply Qle_shift_div_l in H2; [|exact HDpos].
  setoid_replace ((x0 * R * D + U) / D)%Q with (x0 * R + U / D)%Q in H2; [exact H2|].
  field. intros E. rewrite E in HDpos. discriminate HDpos.
Qed.

(** * Validity and classification of results *)

Lemma binary_round_valid (s : bool) (m : positive) (e : Z) :
  F32.valid (binary_round 24 128 s m e) = true.
Proof.
  unfold binary_round. rewrite fexp_fexp32.
  set (E0 := fexp32 (Z.pos (digits2_pos m) + e)).
  destruct (shl_align_spec m e E0) as [Hez Hmz].
  destruct (shl_align m e E0) as [mz ez]. cbn [fst snd] in Hez, Hmz.
  assert (HE0 : -149 <= E0) by (unfold E0, fexp32; lia).
  assert (Hdig : Zdigits2 (Z.pos mz) + ez = Z.pos (digits2_pos m) + e).
  { rewrite Hmz, Zdigits2_shift by lia. cbn [Zdigits2]. lia. }
  assert (Hal : ez <= fexp32 (Zdigits2 (Z.pos mz) + ez)) by (rewrite Hdig; fold E0; lia).
  destruct (binary_round_aux_spec s (Z.pos mz) ez loc_Exact (Z.pos mz) 1) as [_ Heq];
    try lia.
  { now rewrite Z.div_1_r. }
  { now rewrite Z.mod_1_r. }
  cbv zeta in Heq. rewrite Heq.
  apply (round_result_valid s (Z.pos mz) ez (Z.pos mz) 1); try lia.
  now rewrite Z.div_1_r.
Qed.

Lemma binary_normalize_valid (M e : Z) (sz : bool) :
  F32.valid (binary_normalize 24 128 M e sz) = true.
Proof.
  destruct M as [|p|p]; cbn [binary_normalize]; [reflexivity| |]; apply binary_round_valid.
Qed.

Lemma add_valid (x y : F32.float) :
  F32.valid x = true -> F32.valid y = true -> F32.valid (F32.add x y) = true.
Proof.
  intros Hx Hy.
  destruct x as [sx|sx| |sx mx ex], y as [sy|sy| |sy my ey]; try reflexivity;
    try assumption.
  - destruct sx, sy; reflexivity.
  - destruct sx, sy; reflexivity.
  - apply binary_normalize_valid.
Qed.

Lemma mul_valid (x y : F32.float) :
  F32.valid x = true -> F32.valid y = true -> F32.valid (F32.mul x y) = true.
Proof.
  intros Hx Hy.
  destruct x as [sx|sx| |sx mx ex], y as [sy|sy| |sy my ey]; try reflexivity.
  pose proof (mul_aligned sx sy mx my ex ey (conj Hx eq_refl) (conj Hy eq_refl)) as Hal.
  change (F32.mul (S754_finite sx mx ex) (S754_finite sy my ey))
    with (binary_round_aux 24 128 (xorb sx sy) (Z.pos (mx * my)) (ex + ey) loc_Exact).
  destruct (binary_round_aux_spec (xorb sx sy) (Z.pos (mx * my)) (ex + ey) loc_Exact
              (Z.pos (mx * my)) 1) as [_ Heq]; try lia.
  { now rewrite Z.div_1_r. }
  { now rewrite Z.mod_1_r. }
  cbv zeta in Heq. rewrite Heq.
  apply (round_result_valid _ (Z.pos (mx * my)) (ex + ey) (Z.pos (mx * my)) 1); try lia.
  now rewrite Z.div_1_r.
Qed.

(** A number between zero and a finite bound is finite. *)
Lemma within_is_finite (hi x : F32.float) :
  F32.is_finite hi = true -> F32.within F32.zero hi x = true -> F32.is_finite x = true.
Proof.
  intros Hhi H. unfold F32.within in H. apply andb_true_iff in H as [H0 H1].
  destruct x as [s|[|]| |s m e]; try reflexivity; try discriminate.
  destruct hi as [sh|sh| |sh mh eh]; try discriminate.
Qed.

(** The clamp of a number that is not NaN is in range. *)
Lemma clamp_in_range (hi x : F32.float) :
  F32.leb F32.zero hi = true -> F32.isnan x = false ->
  F32.within F32.zero hi (clamp hi x) = true.
Proof.
  intros Hhi Hx. destruct (leb_not_nan _ _ Hhi) as [_ Hhn].
  unfold clamp, F32.within. destruct (F32.ltb x F32.zero) eqn:E0.
  - destruct (F32.ltb hi F32.zero) eqn:E1.
    + apply ltb_not_leb in E1. congruence.
    + now rewrite Hhi.
  - assert (H0 : F32.leb F32.zero x = true) by (apply leb_total; auto).
    destruct (F32.ltb hi x) eqn:E1.
    + rewrite Hhi. now rewrite leb_refl.
    + rewrite H0. apply leb_total; auto.
Qed.

Lemma clamp_nan_or_in_range (hi x : F32.float) :
  F32.leb F32.zero hi = true ->
  F32.isnan (clamp hi x) = false -> F32.within F32.zero hi (clamp hi x) = true.
Proof.
  intros Hhi Hn. destruct (F32.isnan x) eqn:Hx.
  - destruct x; try discriminate. destruct hi as [s|s| |s m e]; discriminate Hn.
  - now apply clamp_in_range.
Qed.

(** * Conversions and quotients of integers *)

Lemma nonneg_of_sign (x : F32.float) :
  F32.isnan x = false -> signbit x = false -> F32.leb F32.zero x = true.
Proof. destruct x as [s|s| |s m e]; try discriminate; cbn; intros _ ->; reflexivity. Qed.

(** [(float)z] of a positive [long] is a positive finite number. *)
Lemma of_Z_positive (z : Z) :
  0 < z < 2 ^ 31 -> exists m e, F32.of_Z z = S754_finite false m e.
Proof.
  intros Hz. destruct (Zdigits2_bounds z ltac:(lia)) as (Hd & Hlo & Hhi).
  set (k := Zdigits2 z) in *.
  assert (Hk : k <= 31) by (apply Zdigits2_le; lia).
  destruct (binary_normalize_scaled z 0 175 k) as (Hv & Hf & Herr & _ & Hs & _); try lia.
  { rewrite Z.abs_eq by lia. change (0 + 175) with 175.
    rewrite pow2_split by lia. apply Z.mul_lt_mono_pos_r; [apply pow2_pos|]; lia. }
  change (binary_normalize 24 128 z 0 false) with (F32.of_Z z) in *.
  specialize (Hs ltac:(lia)).
  assert (Hpos : 0 < scaled 175 (F32.of_Z z)).
  { change (0 + 175) with 175 in Herr.
    assert (H1 : 2 ^ (fexp32 k + 175 - 1) < 2 ^ (k - 1) * 2 ^ 175).
    { rewrite <- pow2_split by lia. apply Z.pow_lt_mono_r; unfold fexp32; lia. }
    assert (H2 : 2 ^ (k - 1) * 2 ^ 175 <= z * 2 ^ 175)
      by (apply Z.mul_le_mono_nonneg_r; [apply Z.lt_le_incl, pow2_pos|]; lia).
    lia. }
  destruct (F32.of_Z z) as [s|s| |s m e]; try discriminate; cbn in Hpos; try lia.
  cbn in Hs. subst s. eauto.
Qed.

Lemma of_Z_nonneg (z : Z) :
  0 <= z < 2 ^ 31 ->
  F32.of_Z z = S754_zero false \/ exists m e, F32.of_Z z = S754_finite false m e.
Proof.
  intros Hz. destruct (Z.eq_dec z 0) as [->|Hne]; [left; reflexivity|].
  right. apply of_Z_positive. lia.
Qed.

(** The ratio of a non-negative [long] to a positive one is a number at
    or above zero. *)
Lemma ratio_nonneg (used total : Z) :
  0 <= used < 2 ^ 31 -> 0 < total < 2 ^ 31 ->
  F32.leb F32.zero (F32.div (F32.of_Z used) (F32.of_Z total)) = true.
Proof.
  intros Hu Ht. destruct (of_Z_positive total Ht) as (mt & et & ->).
  destruct (of_Z_nonneg used Hu) as [->|(mu & eu & ->)]; [reflexivity|].
  destruct (div_finite_sign false false mu mt eu et) as [Hn Hs].
  now apply nonneg_of_sign.
Qed.
(** * Properties *)

(** ** Parse failures *)

(** C8: a line that fails to parse makes [updateFromJsonLine] return
    [false]; the snapshot, the whole UI state (targets, network scale, ticker
    text included), the application name and every static are as before, the
    time of the last decode is not refreshed by [loop], and the only effect
    is the message printed on [Serial]. *)
Theorem parse_failure_changes_nothing :
  forall (f_str : string) (w : World) (t : Z),
    let r := updateFromJsonLine (DeserializationError f_str) w in
    fst r = false
    /\ data (snd r) = data w
    /\ ui (snd r) = ui w
    /\ appName (snd r) = appName w
    /\ (lastDataMs (snd r), lastAnim (snd r), nextWink (snd r), nextSweat (snd r),
        lastPaint (snd r))
       = (lastDataMs w, lastAnim w, nextWink w, nextSweat w, lastPaint w)
    /\ serialOut (snd r) = serialOut w ++ [("Erreur JSON: " ++ f_str)%string]
    /\ receiveLine w (DeserializationError f_str, t) = snd r.
Proof.
  intros f_str w t. cbn. repeat split; reflexivity.
Qed.

(** ** The sleep fields after a tick *)

Lemma animate_lowLoadSince (f : Frame) (w : World) :
  lowLoadSince (ui (animate f w))
  = if lowLoad (loadAfter f w)
    then (if lowLoadSince (ui w) =? 0 then ms_now f else lowLoadSince (ui w))
    else 0.
Proof. reflexivity. Qed.

Lemma animate_sleepStep (f : Frame) (w : World) :
  sleepStep (ui (animate f w)) = if lowLoad (loadAfter f w) then sleepStep (ui w) else 0.
Proof. reflexivity. Qed.

Lemma animate_tamaSleeping (f : Frame) (w : World) :
  tamaSleeping (ui (animate f w))
  = if lowLoad (loadAfter f w)
    then (if negb (tamaSleeping (ui w))
             && (9000 <? u32 (ms_now f - lowLoadSince (ui (animate f w))))
          then true else tamaSleeping (ui w))
    else (if stale (ms_wake f) (lastDataMs w) then tamaSleeping (ui w) else false).
Proof. reflexivity. Qed.

Lemma render_sleep_fields (f : Frame) (w : World) :
  tamaSleeping (ui (render f w)) = tamaSleeping (ui w)
  /\ lowLoadSince (ui (render f w)) = lowLoadSince (ui w).
Proof.
  unfold render, drawInfoLines. destruct (sleepBubble f (drawGauges (ui w))).
  split; reflexivity.
Qed.

(** The render of the same pass may already advance the phase again: it
    does so when the character is still asleep and the bubble is due. *)
Lemma render_sleepStep (f : Frame) (w : World) :
  sleepStep (ui (render f w))
  = if tamaSleeping (ui w) && (600 <? u32 (ms_zz f - sleepMs (ui w)))
    then Z.rem (sleepStep (ui w) + 1) 3
    else sleepStep (ui w).
Proof.
  unfold render, drawInfoLines, sleepBubble. cbn.
  destruct (tamaSleeping (ui w) && (600 <? u32 (ms_zz f - sleepMs (ui w))));
    reflexivity.
Qed.

(** C10: a tick whose smoothed load is not below 0.22 sets [lowLoadSince]
    and [sleepStep] to 0 (lines 487 and 490), whether or not the character
    wakes; with a last decode older than 4000 ms a sleeping character is
    still asleep after these resets. *)
Theorem high_load_resets_timestamp_and_phase :
  forall (f : Frame) (w : World),
    lowLoad (loadAfter f w) = false ->
    lowLoadSince (ui (animate f w)) = 0
    /\ sleepStep (ui (animate f w)) = 0
    /\ (tamaSleeping (ui w) = true ->
        stale (ms_wake f) (lastDataMs w) = true ->
        tamaSleeping (ui (animate f w)) = true).
Proof.
  intros f w Hhigh.
  rewrite animate_lowLoadSince, animate_sleepStep, animate_tamaSleeping, Hhigh.
  repeat split. intros Hs Hstale. now rewrite Hstale.
Qed.

(** At 100 % CPU, asleep in phase 2, last decode 9000 ms ago. *)
Lemma high_load_resets_timestamp_and_phase_witness :
  let w := settledAt F32.hundred true 0 2 1000 in
  let f := frameAt 10000 in
  sleepStep (ui w) = 2
  /\ lowLoadSince (ui (animate f w)) = 0
  /\ sleepStep (ui (animate f w)) = 0
  /\ tamaSleeping (ui (animate f w)) = true.
Proof.
  intros w f.
  destruct (high_load_resets_timestamp_and_phase f w) as (H1 & H2 & H3).
  - vm_compute. reflexivity.
  - split; [reflexivity|]. split; [exact H1|]. split; [exact H2|].
    apply H3; vm_compute; reflexivity.
Defined.

(** ** The sleep state machine *)

Lemma loop_ticks (f : Frame) (w : World) :
  ticks f w = true -> loop f w = render f (animate f (beforeTick f w)).
Proof.
  unfold ticks, loop, beforeTick. intros H.
  apply andb_true_iff in H as [H1 H2].
  apply negb_true_iff in H1. now rewrite H1, H2.
Qed.

Lemma loop_no_tick (f : Frame) (w : World) :
  ticks f w = false ->
  loop f w = if lastDataMs (drainSerial f w) =? 0
             then paintWaiting f (drainSerial f w)
             else connectionCheck f (drainSerial f w).
Proof.
  unfold ticks, loop. intros H.
  destruct (lastDataMs (drainSerial f w) =? 0); [reflexivity|].
  cbn in H. now rewrite H.
Qed.

Lemma receiveLine_sleep_fields (w : World) (l : Deserialized * Z) :
  tamaSleeping (ui (receiveLine w l)) = tamaSleeping (ui w)
  /\ lowLoadSince (ui (receiveLine w l)) = lowLoadSince (ui w).
Proof. destruct l as [[e|doc] t]; split; reflexivity. Qed.

Lemma drainSerial_sleep_fields (f : Frame) (w : World) :
  tamaSleeping (ui (drainSerial f w)) = tamaSleeping (ui w)
  /\ lowLoadSince (ui (drainSerial f w)) = lowLoadSince (ui w).
Proof.
  unfold drainSerial. generalize (received f) as ls. intros ls. revert w.
  induction ls as [|l ls IH]; intros w; [split; reflexivity|].
  cbn [fold_left]. destruct (IH (receiveLine w l)) as [-> ->].
  apply receiveLine_sleep_fields.
Qed.

Lemma connectionCheck_lowLoadSince (f : Frame) (w : World) :
  lowLoadSince (ui (connectionCheck f w)) = lowLoadSince (ui w).
Proof. unfold connectionCheck. now destruct (stale _ _). Qed.

Lemma connectionCheck_stale (f : Frame) (w : World) :
  stale (ms_conn f) (lastDataMs w) = true ->
  tamaSleeping (ui (connectionCheck f w)) = true.
Proof. unfold connectionCheck. now intros ->. Qed.

Lemma connectionCheck_lastDataMs (f : Frame) (w : World) :
  lastDataMs (connectionCheck f w) = lastDataMs w.
Proof. unfold connectionCheck. now destruct (stale _ _). Qed.

Lemma paintWaiting_ui (f : Frame) (w : World) : ui (paintWaiting f w) = ui w.
Proof. unfold paintWaiting. now destruct (_ <? _). Qed.

Lemma beforeTick_lowLoadSince (f : Frame) (w : World) :
  lowLoadSince (ui (beforeTick f w)) = lowLoadSince (ui w).
Proof.
  unfold beforeTick. cbn [stampAnim set_statics ui].
  rewrite connectionCheck_lowLoadSince. apply drainSerial_sleep_fields.
Qed.

Lemma loop_keeps_lowLoadSince (f : Frame) (w : World) :
  lowLoadSince (ui w) <> 0 ->
  (ticks f w = true -> lowLoad (loadAfter f (beforeTick f w)) = true) ->
  lowLoadSince (ui (loop f w)) = lowLoadSince (ui w).
Proof.
  intros Hset Hlow. destruct (ticks f w) eqn:Ht.
  - rewrite (loop_ticks _ _ Ht).
    destruct (render_sleep_fields f (animate f (beforeTick f w))) as [_ ->].
    rewrite animate_lowLoadSince, (Hlow eq_refl), beforeTick_lowLoadSince.
    destruct (Z.eqb_spec (lowLoadSince (ui w)) 0); [contradiction|reflexivity].
  - rewrite (loop_no_tick _ _ Ht).
    destruct (lastDataMs (drainSerial f w) =? 0).
    + rewrite paintWaiting_ui. apply drainSerial_sleep_fields.
    + rewrite connectionCheck_lowLoadSince. apply drainSerial_sleep_fields.
Qed.

Lemma run_keeps_lowLoadSince (fs : list Frame) (w : World) :
  lowLoadSince (ui w) <> 0 ->
  lowLoadThroughout fs w ->
  lowLoadSince (ui (run fs w)) = lowLoadSince (ui w).
Proof.
  revert w. induction fs as [|f fs IH]; intros w Hset Hlow; [reflexivity|].
  destruct Hlow as [Hf Hrest]. unfold run in *. cbn [fold_left].
  pose proof (loop_keeps_lowLoadSince f w Hset Hf) as Hk.
  rewrite IH; [exact Hk | now rewrite Hk | exact Hrest].
Qed.

Lemma loop_tamaSleeping_stale (f : Frame) (w : World) :
  lastDataMs (drainSerial f w) <> 0 ->
  stale (ms_conn f) (lastDataMs (drainSerial f w)) = true ->
  stale (ms_wake f) (lastDataMs (drainSerial f w)) = true ->
  tamaSleeping (ui (loop f w)) = true.
Proof.
  intros Hdata Hconn Hwake.
  pose proof (connectionCheck_stale f _ Hconn) as Hs.
  destruct (ticks f w) eqn:Ht.
  - rewrite (loop_ticks _ _ Ht).
    destruct (render_sleep_fields f (animate f (beforeTick f w))) as [-> _].
    rewrite animate_tamaSleeping.
    assert (Hs' : tamaSleeping (ui (beforeTick f w)) = true) by exact Hs.
    assert (Hl : lastDataMs (beforeTick f w) = lastDataMs (drainSerial f w))
      by apply connectionCheck_lastDataMs.
    rewrite Hs', Hl, Hwake. cbn. now destruct (lowLoad _).
  - rewrite (loop_no_tick _ _ Ht).
    destruct (Z.eqb_spec (lastDataMs (drainSerial f w)) 0); [contradiction|exact Hs].
Qed.

(** C1, with the 9000 ms bound as the code has it (strictly more than
    9000 ms since the first tick that saw the low load):
    (a) a tick that finds the smoothed load below 0.22 starts the
    low-load timestamp if it is unset and keeps it otherwise, a tick that
    finds the load at 0.22 or more unsets it, and once the timestamp has
    been kept through a stretch of passes and is more than 9000 ms old the
    pass that ticks leaves the character asleep;
    (b) once a line has been decoded, a pass that finds the last decode more
    than 4000 ms old ends with the character asleep, whatever the load;
    (c) a tick of a sleeping character with load at 0.22 or more wakes it
    exactly when the last decode is at most 4000 ms old. *)
Theorem sleep_state_machine :
  (forall f w,
      lowLoad (loadAfter f w) = true ->
      lowLoadSince (ui (animate f w))
      = if lowLoadSince (ui w) =? 0 then ms_now f else lowLoadSince (ui w))
  /\ (forall f w,
         lowLoad (loadAfter f w) = false -> lowLoadSince (ui (animate f w)) = 0)
  /\ (forall fs f w,
         lowLoadSince (ui w) <> 0 ->
         lowLoadThroughout fs w ->
         ticks f (run fs w) = true ->
         lowLoad (loadAfter f (beforeTick f (run fs w))) = true ->
         9000 < u32 (ms_now f - lowLoadSince (ui w)) ->
         tamaSleeping (ui (loop f (run fs w))) = true)
  /\ (forall f w,
         lastDataMs (drainSerial f w) <> 0 ->
         stale (ms_conn f) (lastDataMs (drainSerial f w)) = true ->
         stale (ms_wake f) (lastDataMs (drainSerial f w)) = true ->
         tamaSleeping (ui (loop f w)) = true)
  /\ (forall f w,
         tamaSleeping (ui w) = true ->
         lowLoad (loadAfter f w) = false ->
         tamaSleeping (ui (animate f w)) = stale (ms_wake f) (lastDataMs w)).
Proof.
  split; [|split; [|split; [|split]]].
  - intros f w Hlow. now rewrite animate_lowLoadSince, Hlow.
  - intros f w Hhigh. now rewrite animate_lowLoadSince, Hhigh.
  - intros fs f w Hset Hthrough Ht Hlow Hold.
    rewrite (loop_ticks _ _ Ht).
    destruct (render_sleep_fields f (animate f (beforeTick f (run fs w)))) as [-> _].
    rewrite animate_tamaSleeping, animate_lowLoadSince, Hlow.
    rewrite beforeTick_lowLoadSince, (run_keeps_lowLoadSince fs w Hset Hthrough).
    destruct (Z.eqb_spec (lowLoadSince (ui w)) 0); [contradiction|].
    apply Z.ltb_lt in Hold. rewrite Hold.
    now destruct (tamaSleeping (ui (beforeTick f (run fs w)))).
  - exact loop_tamaSleeping_stale.
  - intros f w Hs Hhigh. rewrite animate_tamaSleeping, Hhigh, Hs.
    now destruct (stale _ _).
Qed.

(** A pass that decodes the line [{}] at time [t] and ticks at [t]. *)
Lemma sleep_state_machine_witness :
  let fresh t := frameWith [(DeserializationOk emptyDoc, t)] t in
  let idle := settledAt F32.zero false 1000 0 1000 in
  lowLoadSince (ui (animate (frameAt 1060) (settledAt F32.zero false 0 0 1000))) = 1060
  /\ lowLoadSince (ui (animate (frameAt 1060) (settledAt F32.hundred false 500 0 1000))) = 0
  /\ tamaSleeping (ui (loop (fresh 10001) (run [fresh 4000; fresh 7000] idle))) = true
  /\ tamaSleeping (ui (loop (frameAt 5001) (settledAt F32.hundred false 0 0 1000))) = true
  /\ tamaSleeping (ui (animate (frameAt 5000) (settledAt F32.hundred true 0 0 1000))) = false.
Proof.
  intros fresh idle.
  destruct sleep_state_machine as (Hstart & Hreset & Hsleep & Hstale & Hwake).
  split; [|split; [|split; [|split]]].
  - rewrite Hstart; reflexivity.
  - apply Hreset. reflexivity.
  - apply Hsleep.
    + discriminate.
    + cbn [lowLoadThroughout]. repeat split; intros _; vm_compute; reflexivity.
    + vm_compute; reflexivity.
    + vm_compute; reflexivity.
    + vm_compute; reflexivity.
  - apply Hstale.
    + vm_compute. discriminate.
    + vm_compute; reflexivity.
    + vm_compute; reflexivity.
  - rewrite Hwake; reflexivity.
Defined.

(** The load has been below 0.22 since the tick at 1000 ms, the data is
    fresh, and the tick at 10000 ms, 9000 ms later, leaves the character
    awake: line 485 asks for strictly more than 9000 ms. *)
Lemma awake_after_exactly_9000_ms :
  let w := settledAt F32.zero false 1000 0 1000 in
  let f := frameWith [(DeserializationOk emptyDoc, 10000)] 10000 in
  tamaSleeping (ui w) = false
  /\ lowLoadSince (ui w) = 1000
  /\ ticks f w = true
  /\ lowLoad (loadAfter f (beforeTick f w)) = true
  /\ u32 (ms_now f - lowLoadSince (ui w)) = 9000
  /\ tamaSleeping (ui (loop f w)) = false.
Proof. vm_compute. repeat split; reflexivity. Qed.

(** ** The face *)

(** The drawing does not read the animated values. *)
Lemma drawInfoLines_cur (f : Frame) (d : DataState) (u : UIState) (c r n : F32.float) :
  fst (drawInfoLines f d (set_cur u c r n)) = fst (drawInfoLines f d u).
Proof.
  unfold drawInfoLines.
  change (sleepBubble f (set_cur u c r n)) with (sleepBubble f u).
  destruct (sleepBubble f u). reflexivity.
Qed.

(** The drawing, awake: the eyes, the brows and the mouth that the two
    if-chains select, the sweat drop. *)
Lemma drawInfoLines_awake (f : Frame) (d : DataState) (u : UIState) :
  tamaSleeping u = false ->
  fst (drawInfoLines f d u)
  = (let cy := 33 + headBob u in
     let hl := if tamaBlink u || tamaWink u then 1 else 4 in
     let hr := if tamaBlink u then 1 else 4 in
     openEyes cy hl hr ++ browsShapes (browsOf false (moodLoad d)) cy hl hr
     ++ mouthShapes (mouthOf false (moodLoad d)) cy
     ++ (if tamaSweat u then sweatDrop cy else [])).
Proof.
  intros Hs. unfold drawInfoLines. destruct (sleepBubble f u) as [zzMs zzStep].
  cbv zeta. cbn [fst]. rewrite Hs.
  generalize (headBob u). intros b.
  destruct (browsOf false (moodLoad d)), (mouthOf false (moodLoad d)),
    (tamaBlink u), (tamaWink u), (tamaSweat u); reflexivity.
Qed.

(** The drawing, asleep. *)
Lemma drawInfoLines_asleep (f : Frame) (d : DataState) (u : UIState) :
  tamaSleeping u = true ->
  fst (drawInfoLines f d u) = faceAsleep (snd (sleepBubble f u)) u.
Proof.
  intros Hs. unfold drawInfoLines, faceAsleep. destruct (sleepBubble f u) as [zzMs zzStep].
  cbv zeta. cbn [fst snd]. unfold browsOf. rewrite Hs.
  generalize (headBob u). intros b.
  destruct (tamaBlink u), (tamaWink u), (tamaSweat u), (zzStep =? 1), (zzStep =? 2);
    reflexivity.
Qed.

(** C6, with the load the code uses.  The load of the face is
    [0.5 * (cpu/100 + ram_used/ram)] computed from the latest decoded
    snapshot, an unknown contributor counting as 0.  Awake, the drawing is
    the happy face (open eyes, raised brows, smile) when [load < 0.42], the
    neutral face (open eyes, no brows, flat mouth) when
    [0.42 <= load < 0.68] and the sad face (open eyes, slanted brows, sad
    mouth) when [load > 0.68]; asleep it is closed eyes, a flat mouth, no
    brows and the sleep bubble, whatever the load.  The animated values
    are never read: replacing them leaves the drawing as it is. *)
Theorem face_follows_snapshot_load :
  forall (f : Frame) (d : DataState) (u : UIState),
    let load := moodLoad d in
    load = F32.mul
             (let cpuPart := if cpuKnown d
                             then F32.add F32.zero (F32.div (cpu d) F32.hundred)
                             else F32.zero in
              if ramKnown d
              then F32.add cpuPart (F32.div (F32.of_Z (ram_used d)) (F32.of_Z (ram d)))
              else cpuPart)
             F32.c0_5
    /\ (tamaSleeping u = false ->
        (F32.ltb load F32.c0_42 = true -> fst (drawInfoLines f d u) = faceOf Happy u)
        /\ (F32.leb F32.c0_42 load = true -> F32.ltb load F32.c0_68 = true ->
            fst (drawInfoLines f d u) = faceOf Neutral u)
        /\ (F32.ltb F32.c0_68 load = true -> fst (drawInfoLines f d u) = faceOf Sad u))
    /\ (tamaSleeping u = true ->
        fst (drawInfoLines f d u) = faceAsleep (snd (sleepBubble f u)) u)
    /\ (forall (c r n : F32.float),
           fst (drawInfoLines f d (set_cur u c r n)) = fst (drawInfoLines f d u)).
Proof.
  intros f d u load. split; [reflexivity|]. split; [|split].
  - intros Hs. rewrite (drawInfoLines_awake f d u Hs). fold load.
    unfold faceOf, browsOf, mouthOf. split; [|split].
    + intros ->. reflexivity.
    + intros Hlo Hhi.
      assert (H1 : F32.ltb load F32.c0_42 = false).
      { destruct (F32.ltb load F32.c0_42) eqn:E; [|reflexivity].
        apply ltb_not_leb in E. congruence. }
      rewrite H1, Hhi, (ltb_asym _ _ Hhi). reflexivity.
    + intros Hhi.
      assert (H2 : F32.ltb load F32.c0_68 = false) by now apply ltb_asym.
      assert (H1 : F32.ltb load F32.c0_42 = false).
      { destruct (F32.ltb load F32.c0_42) eqn:E; [|reflexivity].
        assert (F32.ltb load F32.c0_68 = true)
          by (eapply ltb_leb_trans; [exact E|reflexivity]).
        congruence. }
      rewrite H1, H2, Hhi. reflexivity.
  - apply drawInfoLines_asleep.
  - intros c r n. apply drawInfoLines_cur.
Qed.

(** Snapshots at 10 % CPU, at 100 % CPU, and at 100 % CPU with half the
    RAM used, drawn awake; the last one drawn asleep. *)
Lemma face_follows_snapshot_load_witness :
  fst (drawInfoLines (frameAt 0) (snapshotOf (F32.of_Z 10) (-1) (-1)) (ui world0))
  = faceOf Happy (ui world0)
  /\ fst (drawInfoLines (frameAt 0) (snapshotOf F32.hundred (-1) (-1)) (ui world0))
     = faceOf Neutral (ui world0)
  /\ fst (drawInfoLines (frameAt 0) (snapshotOf F32.hundred 8000 4000) (ui world0))
     = faceOf Sad (ui world0)
  /\ fst (drawInfoLines (frameAt 0) (snapshotOf F32.hundred 8000 4000)
            (ui (settledAt F32.hundred true 0 2 0)))
     = faceAsleep 2 (ui (settledAt F32.hundred true 0 2 0)).
Proof.
  split; [|split; [|split]].
  - destruct (face_follows_snapshot_load (frameAt 0) (snapshotOf (F32.of_Z 10) (-1) (-1))
                (ui world0)) as (_ & Hawake & _).
    destruct (Hawake eq_refl) as (H & _). apply H. reflexivity.
  - destruct (face_follows_snapshot_load (frameAt 0) (snapshotOf F32.hundred (-1) (-1))
                (ui world0)) as (_ & Hawake & _).
    destruct (Hawake eq_refl) as (_ & H & _). apply H; reflexivity.
  - destruct (face_follows_snapshot_load (frameAt 0) (snapshotOf F32.hundred 8000 4000)
                (ui world0)) as (_ & Hawake & _).
    destruct (Hawake eq_refl) as (_ & _ & H). apply H. reflexivity.
  - destruct (face_follows_snapshot_load (frameAt 0) (snapshotOf F32.hundred 8000 4000)
                (ui (settledAt F32.hundred true 0 2 0))) as (_ & _ & Hasleep & _).
    apply Hasleep. reflexivity.
Defined.

(** After the first pass from power-on, which decodes [{"cpu":100}] and
    ticks once, the animated CPU value is 15 %: the bands of the animated
    load say happy, while the face drawn from that state, chosen from the
    snapshot (load 0.5), is the neutral one, with no brows and a flat
    mouth. *)
Lemma face_ignores_animated_values :
  let w := loop (frameWith [(DeserializationOk (cpuDoc F32.hundred), 1000)] 1000) world0 in
  tamaSleeping (ui w) = false
  /\ moodAsSpecified (ui w) = Happy
  /\ fst (drawInfoLines (frameAt 1060) (data w) (ui w)) = faceOf Neutral (ui w)
  /\ fst (drawInfoLines (frameAt 1060) (data w) (ui w)) <> faceOf (moodAsSpecified (ui w)) (ui w).
Proof. vm_compute. repeat split; discriminate. Qed.

(** At a load of exactly 0.68 the two if-chains disagree: line 311 draws no
    brows (the load is not above 0.68) and line 336 draws the sad mouth (the
    load is not below 0.68). *)
Lemma face_at_the_upper_limit :
  let d := snapshotOf (F32.of_Z 136) (-1) (-1) in
  moodLoad d = F32.c0_68
  /\ browsOf false (moodLoad d) = BrowsNone
  /\ mouthOf false (moodLoad d) = MouthSad
  /\ fst (drawInfoLines (frameAt 0) d (ui world0)) = openEyes 33 4 4 ++ sadMouth 33.
Proof. vm_compute. repeat split; reflexivity. Qed.

(** ** The ticker *)

Lemma append_empty_r (s : string) : (s ++ "")%string = s.
Proof. induction s as [|c s IH]; cbn; [reflexivity|now rewrite IH]. Qed.

Lemma append_assoc (s t v : string) : ((s ++ t) ++ v)%string = (s ++ (t ++ v))%string.
Proof. induction s as [|c s IH]; cbn; [reflexivity|now rewrite IH]. Qed.

Lemma append_length (s t : string) :
  String.length (s ++ t) = (String.length s + String.length t)%nat.
Proof. induction s as [|c s IH]; cbn; [reflexivity|now rewrite IH]. Qed.

Lemma tickerOf_fields (d : DataState) : tickerOf d = tickerFrom (tickerFields d).
Proof.
  unfold tickerOf, tickerFields.
  destruct (negb (F32.isnan (tempC d))), (cpuKnown d), (ramKnown d),
    (0 <=? diskFreeKB d), (0 <=? uptime d);
    cbn; repeat (progress (rewrite ?append_assoc; cbn [append]));
    rewrite ?append_empty_r; reflexivity.
Qed.

Lemma tickerFrom_not_empty (fields : list string) : tickerFrom fields <> ""%string.
Proof.
  intros H. apply (f_equal String.length) in H. revert H.
  unfold tickerFrom. destruct fields; rewrite append_length; cbn; lia.
Qed.

(** C9, with the temperature behind the single space the code gives it:
    after every successful decode the ticker text is the concatenation of
    the available fields of the merged snapshot (temperature behind one
    space; CPU %, free RAM in MB = (ram - ram_used) / 1024, free disk and
    uptime each behind two spaces and its label) followed by three padding
    spaces, or the placeholder [" Smart Monitor"] with the same padding when
    no field is available; it is never empty. *)
Theorem ticker_rebuilt_on_decode :
  forall (doc : JsonDoc) (w : World),
    let w' := snd (updateFromJsonLine (DeserializationOk doc) w) in
    tickerText (ui w') = tickerFrom (tickerFields (data w'))
    /\ tickerText (ui w') <> ""%string
    /\ data w' = mergeDoc doc (data w).
Proof.
  intros doc w. cbn. rewrite tickerOf_fields.
  split; [reflexivity|]. split; [apply tickerFrom_not_empty|reflexivity].
Qed.

Example ticker_of_a_full_status_line :
  let doc := statusDoc (F32.of_Z 55) 8000000 4000000 (F32.of_Z 21) 50000000 100000
                       (F32.of_Z 3) (F32.of_Z 4) in
  tickerText (ui (snd (updateFromJsonLine (DeserializationOk doc) world0)))
  = " 21C  CPU 55%  RAM 3906MB  DISK 47GB  UPT 1d 3h46m   "%string.
Proof. vm_compute. reflexivity. Qed.

Example ticker_of_an_empty_line :
  tickerText (ui (snd (updateFromJsonLine (DeserializationOk emptyDoc) world0)))
  = " Smart Monitor   "%string.
Proof. vm_compute. reflexivity. Qed.

(** With the temperature alone the ticker is [" 21C   "]: the field is
    behind one space, where two spaces for every field give ["  21C   "]. *)
Lemma ticker_temperature_has_one_space :
  let w' := snd (updateFromJsonLine (DeserializationOk (tempDoc (F32.of_Z 21))) world0) in
  tickerText (ui w') = " 21C   "%string
  /\ tickerFrom (tickerFieldsAsSpecified (data w')) = "  21C   "%string
  /\ tickerText (ui w') <> tickerFrom (tickerFieldsAsSpecified (data w')).
Proof. vm_compute. repeat split. discriminate. Qed.

(** ** Sticky fields and the empty document *)

Lemma derived_world0 : derived world0.
Proof. split; [cbn; lia|]. cbn. discriminate. Qed.

Lemma derived_updateFromJsonLine (p : Deserialized) (w : World) :
  derived w -> derived (snd (updateFromJsonLine p w)).
Proof.
  intros [Hx Hd]. destruct p as [e|doc]; [exact (conj Hx Hd)|].
  split.
  - cbn. destruct (Z.ltb_spec SCREEN_WIDTH (tickerX (ui w))); unfold SCREEN_WIDTH in *; lia.
  - intros _. cbn. repeat split.
    + now intros ->.
    + now intros ->.
    + destruct (Z.ltb_spec (textWidth (tickerOf (mergeDoc doc (data w))) 1) 1); lia.
Qed.

Lemma derived_receiveLine (w : World) (l : Deserialized * Z) :
  derived w -> derived (receiveLine w l).
Proof.
  intros H. pose proof (derived_updateFromJsonLine (fst l) w H) as H'.
  unfold receiveLine. destruct (updateFromJsonLine (fst l) w) as [[|] w']; exact H'.
Qed.

Lemma derived_drainSerial (f : Frame) (w : World) :
  derived w -> derived (drainSerial f w).
Proof.
  unfold drainSerial. generalize (received f) as ls. intros ls. revert w.
  induction ls as [|l ls IH]; intros w H; [exact H|].
  cbn [fold_left]. apply IH, derived_receiveLine, H.
Qed.

Lemma derived_animate (f : Frame) (w : World) : derived w -> derived (animate f w).
Proof.
  intros [Hx Hd]. split; [|exact Hd]. cbn.
  destruct (Z.ltb_spec (tickerX (ui w) - 1 + tickerW (ui w)) 0);
    unfold SCREEN_WIDTH in *; lia.
Qed.

Lemma derived_render (f : Frame) (w : World) : derived w -> derived (render f w).
Proof.
  intros H. unfold render, drawInfoLines.
  destruct (sleepBubble f (drawGauges (ui w))). exact H.
Qed.

Lemma derived_loop (f : Frame) (w : World) : derived w -> derived (loop f w).
Proof.
  intros H. apply (derived_drainSerial f) in H. unfold loop.
  destruct (lastDataMs (drainSerial f w) =? 0).
  - unfold paintWaiting. now destruct (_ <? _).
  - assert (Hc : derived (connectionCheck f (drainSerial f w))).
    { unfold connectionCheck. now destruct (stale _ _). }
    destruct (animationDue _ _); [|exact Hc].
    apply derived_render, derived_animate. exact Hc.
Qed.

Lemma derived_run (fs : list Frame) (w : World) : derived w -> derived (run fs w).
Proof.
  revert w. induction fs as [|f fs IH]; intros w H; [exact H|].
  apply IH, derived_loop, H.
Qed.

Lemma mergeDoc_empty (d : DataState) : mergeDoc emptyDoc d = d.
Proof. now destruct d. Qed.

(** C3, with what the empty document does change: a member missing from
    the document leaves its snapshot field (and a missing ["app"] the
    application name) as it was; decoding [{}] leaves the snapshot, the
    application name, the statics and the serial output untouched, and in
    every state reached from power-on after a first decode the only UI
    fields it changes are the network target and the network scale, which
    are recomputed (peak, ratio, decay) from the retained rx and tx when both
    are known; when one of them is unknown [{}] changes nothing. *)
Theorem absent_members_are_sticky :
  forall (doc : JsonDoc) (fs : list Frame) (w0 : World),
    let w' := snd (updateFromJsonLine (DeserializationOk doc) w0) in
    let w := run fs world0 in
    let e := snd (updateFromJsonLine (DeserializationOk emptyDoc) w0) in
    ((j_cpu doc = None -> cpu (data w') = cpu (data w0))
     /\ (j_ram doc = None -> ram (data w') = ram (data w0))
     /\ (j_ram_used doc = None -> ram_used (data w') = ram_used (data w0))
     /\ (j_weather_temp doc = None -> tempC (data w') = tempC (data w0))
     /\ (j_host doc = None -> host (data w') = host (data w0))
     /\ (j_time doc = None -> epoch (data w') = epoch (data w0))
     /\ (j_uptime doc = None -> uptime (data w') = uptime (data w0))
     /\ (j_disk_free doc = None -> diskFreeKB (data w') = diskFreeKB (data w0))
     /\ (j_net_rx doc = None -> net_rx (data w') = net_rx (data w0))
     /\ (j_net_tx doc = None -> net_tx (data w') = net_tx (data w0))
     /\ (j_app doc = None -> appName w' = appName w0))
    /\ (data e = data w0 /\ appName e = appName w0
        /\ set_ui e (ui w0) = w0)
    /\ (hasData (ui w) = true ->
        snd (updateFromJsonLine (DeserializationOk emptyDoc) w)
        = set_ui w (netUpdate (data w) (ui w))).
Proof.
  intros doc fs w0 w' w e. split; [|split].
  - subst w'. cbn. unfold mergeApp.
    repeat split; intros ->; reflexivity.
  - subst e. cbn. rewrite mergeDoc_empty. repeat split. now destruct w0.
  - intros Hhas. destruct (derived_run fs world0 derived_world0) as [Hx Hd].
    fold w in Hx, Hd. destruct (Hd Hhas) as (Hcpu & Hram & Htext & Hw).
    cbn. rewrite mergeDoc_empty. unfold set_ui, set_data_ui, mergeApp. cbn.
    f_equal. unfold updateUi, netUpdate.
    assert (Htc : (if cpuKnown (data w) then cpu (data w) else tgtCpu (ui w))
                  = tgtCpu (ui w)).
    { destruct (cpuKnown (data w)); [symmetry; now apply Hcpu|reflexivity]. }
    assert (Htr : (if ramKnown (data w)
                   then F32.div (F32.of_Z (ram_used (data w))) (F32.of_Z (ram (data w)))
                   else tgtRamRatio (ui w)) = tgtRamRatio (ui w)).
    { destruct (ramKnown (data w)); [symmetry; now apply Hram|reflexivity]. }
    assert (Htx : (if SCREEN_WIDTH <? tickerX (ui w) then SCREEN_WIDTH else tickerX (ui w))
                  = tickerX (ui w)).
    { destruct (Z.ltb_spec SCREEN_WIDTH (tickerX (ui w))); lia. }
    assert (Htw : (if textWidth (tickerOf (data w)) 1 <? 1 then 1
                   else textWidth (tickerOf (data w)) 1) = tickerW (ui w)).
    { rewrite Hw. destruct (Z.ltb_spec (textWidth (tickerOf (data w)) 1) 1); lia. }
    rewrite Htc, Htr, Htx, Htw, <- Htext, <- Hhas.
    destruct (netKnown (data w)); [reflexivity|now destruct (ui w)].
Qed.

Lemma absent_members_are_sticky_witness :
  let fs :=
    [ frameWith [(DeserializationOk (netDoc (F32.of_Z 100) (F32.of_Z 100)), 1000)] 1000;
      frameWith [(DeserializationOk (netDoc (F32.of_Z 50) (F32.of_Z 50)), 2000)] 2000 ] in
  ram (data (snd (updateFromJsonLine (DeserializationOk (cpuDoc (F32.of_Z 55))) world0)))
  = ram (data world0)
  /\ snd (updateFromJsonLine (DeserializationOk emptyDoc) (run fs world0))
     = set_ui (run fs world0) (netUpdate (data (run fs world0)) (ui (run fs world0))).
Proof.
  intros fs.
  destruct (absent_members_are_sticky (cpuDoc (F32.of_Z 55)) fs world0)
    as ((_ & Hram & _) & _ & Hempty).
  split.
  - apply Hram. reflexivity.
  - apply Hempty. vm_compute. reflexivity.
Defined.

(** Decoding [{}] right after power-on sets [hasData] and builds the
    placeholder ticker; decoding it after two network lines moves the
    network target from 100/199.2 to 100/198.4 and lets the scale decay. *)
Lemma empty_document_changes_state :
  snd (updateFromJsonLine (DeserializationOk emptyDoc) world0) <> world0
  /\ (let w := afterTwoNetLines in
      let w' := snd (updateFromJsonLine (DeserializationOk emptyDoc) w) in
      F32.ltb (tgtNetRatio (ui w)) (tgtNetRatio (ui w')) = true
      /\ F32.ltb (netMaxKBs (ui w')) (netMaxKBs (ui w)) = true
      /\ w' <> w).
Proof.
  split.
  - intros H. apply (f_equal (fun w => hasData (ui w))) in H. discriminate H.
  - cbv zeta. split; [vm_compute; reflexivity|]. split; [vm_compute; reflexivity|].
    intros H. apply (f_equal (fun w => netMaxKBs (ui w))) in H.
    vm_compute in H. discriminate H.
Qed.

(** ** Smoothing *)

Lemma tick_gauges (f : Frame) (w : World) :
  curCpu (ui (tick f w)) = smooth F32.hundred (curCpu (ui w)) (tgtCpu (ui w))
  /\ curRamRatio (ui (tick f w)) = smooth F32.one (curRamRatio (ui w)) (tgtRamRatio (ui w))
  /\ curNetRatio (ui (tick f w)) = smooth F32.one (curNetRatio (ui w)) (tgtNetRatio (ui w))
  /\ tgtCpu (ui (tick f w)) = tgtCpu (ui w)
  /\ tgtRamRatio (ui (tick f w)) = tgtRamRatio (ui w)
  /\ tgtNetRatio (ui (tick f w)) = tgtNetRatio (ui w).
Proof.
  unfold tick, render, drawInfoLines.
  destruct (sleepBubble f _). repeat split; reflexivity.
Qed.

Lemma settle_first (hi tgt : F32.float) (n : nat) (cur : F32.float) :
  settle hi tgt (S n) cur = settle hi tgt n (smooth hi cur tgt).
Proof. unfold settle. exact (Nat.iter_succ_r n _ (fun c => smooth hi c tgt) cur). Qed.

Lemma ticksOf_gauges (fs : list Frame) :
  forall w : World,
    curCpu (ui (ticksOf fs w))
    = settle F32.hundred (tgtCpu (ui w)) (List.length fs) (curCpu (ui w))
    /\ curRamRatio (ui (ticksOf fs w))
       = settle F32.one (tgtRamRatio (ui w)) (List.length fs) (curRamRatio (ui w))
    /\ curNetRatio (ui (ticksOf fs w))
       = settle F32.one (tgtNetRatio (ui w)) (List.length fs) (curNetRatio (ui w))
    /\ tgtCpu (ui (ticksOf fs w)) = tgtCpu (ui w)
    /\ tgtRamRatio (ui (ticksOf fs w)) = tgtRamRatio (ui w)
    /\ tgtNetRatio (ui (ticksOf fs w)) = tgtNetRatio (ui w).
Proof.
  induction fs as [|f fs IH]; intros w.
  - repeat split; reflexivity.
  - destruct (tick_gauges f w) as (H1 & H2 & H3 & H4 & H5 & H6).
    destruct (IH (tick f w)) as (I1 & I2 & I3 & I4 & I5 & I6).
    change (ticksOf (f :: fs) w) with (ticksOf fs (tick f w)).
    cbn [List.length]. rewrite !settle_first.
    rewrite I1, I2, I3, I4, I5, I6, H1, H2, H3, H4, H5, H6. repeat split; reflexivity.
Qed.

Lemma clamp_within (hi x : F32.float) :
  F32.within F32.zero hi x = true -> clamp hi x = x.
Proof.
  unfold F32.within, clamp. intros H. apply andb_true_iff in H as [H0 H1].
  assert (E0 : F32.ltb x F32.zero = false).
  { destruct (F32.ltb x F32.zero) eqn:E; [|reflexivity]. apply ltb_not_leb in E. congruence. }
  assert (E1 : F32.ltb hi x = false).
  { destruct (F32.ltb hi x) eqn:E; [|reflexivity]. apply ltb_not_leb in E. congruence. }
  now rewrite E0, E1.
Qed.

Lemma within_scaled (hi x : F32.float) :
  finite hi -> finite x ->
  F32.within F32.zero hi x = true <-> 0 <= scaled 175 x <= scaled 175 hi.
Proof.
  intros Hhi Hx. unfold F32.within. rewrite andb_true_iff. split.
  - intros [H0 H1].
    apply (scaled_leb _ _ 175) in H0; try assumption; try apply finite_zero; try lia.
    apply (scaled_leb _ _ 175) in H1; try assumption; try lia.
    change (scaled 175 F32.zero) with 0 in H0. lia.
  - intros [H0 H1]. split; apply (leb_scaled _ _ 175); try assumption;
      try apply finite_zero; try lia.
Qed.

Lemma gauge_range (hi : F32.float) :
  hi = F32.hundred \/ hi = F32.one ->
  exists k, -100 <= k <= 127 /\ finite hi
            /\ 0 <= scaled 175 hi <= 2 ^ 27 * 2 ^ (k + 148) - 8 * 2 ^ (k + 148)
            /\ (inject_Z (40 * 2 ^ (k + 148)) / inject_Z (2 ^ 175) <= value hi * (1 # 1048576))%Q
            /\ (value hi * (77 # 10000) + value hi * (1 # 1048576) <= value hi * (1 # 100))%Q
            /\ (value hi * inject_Z (2 ^ 175) == inject_Z (scaled 175 hi))%Q.
Proof.
  intros [-> | ->].
  - exists 7. split; [lia|]. split; [split; reflexivity|].
    split; [vm_compute; split; discriminate|].
    split; [vm_compute; discriminate|]. split; [vm_compute; discriminate|].
    vm_compute. reflexivity.
  - exists 1. split; [lia|]. split; [split; reflexivity|].
    split; [vm_compute; split; discriminate|].
    split; [vm_compute; discriminate|]. split; [vm_compute; discriminate|].
    vm_compute. reflexivity.
Qed.

Lemma power_succ (n : nat) :
  ((85 # 100) ^ Z.of_nat (S n) == (85 # 100) ^ Z.of_nat n * (85 # 100))%Q.
Proof.
  rewrite Nat2Z.inj_succ. unfold Z.succ.
  rewrite Qpower_plus by discriminate. reflexivity.
Qed.

Lemma power_decreasing (n m : nat) :
  (n <= m)%nat -> ((85 # 100) ^ Z.of_nat m <= (85 # 100) ^ Z.of_nat n)%Q.
Proof.
  induction 1 as [|m Hle IH]; [apply Qle_refl|].
  rewrite power_succ.
  assert (0 <= (85 # 100) ^ Z.of_nat m)%Q by (apply Qpower_0_le; discriminate).
  lra.
Qed.

(** Inside the range the clamp of lines 436-440 has nothing to do: the step
    itself ends between the current value and the target. *)
Lemma smooth_is_approach (hi cur tgt : F32.float) :
  hi = F32.hundred \/ hi = F32.one ->
  finite cur -> finite tgt ->
  F32.within F32.zero hi cur = true -> F32.within F32.zero hi tgt = true ->
  F32.within F32.zero hi (approach cur tgt) = true
  /\ smooth hi cur tgt = approach cur tgt.
Proof.
  intros Hhi Hc Ht Hwc Hwt.
  destruct (gauge_range hi Hhi) as (k & Hk & Hfh & Hs & _).
  apply (within_scaled hi cur Hfh Hc) in Hwc. apply (within_scaled hi tgt Hfh Ht) in Hwt.
  destruct (approach_scaled k cur tgt Hk Hc Ht) as [Hf _]; try lia.
  pose proof (approach_between k cur tgt Hk Hc Ht ltac:(lia) ltac:(lia)) as Hb.
  assert (Hw : F32.within F32.zero hi (approach cur tgt) = true)
    by (apply within_scaled; try assumption; lia).
  split; [exact Hw|]. apply clamp_within, Hw.
Qed.

Lemma settle_converges (hi cur tgt : F32.float) (n : nat) :
  hi = F32.hundred \/ hi = F32.one ->
  finite cur -> finite tgt ->
  F32.within F32.zero hi cur = true -> F32.within F32.zero hi tgt = true ->
  let c := settle hi tgt n cur in
  finite c
  /\ F32.within F32.zero hi c = true
  /\ (Qabs (value c - value tgt)
      <= Qabs (value cur - value tgt) * (85 # 100) ^ Z.of_nat n + value hi * (1 # 1048576))%Q
  /\ ((30 <= n)%nat -> (Qabs (value c - value tgt) <= value hi * (1 # 100))%Q).
Proof.
  intros Hhi Hc Ht Hwc Hwt c.
  destruct (gauge_range hi Hhi) as (k & Hk & Hfh & Hs & Hdelta & H30 & Hvh).
  apply (within_scaled hi cur Hfh Hc) in Hwc. apply (within_scaled hi tgt Hfh Ht) in Hwt.
  destruct (settle_scaled k hi tgt n cur Hk Hfh Hc Ht Hs Hwc Hwt) as (Hf & Hr & Hd).
  fold c in Hf, Hr, Hd.
  assert (Hw : F32.within F32.zero hi c = true) by (apply within_scaled; assumption).
  split; [exact Hf|]. split; [exact Hw|].
  pose proof (distance_bound n c cur tgt (2 ^ (k + 148)) Hf Hc Ht
                ltac:(apply Z.lt_le_incl, pow2_pos; lia) Hd) as Hq.
  split; [lra|].
  intros Hn.
  assert (HR : ((85 # 100) ^ Z.of_nat n <= 77 # 10000)%Q).
  { apply Qle_trans with ((85 # 100) ^ Z.of_nat 30)%Q; [|vm_compute; discriminate].
    apply power_decreasing, Hn. }
  assert (HR0 : (0 <= (85 # 100) ^ Z.of_nat n)%Q) by (apply Qpower_0_le; discriminate).
  assert (Hx0 : (Qabs (value cur - value tgt) <= value hi)%Q).
  { assert (HD : (0 < inject_Z (2 ^ 175))%Q) by reflexivity.
    apply Qmult_le_r with (z := inject_Z (2 ^ 175)); [exact HD|].
    rewrite (value_distance cur tgt Hc Ht), Hvh, <- Zle_Qle. lia. }
  assert (Hx00 : (0 <= Qabs (value cur - value tgt))%Q) by apply Qabs_nonneg.
  set (x0 := Qabs (value cur - value tgt)) in *. set (R := ((85 # 100) ^ Z.of_nat n)%Q) in *.
  assert (Hprod : (x0 * R <= value hi * (77 # 10000))%Q).
  { apply Qle_trans with (value hi * R)%Q.
    - apply Qmult_le_compat_r; assumption.
    - rewrite !(Qmult_comm (value hi)). apply Qmult_le_compat_r; [assumption|].
      apply Qle_trans with x0; assumption. }
  lra.
Qed.

(** The same step from below: the distance to the target shrinks by no
    more than the factor [1 - 0.15f], up to the three roundings. *)
Lemma approach_scaled_lower (k : Z) (a t : F32.float) :
  -100 <= k <= 127 ->
  finite a -> finite t ->
  let u := 2 ^ (k + 148) in
  0 <= scaled 175 a <= 2 ^ 27 * u - 8 * u ->
  0 <= scaled 175 t <= 2 ^ 27 * u - 8 * u ->
  (2 ^ 26 - 10066330) * Z.abs (scaled 175 a - scaled 175 t)
  <= 2 ^ 26 * Z.abs (scaled 175 (approach a t) - scaled 175 t) + 375809640 * u.
Proof.
  intros Hk Ha Ht u HA HT.
  assert (Hu : 0 < u) by (apply pow2_pos; lia).
  assert (Hk0 : 2 ^ (k + 175) = 2 ^ 27 * u).
  { unfold u. rewrite <- pow2_split by lia. f_equal. lia. }
  assert (Hk2 : 2 ^ (k - 2 + 175) = 2 ^ 25 * u).
  { unfold u. rewrite <- pow2_split by lia. f_equal. lia. }
  assert (He1 : 2 ^ (fexp32 k + 175 - 1) = 4 * u).
  { unfold u, fexp32. replace (Z.max (k - 24) (-149) + 175 - 1) with (2 + (k + 148)) by lia.
    rewrite pow2_split by lia. reflexivity. }
  assert (He2 : 2 ^ (fexp32 (k - 2) + 175 - 1) = u).
  { unfold u, fexp32. f_equal. lia. }
  set (A := scaled 175 a) in *. set (T := scaled 175 t) in *.
  unfold approach.
  destruct (sub_scaled t a 175 k) as [Hd Hde]; try lia; try assumption.
  fold T A in Hde. rewrite He1 in Hde.
  set (d := F32.sub t a) in *.
  assert (Hdsh : scaled 175 d = scaled 149 d * 2 ^ 26).
  { change 175 with (149 + 26). apply scaled_shift; try assumption; lia. }
  destruct (mul_scaled d false 10066330 (-26) 175 (k - 2)) as [Hp Hpe];
    try lia; try assumption; try exact finite_c0_15.
  { change (-26 + 175) with 149. rewrite Hk2. change (2 ^ 25) with 33554432.
    change (2 ^ 26) with 67108864 in *. change (2 ^ 27) with 134217728 in *. lia. }
  change (-26 + 175) with 149 in Hpe. cbn [cond_Zopp] in Hpe. rewrite He2 in Hpe.
  change (S754_finite false 10066330 (-26)) with F32.c0_15 in *.
  set (p := F32.mul d F32.c0_15) in *.
  destruct (add_scaled a p 175 k) as [Hs Hse]; try assumption; try lia.
Qed.

(** The unit of the rounding error of each range. *)
Lemma gauge_unit (hi : F32.float) :
  hi = F32.hundred \/ hi = F32.one ->
  exists k, -100 <= k <= 127 /\ finite hi
            /\ 0 <= scaled 175 hi <= 2 ^ 27 * 2 ^ (k + 148) - 8 * 2 ^ (k + 148)
            /\ (inject_Z (43 * 2 ^ (k + 148)) / inject_Z (2 ^ 175)
                <= value hi * (1 # 1048576))%Q.
Proof.
  intros [-> | ->].
  - exists 7. split; [lia|]. split; [split; reflexivity|].
    split; [vm_compute; split; discriminate|]. vm_compute; discriminate.
  - exists 1. split; [lia|]. split; [split; reflexivity|].
    split; [vm_compute; split; discriminate|]. vm_compute; discriminate.
Qed.

(** The distance after [n] steps, from below, on scaled values. *)
Lemma settle_scaled_lower (k : Z) (hi t : F32.float) (n : nat) (a : F32.float) :
  hi = F32.hundred \/ hi = F32.one ->
  -100 <= k <= 127 ->
  finite a -> finite t ->
  let u := 2 ^ (k + 148) in
  0 <= scaled 175 hi <= 2 ^ 27 * u - 8 * u ->
  F32.within F32.zero hi a = true -> F32.within F32.zero hi t = true ->
  85 ^ Z.of_nat n * (Z.abs (scaled 175 a - scaled 175 t) + 43 * u)
  <= 100 ^ Z.of_nat n * (Z.abs (scaled 175 (settle hi t n a) - scaled 175 t) + 43 * u).
Proof.
  intros Hhi Hk Ha Ht u HH Hwa Hwt.
  assert (Hu : 0 < u) by (apply pow2_pos; lia).
  assert (Hfh : finite hi) by (destruct Hhi as [-> | ->]; split; reflexivity).
  induction n as [|n IH].
  - change (settle hi t 0 a) with a. change (Z.of_nat 0) with 0. rewrite !Z.pow_0_r. lia.
  - destruct (settle_converges hi a t n Hhi Ha Ht Hwa Hwt) as (Hf & Hw & _).
    change (settle hi t (S n) a) with (smooth hi (settle hi t n a) t).
    destruct (smooth_is_approach hi (settle hi t n a) t Hhi Hf Ht Hw Hwt) as [_ ->].
    pose proof Hw as Hr. apply (within_scaled hi _ Hfh Hf) in Hr.
    pose proof Hwt as HT. apply (within_scaled hi t Hfh Ht) in HT.
    pose proof (approach_scaled_lower k (settle hi t n a) t Hk Hf Ht
                  ltac:(fold u; lia) ltac:(fold u; lia)) as Hstep.
    fold u in Hstep.
    rewrite Nat2Z.inj_succ, !Z.pow_succ_r by lia.
    set (x' := Z.abs (scaled 175 (approach (settle hi t n a) t) - scaled 175 t)) in *.
    set (x := Z.abs (scaled 175 (settle hi t n a) - scaled 175 t)) in *.
    set (x0 := Z.abs (scaled 175 a - scaled 175 t)) in *.
    assert (Hx : x <= 2 ^ 27 * u) by (unfold x; lia).
    change (2 ^ 26) with 67108864 in *. change (2 ^ 27) with 134217728 in *.
    assert (Hone : 85 * (x + 43 * u) <= 100 * (x' + 43 * u)) by lia.
    assert (H100 : 0 < 100 ^ Z.of_nat n) by (apply Z.pow_pos_nonneg; lia).
    assert (H1 : 85 * (85 ^ Z.of_nat n * (x0 + 43 * u)) <= 85 * (100 ^ Z.of_nat n * (x + 43 * u)))
      by (apply Z.mul_le_mono_nonneg_l; lia).
    assert (H2 : 100 ^ Z.of_nat n * (85 * (x + 43 * u)) <= 100 ^ Z.of_nat n * (100 * (x' + 43 * u)))
      by (apply Z.mul_le_mono_nonneg_l; lia).
    lia.
Qed.

(** From the integer recurrence to values, from below. *)
Lemma distance_bound_lower (n : nat) (c a t : F32.float) (u : Z) :
  finite c -> finite a -> finite t -> 0 <= u ->
  85 ^ Z.of_nat n * (Z.abs (scaled 175 a - scaled 175 t) + 43 * u)
  <= 100 ^ Z.of_nat n * (Z.abs (scaled 175 c - scaled 175 t) + 43 * u) ->
  (Qabs (value a - value t) * (85 # 100) ^ Z.of_nat n
   - inject_Z (43 * u) / inject_Z (2 ^ 175)
   <= Qabs (value c - value t))%Q.
Proof.
  intros Hc Ha Ht Hu H.
  pose proof (value_distance c t Hc Ht) as Hxc. pose proof (value_distance a t Ha Ht) as Hxa.
  set (xn := Qabs (value c - value t)) in *. set (x0 := Qabs (value a - value t)) in *.
  set (Xn := Z.abs (scaled 175 c - scaled 175 t)) in *.
  set (X0 := Z.abs (scaled 175 a - scaled 175 t)) in *.
  pose proof (power_ratio n) as HR. set (R := ((85 # 100) ^ Z.of_nat n)%Q) in *.
  assert (HR0 : (0 <= R)%Q) by (apply Qpower_0_le; discriminate).
  assert (Ha100 : (0 < inject_Z (100 ^ Z.of_nat n))%Q).
  { rewrite <- (Zlt_Qlt 0). apply Z.pow_pos_nonneg; lia. }
  set (P := inject_Z (100 ^ Z.of_nat n)) in *.
  rewrite Zle_Qle in H. rewrite !inject_Z_mult in H. fold P in H.
  rewrite !inject_Z_plus in H.
  rewrite <- HR, <- Hxc, <- Hxa in H.
  rewrite inject_Z_mult.
  assert (Hu' : (0 <= inject_Z 43 * inject_Z u)%Q).
  { rewrite <- inject_Z_mult, <- (Zle_Qle 0). lia. }
  rewrite inject_Z_mult in H.
  set (U := (inject_Z 43 * inject_Z u)%Q) in *.
  assert (HDpos : (0 < inject_Z (2 ^ 175))%Q) by reflexivity.
  set (D := inject_Z (2 ^ 175)) in *.
  assert (H1 : (R * (x0 * D + U) <= xn * D + U)%Q).
  { apply Qmult_le_l with (z := P); [exact Ha100|].
    setoid_replace (P * (R * (x0 * D + U)))%Q with (R * P * (x0 * D + U))%Q by ring.
    exact H. }
  assert (H2 : ((x0 * R) * D - U <= xn * D)%Q).
  { assert (0 <= R * U)%Q by (apply Qmult_le_0_compat; assumption). lra. }
  apply Qle_shift_div_r in H2; [|exact HDpos].
  setoid_replace (x0 * R - U / D)%Q with ((x0 * R * D - U) / D)%Q; [exact H2|].
  field. intros E. rewrite E in HDpos. discriminate HDpos.
Qed.

Lemma settle_converges_lower (hi cur tgt : F32.float) (n : nat) :
  hi = F32.hundred \/ hi = F32.one ->
  finite cur -> finite tgt ->
  F32.within F32.zero hi cur = true -> F32.within F32.zero hi tgt = true ->
  (Qabs (value cur - value tgt) * (85 # 100) ^ Z.of_nat n - value hi * (1 # 1048576)
   <= Qabs (value (settle hi tgt n cur) - value tgt))%Q.
Proof.
  intros Hhi Hc Ht Hwc Hwt.
  destruct (gauge_unit hi Hhi) as (k & Hk & Hfh & Hs & Hdelta).
  destruct (settle_converges hi cur tgt n Hhi Hc Ht Hwc Hwt) as (Hf & _).
  pose proof (settle_scaled_lower k hi tgt n cur Hhi Hk Hc Ht Hs Hwc Hwt) as Hd.
  pose proof (distance_bound_lower n _ cur tgt (2 ^ (k + 148)) Hf Hc Ht
                ltac:(apply Z.lt_le_incl, pow2_pos; lia) Hd) as Hq.
  lra.
Qed.

(** ** The ranges of the gauges *)

Lemma smooth_in_range (hi cur tgt : F32.float) :
  F32.is_finite hi = true -> F32.leb F32.zero hi = true ->
  F32.within F32.zero hi cur = true -> F32.isnan tgt = false ->
  F32.within F32.zero hi (smooth hi cur tgt) = true.
Proof.
  intros Hf Hhi Hcur Htgt.
  pose proof (within_is_finite hi cur Hf Hcur) as Hfc.
  apply clamp_in_range; [exact Hhi|].
  unfold approach. apply add_not_nan; [exact Hfc|].
  apply mul_not_nan. apply sub_not_nan; assumption.
Qed.

Lemma smooth_ratioOrNaN (cur tgt : F32.float) : ratioOrNaN (smooth F32.one cur tgt).
Proof. intros H. now apply clamp_nan_or_in_range. Qed.

(** The total of line 162 is zero, a positive finite number, or plus
    infinity. *)
Lemma netTotal_cases (d : DataState) :
  F32.valid (net_rx d) = true -> F32.valid (net_tx d) = true ->
  F32.valid (netTotal d) = true
  /\ (netTotal d = S754_zero false
      \/ (exists m e, netTotal d = S754_finite false m e)
      \/ netTotal d = S754_infinity false).
Proof.
  intros Hrx Htx. pose proof (add_valid _ _ Hrx Htx) as Hv.
  unfold netTotal, F32.max. destruct (F32.add (net_rx d) (net_tx d)) as [s|[|]| |[|] m e];
    cbn; auto; try destruct s; cbn; eauto 6.
Qed.

Lemma netPeak_facts (total scale : F32.float) :
  F32.isnan total = false -> F32.leb F32.one scale = true ->
  F32.leb total (netPeak total scale) = true
  /\ F32.leb F32.one (netPeak total scale) = true
  /\ (netPeak total scale = total \/ netPeak total scale = scale).
Proof.
  intros Ht Hs. destruct (leb_not_nan _ _ Hs) as [_ Hsn].
  unfold netPeak. destruct (F32.ltb scale total) eqn:E.
  - split; [now apply leb_refl|]. split; [|now left].
    apply ltb_leb. eapply leb_ltb_trans; eassumption.
  - split; [now apply leb_total|]. split; [assumption|now right].
Qed.

Lemma netRatio_ratioOrNaN (total peak : F32.float) :
  F32.valid total = true -> F32.valid peak = true ->
  (total = S754_zero false \/ (exists m e, total = S754_finite false m e)
   \/ total = S754_infinity false) ->
  F32.leb total peak = true -> F32.leb F32.one peak = true ->
  ratioOrNaN (netRatio total peak).
Proof.
  intros Hvt Hvp Hcases Hle H1 Hn.
  assert (Hpos : F32.ltb F32.zero peak = true)
    by (eapply ltb_leb_trans; [|exact H1]; reflexivity).
  unfold netRatio in *. rewrite Hpos in *.
  destruct peak as [sp|[|]| |[|] mp ep]; try discriminate.
  - (* an infinite scale *)
    destruct Hcases as [->|[(m & e & ->)| ->]]; try reflexivity. discriminate Hn.
  - destruct Hcases as [->|[(m & e & ->)| ->]]; try reflexivity; [|discriminate Hle].
    apply div_le_one; try (split; [assumption|reflexivity]). exact Hle.
Qed.

Lemma netDecay_facts (peak : F32.float) :
  F32.valid peak = true -> F32.isnan peak = false ->
  F32.leb F32.one (netDecay peak) = true /\ F32.valid (netDecay peak) = true.
Proof.
  intros Hv Hn. unfold netDecay.
  assert (Hm : F32.isnan (F32.mul peak F32.c0_996) = false) by now apply mul_not_nan.
  destruct (F32.ltb (F32.mul peak F32.c0_996) F32.one) eqn:E.
  - split; reflexivity.
  - split; [now apply leb_total|]. now apply mul_valid.
Qed.

Lemma inLong_bounds (z : Z) : inLong z = true -> - 2 ^ 31 <= z < 2 ^ 31.
Proof. unfold inLong. rewrite andb_true_iff, Z.leb_le, Z.ltb_lt. auto. Qed.

Lemma gaugesOk_world0 : gaugesOk world0.
Proof. unfold gaugesOk, ratioOrNaN. cbn. repeat split; reflexivity. Qed.

Lemma whenSome_or_default {A : Type} (p : A -> bool) (member : option A) (old : A) :
  whenSome p member = true -> p old = true -> p (member |? old) = true.
Proof. destruct member; cbn; auto. Qed.

Lemma gaugesOk_decode (doc : JsonDoc) (w : World) :
  wfDoc doc = true -> gaugesOk w ->
  gaugesOk (snd (updateFromJsonLine (DeserializationOk doc) w)).
Proof.
  unfold wfDoc. rewrite !andb_true_iff.
  intros ((((((((Wcpu & Wram) & Wused) & Wtemp) & Wtime) & Wup) & Wdisk) & Wrx) & Wtx).
  intros (Hram & Hused & Hrx & Htx & Hcc & Hcr & Htc & Htr & Hs1 & Hsv & Htn & Hcn).
  set (d := mergeDoc doc (data w)).
  assert (Hram' : inLong (ram d) = true) by now apply whenSome_or_default.
  assert (Hused' : inLong (ram_used d) = true) by now apply whenSome_or_default.
  assert (Hrx' : F32.valid (net_rx d) = true) by now apply whenSome_or_default.
  assert (Htx' : F32.valid (net_tx d) = true) by now apply whenSome_or_default.
  destruct (netTotal_cases d Hrx' Htx') as [Hvt Hcases].
  assert (Htn' : F32.isnan (netTotal d) = false)
    by (destruct Hcases as [->|[(m & e & ->)| ->]]; reflexivity).
  destruct (netPeak_facts (netTotal d) (netMaxKBs (ui w)) Htn' Hs1) as (Hle & Hp1 & Hpk).
  assert (Hvp : F32.valid (netPeak (netTotal d) (netMaxKBs (ui w))) = true)
    by (destruct Hpk as [-> | ->]; assumption).
  destruct (leb_not_nan _ _ Hp1) as [_ Hpn].
  destruct (netDecay_facts _ Hvp Hpn) as [Hd1 Hdv].
  unfold gaugesOk. cbn [updateFromJsonLine snd set_data_ui data ui updateUi
                          curCpu curRamRatio curNetRatio tgtCpu tgtRamRatio tgtNetRatio
                          netMaxKBs].
  fold d. repeat split; try assumption.
  - unfold cpuKnown. destruct (F32.leb F32.zero (cpu d)) eqn:E; assumption.
  - destruct (ramKnown d) eqn:E; [|assumption].
    unfold ramKnown in E. apply andb_true_iff in E as [E1 E2].
    apply Z.ltb_lt in E1. apply Z.leb_le in E2.
    apply inLong_bounds in Hram', Hused'. apply ratio_nonneg; lia.
  - destruct (netKnown d); assumption.
  - destruct (netKnown d); assumption.
  - destruct (netKnown d); [|assumption].
    now apply netRatio_ratioOrNaN.
Qed.

Lemma gaugesOk_receiveLine (w : World) (l : Deserialized * Z) :
  wfLine l = true -> gaugesOk w -> gaugesOk (receiveLine w l).
Proof.
  destruct l as [[e|doc] t]; intros Hwf H; [exact H|].
  exact (gaugesOk_decode doc w Hwf H).
Qed.

Lemma gaugesOk_drainSerial (f : Frame) (w : World) :
  wfFrame f = true -> gaugesOk w -> gaugesOk (drainSerial f w).
Proof.
  unfold wfFrame, drainSerial. generalize (received f) as ls. intros ls. revert w.
  induction ls as [|l ls IH]; intros w Hwf H; [exact H|].
  cbn [forallb] in Hwf. apply andb_true_iff in Hwf as [Hl Hls].
  cbn [fold_left]. apply IH; [exact Hls|]. now apply gaugesOk_receiveLine.
Qed.

Lemma gaugesOk_animate (f : Frame) (w : World) : gaugesOk w -> gaugesOk (animate f w).
Proof.
  intros (Hram & Hused & Hrx & Htx & Hcc & Hcr & Htc & Htr & Hs1 & Hsv & Htn & Hcn).
  unfold gaugesOk. cbn [animate set_statics set_ui set_data_ui data ui
                          curCpu curRamRatio curNetRatio tgtCpu tgtRamRatio tgtNetRatio
                          netMaxKBs].
  repeat split; try assumption.
  - apply smooth_in_range; try reflexivity; try assumption.
    now destruct (leb_not_nan _ _ Htc).
  - apply smooth_in_range; try reflexivity; try assumption.
    now destruct (leb_not_nan _ _ Htr).
  - apply smooth_ratioOrNaN.
Qed.

Lemma gaugesOk_render (f : Frame) (w : World) : gaugesOk w -> gaugesOk (render f w).
Proof.
  intros H. unfold render, drawInfoLines.
  destruct (sleepBubble f (drawGauges (ui w))). exact H.
Qed.

Lemma gaugesOk_loop (f : Frame) (w : World) :
  wfFrame f = true -> gaugesOk w -> gaugesOk (loop f w).
Proof.
  intros Hwf H. apply (gaugesOk_drainSerial f w Hwf) in H. unfold loop.
  destruct (lastDataMs (drainSerial f w) =? 0).
  - unfold paintWaiting. now destruct (_ <? _).
  - assert (Hc : gaugesOk (connectionCheck f (drainSerial f w))).
    { unfold connectionCheck. now destruct (stale _ _). }
    destruct (animationDue _ _); [|exact Hc].
    apply gaugesOk_render, gaugesOk_animate. exact Hc.
Qed.

Lemma gaugesOk_run (fs : list Frame) (w : World) :
  forallb wfFrame fs = true -> gaugesOk w -> gaugesOk (run fs w).
Proof.
  revert w. induction fs as [|f fs IH]; intros w Hwf H; [exact H|].
  cbn [forallb] in Hwf. apply andb_true_iff in Hwf as [Hf Hfs].
  apply IH; [exact Hfs|]. now apply gaugesOk_loop.
Qed.

(** C7, with the targets as the code keeps them: the range invariant
    holds at power-on and is preserved by every decode of a well-formed
    document and by every animation tick, so it holds in every state the
    firmware reaches.  It keeps [currentCpu] in [0, 100] and
    [currentRamRatio] in [0, 1]; of the CPU and RAM targets it keeps only
    the lower bound 0, since line 159 and line 160 store the decoded value
    as it is; it keeps the network scale at or above 1 and both network
    ratios in [0, 1] whenever they are numbers. *)
Theorem ranges_are_kept :
  gaugesOk world0
  /\ (forall (doc : JsonDoc) (w : World),
         wfDoc doc = true -> gaugesOk w ->
         gaugesOk (snd (updateFromJsonLine (DeserializationOk doc) w)))
  /\ (forall (f : Frame) (w : World), gaugesOk w -> gaugesOk (animate f w))
  /\ (forall (fs : list Frame),
         forallb wfFrame fs = true -> gaugesOk (run fs world0)).
Proof.
  split; [exact gaugesOk_world0|]. split; [exact gaugesOk_decode|].
  split; [exact gaugesOk_animate|].
  intros fs Hwf. apply gaugesOk_run; [exact Hwf|exact gaugesOk_world0].
Qed.

(** Three passes from power-on; the first decodes 150 % CPU and more RAM
    used than there is. *)
Lemma ranges_are_kept_witness :
  let fs := [ frameWith [(DeserializationOk (loadDoc (F32.of_Z 150) 1000 2000), 1000)] 1000;
              frameAt 1060; frameAt 1120 ] in
  F32.within F32.zero F32.hundred (curCpu (ui (run fs world0))) = true
  /\ F32.within F32.zero F32.one (curRamRatio (ui (run fs world0))) = true
  /\ F32.leb F32.zero (tgtCpu (ui (run fs world0))) = true.
Proof.
  intros fs.
  destruct ranges_are_kept as (_ & _ & _ & Hrun).
  destruct (Hrun fs) as (_ & _ & _ & _ & Hcc & Hcr & Htc & _).
  - vm_compute. reflexivity.
  - repeat split; assumption.
Defined.

(** The targets are stored as decoded: 150 % CPU gives a CPU target of
    150, and 2000 KB used of 1000 KB gives a RAM target of 2. *)
Lemma targets_are_not_clamped :
  let w := snd (updateFromJsonLine
                  (DeserializationOk (loadDoc (F32.of_Z 150) 1000 2000)) world0) in
  wfDoc (loadDoc (F32.of_Z 150) 1000 2000) = true
  /\ tgtCpu (ui w) = F32.of_Z 150
  /\ F32.within F32.zero F32.hundred (tgtCpu (ui w)) = false
  /\ tgtRamRatio (ui w) = F32.of_Z 2
  /\ F32.within F32.zero F32.one (tgtRamRatio (ui w)) = false.
Proof. vm_compute. repeat split; reflexivity. Qed.

(** ** The network scale *)

Lemma netRatio_not_nan (total peak : F32.float) :
  F32.is_finite total = true -> F32.leb F32.one peak = true ->
  F32.isnan (netRatio total peak) = false.
Proof.
  intros Hf H1. unfold netRatio. destruct (F32.ltb F32.zero peak); [|reflexivity].
  destruct total as [st|st| |st mt et]; try discriminate;
    destruct peak as [sp|sp| |sp mp ep]; try discriminate; try reflexivity.
  apply div_finite_sign.
Qed.

(** C5, up to the overflow of [rx + tx]: on a successful decode that
    leaves rx and tx known, with [total = max(0, rx + tx)], the scale first
    jumps to [total] when [total] exceeds it, the target ratio is
    [total / scale], and the scale is then multiplied by 0.996 and floored
    at 1; the new scale is at least 1, and the target ratio is in [0, 1]
    whenever [total] is finite.  When [rx + tx] overflows, as for
    rx = tx = 3e38, [total] and the scale are infinite and the target ratio is
    NaN. *)
Theorem network_autoscale :
  (forall (doc : JsonDoc) (w : World),
      wfDoc doc = true -> gaugesOk w ->
      let d := mergeDoc doc (data w) in
      let w' := snd (updateFromJsonLine (DeserializationOk doc) w) in
      let total := netTotal d in
      let peak := if F32.ltb (netMaxKBs (ui w)) total then total else netMaxKBs (ui w) in
      netKnown d = true ->
      total = F32.max F32.zero (F32.add (net_rx d) (net_tx d))
      /\ tgtNetRatio (ui w') = F32.div total peak
      /\ netMaxKBs (ui w')
         = (if F32.ltb (F32.mul peak F32.c0_996) F32.one then F32.one
            else F32.mul peak F32.c0_996)
      /\ F32.leb F32.one (netMaxKBs (ui w')) = true
      /\ (F32.is_finite total = true ->
          F32.within F32.zero F32.one (tgtNetRatio (ui w')) = true))
  /\ (let w' := snd (updateFromJsonLine (DeserializationOk (netDoc huge huge)) world0) in
      F32.is_finite huge = true
      /\ netTotal (data w') = S754_infinity false
      /\ netMaxKBs (ui w') = S754_infinity false
      /\ tgtNetRatio (ui w') = F32.nan).
Proof.
  split; [|vm_compute; repeat split; reflexivity].
  intros doc w Hwf Hok d w' total peak Hknown.
  pose proof (gaugesOk_decode doc w Hwf Hok) as Hok'. fold w' in Hok'.
  destruct Hok as (_ & _ & _ & _ & _ & _ & _ & _ & Hs1 & _).
  destruct Hok' as (_ & _ & Hrx & Htx & _ & _ & _ & _ & Hs1' & _ & Htn & _).
  assert (Hd : data w' = d) by reflexivity. rewrite Hd in Hrx, Htx.
  destruct (netTotal_cases d Hrx Htx) as [_ Hcases]. fold total in Hcases.
  assert (Htn' : F32.isnan total = false)
    by (destruct Hcases as [->|[(m & e & ->)| ->]]; reflexivity).
  destruct (netPeak_facts total (netMaxKBs (ui w)) Htn' Hs1) as (_ & Hp1 & _).
  change (netPeak total (netMaxKBs (ui w))) with peak in Hp1.
  assert (Hpos : F32.ltb F32.zero peak = true)
    by (eapply ltb_leb_trans; [|exact Hp1]; reflexivity).
  assert (Hratio : tgtNetRatio (ui w') = F32.div total peak).
  { subst w'. cbn [updateFromJsonLine snd set_data_ui ui updateUi tgtNetRatio].
    fold d. rewrite Hknown. unfold netRatio. fold total.
    change (netPeak total (netMaxKBs (ui w))) with peak. now rewrite Hpos. }
  split; [reflexivity|]. split; [exact Hratio|]. split.
  { subst w'. cbn [updateFromJsonLine snd set_data_ui ui updateUi netMaxKBs].
    fold d. now rewrite Hknown. }
  split; [exact Hs1'|].
  intros Hfin. apply Htn. rewrite Hratio.
  pose proof (netRatio_not_nan total peak Hfin Hp1) as Hnn.
  unfold netRatio in Hnn. now rewrite Hpos in Hnn.
Qed.

Lemma network_autoscale_witness :
  let w' := snd (updateFromJsonLine
                   (DeserializationOk (netDoc (F32.of_Z 100) (F32.of_Z 50))) world0) in
  tgtNetRatio (ui w') = F32.one
  /\ F32.leb F32.one (netMaxKBs (ui w')) = true
  /\ F32.within F32.zero F32.one (tgtNetRatio (ui w')) = true.
Proof.
  intros w'.
  destruct network_autoscale as [Hgen _].
  destruct (Hgen (netDoc (F32.of_Z 100) (F32.of_Z 50)) world0) as (_ & _ & _ & H1 & Hin).
  - reflexivity.
  - exact gaugesOk_world0.
  - reflexivity.
  - split; [vm_compute; reflexivity|]. split; [exact H1|].
    apply Hin. vm_compute. reflexivity.
Defined.

(** C2 at the input that breaks it.  From power-on, the line
    [{"net":{"rx":3e38,"tx":3e38}}] is decoded and one tick runs: rx + tx
    overflows to infinity, the network target is infinity / infinity = NaN,
    and the animated network ratio becomes NaN, which neither clamp
    comparison of line 440 catches.  It is still NaN after a later line with
    ordinary values and two more ticks. *)
Theorem network_ratio_is_nan_after_overflow :
  let first := frameWith [(DeserializationOk (netDoc huge huge), 1000)] 1000 in
  let later := frameWith [(DeserializationOk (netDoc (F32.of_Z 3) (F32.of_Z 4)), 2000)] 2000 in
  wfFrame first = true /\ F32.is_finite huge = true
  /\ curNetRatio (ui (loop first world0)) = F32.nan
  /\ F32.within F32.zero F32.one (curNetRatio (ui (loop first world0))) = false
  /\ tgtNetRatio (ui (run [first; later; frameAt 2060] world0)) = F32.zero
  /\ curNetRatio (ui (run [first; later; frameAt 2060] world0)) = F32.nan.
Proof. vm_compute. repeat split; reflexivity. Qed.

(** C4, with the roundings of binary32: after [n] consecutive ticks
    with no decode in between each animated value is the [n]-fold smoothing
    step toward its unchanged target; for a finite target and a finite
    start inside the range [[0, hi]] the value stays inside the range and
    the clamp never alters it (the next value is the plain step
    [cur + (tgt - cur) * 0.15f]), the distance to the target differs from
    [0.85^n] times the initial distance by at most [hi / 2^20], in either
    direction, for the roundings, and from 30 ticks on it is at most 1 % of
    the range. *)
Theorem smoothing_converges :
  (forall (fs : list Frame) (w : World),
      curCpu (ui (ticksOf fs w))
      = settle F32.hundred (tgtCpu (ui w)) (List.length fs) (curCpu (ui w))
      /\ curRamRatio (ui (ticksOf fs w))
         = settle F32.one (tgtRamRatio (ui w)) (List.length fs) (curRamRatio (ui w))
      /\ curNetRatio (ui (ticksOf fs w))
         = settle F32.one (tgtNetRatio (ui w)) (List.length fs) (curNetRatio (ui w)))
  /\ (forall (hi cur tgt : F32.float) (n : nat),
         hi = F32.hundred \/ hi = F32.one ->
         finite cur -> finite tgt ->
         F32.within F32.zero hi cur = true -> F32.within F32.zero hi tgt = true ->
         F32.within F32.zero hi (settle hi tgt n cur) = true
         /\ settle hi tgt (S n) cur = approach (settle hi tgt n cur) tgt
         /\ (Qabs (Qabs (value (settle hi tgt n cur) - value tgt)
                   - Qabs (value cur - value tgt) * (85 # 100) ^ Z.of_nat n)
             <= value hi * (1 # 1048576))%Q
         /\ ((30 <= n)%nat ->
             (Qabs (value (settle hi tgt n cur) - value tgt) <= value hi * (1 # 100))%Q)).
Proof.
  split.
  - intros fs w. destruct (ticksOf_gauges fs w) as (H1 & H2 & H3 & _). auto.
  - intros hi cur tgt n Hhi Hc Ht Hwc Hwt.
    destruct (settle_converges hi cur tgt n Hhi Hc Ht Hwc Hwt) as (Hf & H1 & H2 & H3).
    destruct (smooth_is_approach hi (settle hi tgt n cur) tgt Hhi Hf Ht H1 Hwt) as [_ Hs].
    pose proof (settle_converges_lower hi cur tgt n Hhi Hc Ht Hwc Hwt) as H4.
    split; [exact H1|]. split; [exact Hs|]. split; [|exact H3].
    apply Qabs_Qle_condition. split; lra.
Qed.

(** From 0 % toward a target of 100 %, thirty ticks. *)
Lemma smoothing_converges_witness :
  F32.within F32.zero F32.hundred (settle F32.hundred F32.hundred 30 F32.zero) = true
  /\ settle F32.hundred F32.hundred 31 F32.zero
     = approach (settle F32.hundred F32.hundred 30 F32.zero) F32.hundred
  /\ (Qabs (value (settle F32.hundred F32.hundred 30 F32.zero) - value F32.hundred)
      <= value F32.hundred * (1 # 100))%Q.
Proof.
  destruct smoothing_converges as (_ & Hconv).
  destruct (Hconv F32.hundred F32.zero F32.hundred 30%nat) as (H1 & H2 & _ & H3).
  - now left.
  - split; reflexivity.
  - split; reflexivity.
  - reflexivity.
  - reflexivity.
  - split; [exact H1|]. split; [exact H2|]. apply H3. apply Nat.le_refl.
Defined.

(** One tick from 0 toward 100: the product [100 * 0.15f] rounds to
    15.00000095..., so the distance to the target is 84.99999904..., not
    [100 * 0.85 = 85]. *)
Lemma one_tick_is_not_exactly_geometric :
  let c := settle F32.hundred F32.hundred 1 F32.zero in
  c = S754_finite false 15728641 (-20)
  /\ ~ (Qabs (value c - value F32.hundred)
        == Qabs (value F32.zero - value F32.hundred) * (85 # 100) ^ 1)%Q
  /\ (Qabs (value c - value F32.hundred)
      < Qabs (value F32.zero - value F32.hundred) * (85 # 100) ^ 1)%Q.
Proof.
  cbv zeta. split; [vm_compute; reflexivity|]. split.
  - vm_compute. discriminate.
  - vm_compute. reflexivity.
Qed.
(** * Properties of the rest of the sketch *)

(** ** Strings *)

Lemma substring_prefix (n : nat) (s : string) :
  exists rest, s = (String.substring 0 n s ++ rest)%string.
Proof.
  revert s. induction n as [|n IH]; intros s.
  - exists s. destruct s; reflexivity.
  - destruct s as [|c s]; [exists ""%string; reflexivity|].
    destruct (IH s) as [rest Hrest]. exists rest. cbn. now rewrite <- Hrest.
Qed.

Lemma substring_length (n : nat) (s : string) :
  String.length (String.substring 0 n s) = Nat.min n (String.length s).
Proof.
  revert s. induction n as [|n IH]; intros s.
  - destruct s; reflexivity.
  - destruct s as [|c s]; [reflexivity|]. cbn. now rewrite IH.
Qed.

(** The number of characters [clipToWidth] allows. *)
Lemma clipToWidth_maxChars (px : Z) :
  (if Z.quot px 6 <? 0 then 0 else Z.quot px 6) = Z.max 0 (px / 6).
Proof.
  destruct (Z_lt_le_dec px 0) as [Hneg|Hpos].
  - assert (Z.quot px 6 <= 0) by (apply Z.quot_le_upper_bound; lia).
    assert (px / 6 < 0) by (apply Z.div_lt_upper_bound; lia).
    destruct (Z.ltb_spec (Z.quot px 6) 0); lia.
  - rewrite Z.quot_div_nonneg by lia.
    pose proof (Z.div_pos px 6 Hpos ltac:(lia)).
    destruct (Z.ltb_spec (px / 6) 0); lia.
Qed.

Lemma clipToWidth_prefix (s : string) (px : Z) :
  exists rest, s = (clipToWidth s px ++ rest)%string.
Proof.
  unfold clipToWidth. destruct (_ <=? _).
  - exists ""%string. now rewrite append_empty_r.
  - apply substring_prefix.
Qed.

Lemma clipToWidth_length (s : string) (px : Z) :
  Zlength_string (clipToWidth s px) = Z.min (Zlength_string s) (Z.max 0 (px / 6)).
Proof.
  unfold clipToWidth. rewrite clipToWidth_maxChars. unfold Zlength_string.
  destruct (Z.leb_spec (Z.of_nat (String.length s)) (Z.max 0 (px / 6))); [lia|].
  rewrite substring_length. lia.
Qed.

Lemma clipToWidth_whole (s : string) (px : Z) :
  textWidth s 1 <= px -> clipToWidth s px = s.
Proof.
  intros H. unfold clipToWidth. rewrite clipToWidth_maxChars.
  unfold textWidth, Zlength_string in *.
  assert (Z.of_nat (String.length s) <= px / 6) by (apply Z.div_le_lower_bound; lia).
  destruct (Z.leb_spec (Z.of_nat (String.length s)) (Z.max 0 (px / 6))); [reflexivity|lia].
Qed.

(** X12: [clipToWidth] keeps a prefix of the text, as many characters as fit
    the pixel width at 6 pixels each: the result is never wider than a
    non-negative width, a text that fits is returned whole, and below 6
    pixels nothing is left. *)
Theorem clipToWidth_fits :
  forall (s : string) (pxWidth : Z),
    (exists rest, s = (clipToWidth s pxWidth ++ rest)%string)
    /\ Zlength_string (clipToWidth s pxWidth)
       = Z.min (Zlength_string s) (Z.max 0 (pxWidth / 6))
    /\ (0 <= pxWidth -> textWidth (clipToWidth s pxWidth) 1 <= pxWidth)
    /\ (textWidth s 1 <= pxWidth -> clipToWidth s pxWidth = s)
    /\ (pxWidth < 6 -> clipToWidth s pxWidth = ""%string).
Proof.
  intros s px. pose proof (clipToWidth_length s px) as Hlen.
  split; [apply clipToWidth_prefix|]. split; [exact Hlen|]. split; [|split].
  - intros Hpx. unfold textWidth. rewrite Hlen.
    pose proof (Z.mul_div_le px 6 ltac:(lia)).
    pose proof (Z.div_pos px 6 Hpx ltac:(lia)).
    assert (0 <= Zlength_string s) by (unfold Zlength_string; lia). lia.
  - apply clipToWidth_whole.
  - intros Hpx. assert (px / 6 < 1) by (apply Z.div_lt_upper_bound; lia).
    assert (0 <= Zlength_string s) by (unfold Zlength_string; lia).
    assert (Hz : Zlength_string (clipToWidth s px) = 0) by lia.
    unfold Zlength_string in Hz. destruct (clipToWidth s px); [reflexivity|discriminate].
Qed.

Lemma clipToWidth_fits_witness :
  textWidth (clipToWidth "Smart Monitor" 40) 1 <= 40
  /\ clipToWidth "SMON" 24 = "SMON"%string
  /\ clipToWidth "SMON" 5 = ""%string.
Proof.
  destruct (clipToWidth_fits "Smart Monitor" 40) as (_ & _ & H1 & _).
  destruct (clipToWidth_fits "SMON" 24) as (_ & _ & _ & H2 & _).
  destruct (clipToWidth_fits "SMON" 5) as (_ & _ & _ & _ & H3).
  split; [apply H1; lia|]. split; [apply H2; vm_compute; discriminate|apply H3; lia].
Defined.

Lemma printsWithin_spec (k n : nat) :
  forall z0 z : Z,
    printsWithin k n z0 = true -> z0 <= z < z0 + Z.of_nat n ->
    (String.length (string_of_Z z) <= k)%nat.
Proof.
  induction n as [|n IH]; intros z0 z H Hz; [lia|].
  cbn [printsWithin] in H. apply andb_true_iff in H as [H1 H2].
  destruct (Z.eq_dec z z0) as [->|Hne]; [now apply Nat.leb_le|].
  apply (IH (z0 + 1)); [exact H2|lia].
Qed.

Lemma prints_4 (z : Z) : 0 <= z < 10000 -> (String.length (string_of_Z z) <= 4)%nat.
Proof.
  intros Hz. apply (printsWithin_spec 4 (Z.to_nat 10000) 0); [vm_compute; reflexivity|lia].
Qed.

(** X14: [fmtDisk] prints a 32-bit number of kilobytes in at most 6
    characters: ["--"] when negative, whole megabytes up to 9999, and whole
    gigabytes (at most 2047) from 10000 MB on. *)
Theorem fmtDisk_fits_six_characters :
  forall (kb : Z),
    inLong kb = true ->
    (String.length (fmtDisk kb) <= 6)%nat
    /\ (kb < 0 -> fmtDisk kb = "--"%string)
    /\ (0 <= kb < 10000 * 1024 ->
        fmtDisk kb = (string_of_Z (kb / 1024) ++ "MB")%string)
    /\ (10000 * 1024 <= kb ->
        fmtDisk kb = (string_of_Z (kb / (1024 * 1024)) ++ "GB")%string
        /\ 9 <= kb / (1024 * 1024) <= 2047).
Proof.
  intros kb Hin. apply inLong_bounds in Hin. change (2 ^ 31) with 2147483648 in Hin.
  unfold fmtDisk. destruct (Z.ltb_spec kb 0) as [Hneg|Hpos].
  - split; [cbn; lia|]. split; [reflexivity|]. split; intros; lia.
  - rewrite !Z.quot_div_nonneg by (try apply Z.div_pos; lia).
    rewrite Z.div_div by lia.
    assert (Hmb : 0 <= kb / 1024) by (apply Z.div_pos; lia).
    destruct (Z.ltb_spec 9999 (kb / 1024)) as [Hbig|Hsmall].
    + assert (Hkb : 10000 * 1024 <= kb).
      { destruct (Z_lt_le_dec kb (10000 * 1024)) as [H|H]; [|exact H].
        assert (kb / 1024 < 10000) by (apply Z.div_lt_upper_bound; lia). lia. }
      assert (Hgb : 9 <= kb / (1024 * 1024) <= 2047).
      { split; [apply Z.div_le_lower_bound; lia|].
        assert (kb / (1024 * 1024) < 2048) by (apply Z.div_lt_upper_bound; lia). lia. }
      split.
      { rewrite append_length. pose proof (prints_4 (kb / (1024 * 1024)) ltac:(lia)).
        cbn [String.length]. lia. }
      split; [intros; lia|]. split; [intros; lia|]. intros _. split; [reflexivity|exact Hgb].
    + assert (Hkb : kb < 10000 * 1024).
      { destruct (Z_lt_le_dec kb (10000 * 1024)) as [H|H]; [exact H|].
        assert (10000 <= kb / 1024) by (apply Z.div_le_lower_bound; lia). lia. }
      split.
      { rewrite append_length. pose proof (prints_4 (kb / 1024) ltac:(lia)).
        cbn [String.length]. lia. }
      split; [intros; lia|]. split; [reflexivity|]. intros; lia.
Qed.

Lemma fmtDisk_fits_six_characters_witness :
  (String.length (fmtDisk 50000000) <= 6)%nat
  /\ fmtDisk 50000000 = "47GB"%string.
Proof.
  destruct (fmtDisk_fits_six_characters 50000000) as (H1 & _ & _ & H4).
  - reflexivity.
  - split; [exact H1|]. destruct H4 as [H4 _]; [lia|]. rewrite H4. reflexivity.
Defined.

(** X15: [fmtUptime] splits a non-negative number of seconds into days,
    hours below 24 and minutes below 60, drops the seconds, and prints the
    days only when there is at least one; a negative number prints as
    ["--"]. *)
Theorem fmtUptime_splits_days_hours_minutes :
  forall (seconds : Z),
    (seconds < 0 -> fmtUptime seconds = "--"%string)
    /\ (0 <= seconds ->
        exists d h m r,
          0 <= d /\ 0 <= h < 24 /\ 0 <= m < 60 /\ 0 <= r < 60
          /\ seconds = ((d * 24 + h) * 60 + m) * 60 + r
          /\ fmtUptime seconds
             = ((if (0 <? d)%Z then string_of_Z d ++ "d " else "")
                ++ string_of_Z h ++ "h" ++ string_of_Z m ++ "m")%string).
Proof.
  intros s. unfold fmtUptime. split.
  - intros H. destruct (Z.ltb_spec s 0); [reflexivity|lia].
  - intros H. destruct (Z.ltb_spec s 0); [lia|].
    assert (Hm : 0 <= s / 60) by (apply Z.div_pos; lia).
    assert (Hh : 0 <= s / 60 / 60) by (apply Z.div_pos; lia).
    rewrite (Z.quot_div_nonneg s 60) by lia.
    rewrite (Z.quot_div_nonneg (s / 60) 60) by lia.
    rewrite (Z.quot_div_nonneg (s / 60 / 60) 24) by lia.
    rewrite (Z.rem_mod_nonneg (s / 60 / 60) 24) by lia.
    rewrite (Z.rem_mod_nonneg (s / 60) 60) by lia.
    exists (s / 60 / 60 / 24), ((s / 60 / 60) mod 24), ((s / 60) mod 60), (s mod 60).
    pose proof (Z.mod_pos_bound (s / 60 / 60) 24 ltac:(lia)).
    pose proof (Z.mod_pos_bound (s / 60) 60 ltac:(lia)).
    pose proof (Z.mod_pos_bound s 60 ltac:(lia)).
    pose proof (Z.div_mod (s / 60 / 60) 24 ltac:(lia)).
    pose proof (Z.div_mod (s / 60) 60 ltac:(lia)).
    pose proof (Z.div_mod s 60 ltac:(lia)).
    assert (0 <= s / 60 / 60 / 24) by (apply Z.div_pos; lia).
    repeat split; try lia.
Qed.

Lemma fmtUptime_splits_days_hours_minutes_witness :
  fmtUptime (-5) = "--"%string
  /\ exists d h m r,
      0 <= d /\ 0 <= h < 24 /\ 0 <= m < 60 /\ 0 <= r < 60
      /\ 100000 = ((d * 24 + h) * 60 + m) * 60 + r
      /\ fmtUptime 100000
         = ((if (0 <? d)%Z then string_of_Z d ++ "d " else "")
            ++ string_of_Z h ++ "h" ++ string_of_Z m ++ "m")%string.
Proof.
  destruct (fmtUptime_splits_days_hours_minutes (-5)) as [H1 _].
  destruct (fmtUptime_splits_days_hours_minutes 100000) as [_ H2].
  split; [apply H1; lia|apply H2; lia].
Defined.

(** ** The header *)

(** X11: [drawHeader] prints the temperature at the left and the title, cut
    to a prefix that fits, right of it: the title starts at least 4 pixels
    after the temperature and ends at least 2 pixels before the right edge
    (as long as the temperature leaves any room), and a title that fits is
    printed whole and centred in the room left, the odd pixel on its
    right. *)
Theorem header_title_placement :
  forall (d : DataState) (app : string),
    let tempStr := headerTemp d in
    let xAvail := 2 + textWidth tempStr 1 + 4 in
    exists tx clipped,
      drawHeader d app
      = [ PaintShape (FillRect 0 0 SCREEN_WIDTH 10); PaintText 2 2 tempStr;
          PaintText tx 2 clipped ]
      /\ (exists rest, headerTitle app = (clipped ++ rest)%string)
      /\ xAvail <= tx
      /\ tx + textWidth clipped 1 <= Z.max xAvail (SCREEN_WIDTH - 2)
      /\ (xAvail + textWidth (headerTitle app) 1 <= SCREEN_WIDTH - 2 ->
          clipped = headerTitle app
          /\ 0 <= (SCREEN_WIDTH - 2 - (tx + textWidth clipped 1)) - (tx - xAvail) <= 1).
Proof.
  intros d app tempStr xAvail. unfold drawHeader. fold tempStr. fold xAvail.
  set (availW := if SCREEN_WIDTH - xAvail - 2 <? 0 then 0 else SCREEN_WIDTH - xAvail - 2).
  assert (Hav : availW = Z.max 0 (SCREEN_WIDTH - 2 - xAvail)).
  { unfold availW. destruct (Z.ltb_spec (SCREEN_WIDTH - xAvail - 2) 0); lia. }
  pose proof (clipToWidth_prefix (headerTitle app) availW) as Hpre.
  pose proof (clipToWidth_length (headerTitle app) availW) as Hlen.
  pose proof (clipToWidth_whole (headerTitle app) availW) as Hfit.
  set (clipped := clipToWidth (headerTitle app) availW) in *.
  set (tw := textWidth clipped 1) in *.
  assert (Htw : 0 <= tw <= availW).
  { unfold tw, textWidth. rewrite Hlen.
    pose proof (Z.mul_div_le availW 6 ltac:(lia)).
    pose proof (Z.div_pos availW 6 ltac:(lia) ltac:(lia)).
    assert (0 <= Zlength_string (headerTitle app)) by (unfold Zlength_string; lia). lia. }
  assert (Hq : Z.quot (availW - tw) 2 = (availW - tw) / 2) by (apply Z.quot_div_nonneg; lia).
  pose proof (Z.div_mod (availW - tw) 2 ltac:(lia)) as Hdm.
  pose proof (Z.mod_pos_bound (availW - tw) 2 ltac:(lia)) as Hmb.
  assert (Htx : (if xAvail + Z.quot (availW - tw) 2 <? xAvail then xAvail
                 else xAvail + Z.quot (availW - tw) 2) = xAvail + (availW - tw) / 2).
  { rewrite Hq. destruct (Z.ltb_spec (xAvail + (availW - tw) / 2) xAvail); lia. }
  rewrite Htx. exists (xAvail + (availW - tw) / 2), clipped.
  split; [reflexivity|]. split; [exact Hpre|]. split; [lia|]. split; [lia|].
  intros Hroom.
  assert (Hc : clipped = headerTitle app) by (apply Hfit; lia).
  split; [exact Hc|].
  assert (0 <= textWidth (headerTitle app) 1) by (unfold textWidth, Zlength_string; lia).
  unfold SCREEN_WIDTH in *. lia.
Qed.

(** The header of a snapshot without temperature, titled ["editor"]. *)
Lemma header_title_placement_witness :
  exists tx clipped,
    drawHeader (snapshotOf F32.zero 0 0) "editor"
    = [ PaintShape (FillRect 0 0 SCREEN_WIDTH 10); PaintText 2 2 "--C";
        PaintText tx 2 clipped ]
    /\ clipped = "editor"%string
    /\ 0 <= (SCREEN_WIDTH - 2 - (tx + textWidth clipped 1)) - (tx - 24) <= 1.
Proof.
  destruct (header_title_placement (snapshotOf F32.zero 0 0) "editor")
    as (tx & clipped & Hd & _ & _ & _ & Hfit).
  exists tx, clipped. split; [exact Hd|]. apply Hfit. vm_compute. discriminate.
Defined.

(** ** Trimming *)

Lemma rev_string_onto_append (s acc : string) :
  rev_string_onto s acc = (rev_string s ++ acc)%string.
Proof.
  unfold rev_string. revert acc. induction s as [|c s IH]; intros acc; [reflexivity|].
  cbn [rev_string_onto]. rewrite IH, (IH (String c "")), append_assoc. reflexivity.
Qed.

Lemma rev_string_cons (c : ascii) (s : string) :
  rev_string (String c s) = (rev_string s ++ String c "")%string.
Proof. unfold rev_string at 1. cbn [rev_string_onto]. apply rev_string_onto_append. Qed.

Lemma rev_string_append (a b : string) :
  rev_string (a ++ b) = (rev_string b ++ rev_string a)%string.
Proof.
  induction a as [|c a IH]; cbn [append].
  - now rewrite append_empty_r.
  - now rewrite !rev_string_cons, IH, append_assoc.
Qed.

Lemma rev_string_involutive (s : string) : rev_string (rev_string s) = s.
Proof.
  induction s as [|c s IH]; [reflexivity|].
  rewrite rev_string_cons, rev_string_append, IH. reflexivity.
Qed.

Lemma allSpaces_append (a b : string) :
  allSpaces (a ++ b) = allSpaces a && allSpaces b.
Proof.
  induction a as [|c a IH]; [reflexivity|].
  cbn [append allSpaces]. now rewrite IH, andb_assoc.
Qed.

Lemma allSpaces_rev (s : string) : allSpaces (rev_string s) = allSpaces s.
Proof.
  induction s as [|c s IH]; [reflexivity|].
  rewrite rev_string_cons, allSpaces_append, IH. cbn [allSpaces].
  rewrite andb_true_r. apply andb_comm.
Qed.

Lemma trim_left_split (s : string) :
  exists l, s = (l ++ trim_left s)%string /\ allSpaces l = true.
Proof.
  induction s as [|c s IH]; [exists ""%string; split; reflexivity|].
  cbn [trim_left]. destruct (isspace c) eqn:E.
  - destruct IH as (l & Hl & Hs). exists (String c l). cbn [append allSpaces].
    rewrite <- Hl, E, Hs. split; reflexivity.
  - exists ""%string. split; reflexivity.
Qed.

Lemma trim_left_start (s : string) : startsWithSpace (trim_left s) = false.
Proof.
  induction s as [|c s IH]; [reflexivity|].
  cbn [trim_left]. destruct (isspace c) eqn:E; [exact IH|exact E].
Qed.

Lemma trim_left_allSpaces (s : string) : allSpaces s = true -> trim_left s = ""%string.
Proof.
  induction s as [|c s IH]; [reflexivity|].
  cbn [allSpaces trim_left]. intros H. apply andb_true_iff in H as [-> H]. auto.
Qed.

Lemma trim_left_fixed (s : string) : startsWithSpace s = false -> trim_left s = s.
Proof. destruct s as [|c s]; [reflexivity|]. cbn. now intros ->. Qed.

(** What [String::trim()] does: it removes whitespace from both ends and
    nothing else. *)
Lemma trim_split (s : string) :
  (exists l r, s = (l ++ trim s ++ r)%string /\ allSpaces l = true /\ allSpaces r = true)
  /\ startsWithSpace (trim s) = false
  /\ endsWithSpace (trim s) = false.
Proof.
  unfold trim, endsWithSpace. rewrite rev_string_involutive.
  destruct (trim_left_split s) as (l & Hl & Hls).
  pose proof (trim_left_start s) as Hstart.
  set (t1 := trim_left s) in *.
  destruct (trim_left_split (rev_string t1)) as (r & Hr & Hrs).
  set (t2 := trim_left (rev_string t1)) in *.
  assert (Ht1 : t1 = (rev_string t2 ++ rev_string r)%string).
  { rewrite <- rev_string_append, <- Hr. symmetry. apply rev_string_involutive. }
  split; [|split].
  - exists l, (rev_string r). rewrite <- Ht1. split; [exact Hl|].
    split; [exact Hls|now rewrite allSpaces_rev].
  - destruct (rev_string t2) as [|c t] eqn:E; [reflexivity|].
    rewrite Ht1 in Hstart. exact Hstart.
  - apply trim_left_start.
Qed.

Lemma trim_allSpaces (s : string) : allSpaces s = true -> trim s = ""%string.
Proof. intros H. unfold trim. now rewrite (trim_left_allSpaces s H). Qed.

Lemma trim_fixed (s : string) :
  startsWithSpace s = false -> endsWithSpace s = false -> trim s = s.
Proof.
  intros H1 H2. unfold trim. rewrite (trim_left_fixed s H1), (trim_left_fixed _ H2).
  apply rev_string_involutive.
Qed.

(** X13: the application name is stored trimmed.  A decoded ["app"] member
    loses the whitespace at its two ends and nothing else, so the stored
    name neither starts nor ends with whitespace; a name made of whitespace
    only is stored as the empty string, for which the header falls back to
    the title ["SMON"]. *)
Theorem app_name_is_stored_trimmed :
  forall (doc : JsonDoc) (w : World) (a : string),
    j_app doc = Some a ->
    let app := appName (snd (updateFromJsonLine (DeserializationOk doc) w)) in
    (exists l r, a = (l ++ app ++ r)%string /\ allSpaces l = true /\ allSpaces r = true)
    /\ startsWithSpace app = false
    /\ endsWithSpace app = false
    /\ trim app = app
    /\ (allSpaces a = true -> app = ""%string /\ headerTitle app = "SMON"%string).
Proof.
  intros doc w a Ha app.
  assert (Happ : app = trim a) by (unfold app; cbn; unfold mergeApp; now rewrite Ha).
  rewrite Happ. destruct (trim_split a) as (Hsplit & Hs & He).
  split; [exact Hsplit|]. split; [exact Hs|]. split; [exact He|].
  split; [now apply trim_fixed|].
  intros Hall. rewrite (trim_allSpaces a Hall). split; reflexivity.
Qed.

Lemma app_name_is_stored_trimmed_witness :
  appName (snd (updateFromJsonLine
                  (DeserializationOk (statusDoc F32.zero 0 0 F32.nan 0 0 F32.nan F32.nan))
                  world0))
  = "editor"%string
  /\ startsWithSpace "editor" = false.
Proof.
  destruct (app_name_is_stored_trimmed
              (statusDoc F32.zero 0 0 F32.nan 0 0 F32.nan F32.nan) world0 " editor "
              eq_refl) as (_ & Hs & _).
  split; [reflexivity|exact Hs].
Defined.

(** ** The serial reader *)

Lemma substring_whole (n : nat) (s : string) :
  (String.length s <= n)%nat -> String.substring 0 n s = s.
Proof.
  revert s. induction n as [|n IH]; intros s H.
  - destruct s; [reflexivity|cbn in H; lia].
  - destruct s as [|c s]; [reflexivity|]. cbn in *. rewrite IH by lia. reflexivity.
Qed.

Lemma substring_append_full (n : nat) (b x : string) :
  String.length b = n -> String.substring 0 n (b ++ x) = b.
Proof.
  revert b. induction n as [|n IH]; intros b H.
  - destruct b; [|discriminate]. destruct x; reflexivity.
  - destruct b as [|c b]; [discriminate|]. cbn in *. rewrite IH by lia. reflexivity.
Qed.

Lemma readChar_buffer (parse : string -> Deserialized) (st : string * World)
  (ct : ascii * Z) :
  Zlength_string (fst st) <= 1536 -> Zlength_string (fst (readChar parse st ct)) <= 1536.
Proof.
  destruct st as [line w], ct as [c t]. cbn [fst readChar]. intros H.
  destruct (isLineEnd c); [cbn; lia|]. cbn [fst].
  destruct (Z.ltb_spec (Zlength_string line) 1536); [|exact H].
  unfold Zlength_string in *. rewrite append_length. cbn. lia.
Qed.

(** Characters that end no line pile up in the buffer, up to 1536 of
    them. *)
Lemma readSerial_text (parse : string -> Deserialized) (chars : list (ascii * Z)) :
  forall (b : string) (w : World),
    noLineEnd chars = true -> Zlength_string b <= 1536 ->
    readSerial parse chars (b, w)
    = (String.substring 0 1536 (b ++ textOf chars), w).
Proof.
  unfold readSerial, textOf.
  induction chars as [|[c t] chars IH]; intros b w Hno Hb.
  - cbn. rewrite append_empty_r, substring_whole; [reflexivity|].
    unfold Zlength_string in Hb. lia.
  - cbn [noLineEnd forallb fst] in Hno. apply andb_true_iff in Hno as [Hc Hno].
    apply negb_true_iff in Hc. cbn [fold_left readChar map fst string_of_list_ascii].
    rewrite Hc. destruct (Z.ltb_spec (Zlength_string b) 1536) as [Hlt|Hge].
    + rewrite IH; [|exact Hno|].
      * rewrite append_assoc. reflexivity.
      * unfold Zlength_string in *. rewrite append_length. cbn. lia.
    + rewrite IH by assumption.
      assert (Hlen : String.length b = 1536%nat) by (unfold Zlength_string in *; lia).
      rewrite !substring_append_full by exact Hlen. reflexivity.
Qed.

(** X2: the line buffer never holds more than 1536 characters, whatever
    arrives; the characters of an unterminated line beyond the first 1536 are
    dropped, and reading them changes nothing else. *)
Theorem serial_buffer_is_bounded :
  forall (parse : string -> Deserialized) (chars : list (ascii * Z))
         (line : string) (w : World),
    Zlength_string line <= 1536 ->
    Zlength_string (fst (readSerial parse chars (line, w))) <= 1536
    /\ (noLineEnd chars = true ->
        readSerial parse chars (line, w)
        = (String.substring 0 1536 (line ++ textOf chars), w)).
Proof.
  intros parse chars line w Hb. split; [|intros Hno; now apply readSerial_text].
  unfold readSerial. revert line w Hb.
  induction chars as [|ct chars IH]; intros line w Hb; [exact Hb|].
  cbn [fold_left]. pose proof (readChar_buffer parse (line, w) ct Hb) as H.
  destruct (readChar parse (line, w) ct) as [line' w']. now apply IH.
Qed.

Lemma serial_buffer_is_bounded_witness :
  Zlength_string
    (fst (readSerial (fun _ => DeserializationOk emptyDoc)
            [("a"%char, 0); ("010"%char, 5); ("b"%char, 7)] (""%string, world0))) <= 1536
  /\ readSerial (fun _ => DeserializationOk emptyDoc)
       [("a"%char, 0); ("b"%char, 7)] (""%string, world0)
     = ("ab"%string, world0).
Proof.
  split.
  - apply serial_buffer_is_bounded. vm_compute. discriminate.
  - apply (serial_buffer_is_bounded (fun _ => DeserializationOk emptyDoc)
             [("a"%char, 0); ("b"%char, 7)] ""%string world0).
    + vm_compute. discriminate.
    + reflexivity.
Defined.

(** X1: a terminated line is cut to 1536 characters, trimmed, and, unless
    nothing is left, parsed and decoded once, whichever of the two line ends
    closes it; the buffer is empty afterwards.  A line of whitespace only is
    dropped without a parse, so without an error message. *)
Theorem serial_line_is_trimmed_and_decoded :
  forall (parse : string -> Deserialized) (chars : list (ascii * Z))
         (c : ascii) (t : Z) (w : World),
    noLineEnd chars = true -> isLineEnd c = true ->
    let line := trim (String.substring 0 1536 (textOf chars)) in
    readSerial parse (chars ++ [(c, t)]) (""%string, w)
    = (""%string, if 0 <? Zlength_string line then receiveLine w (parse line, t) else w)
    /\ (allSpaces (textOf chars) = true ->
        readSerial parse (chars ++ [(c, t)]) (""%string, w) = (""%string, w)).
Proof.
  intros parse chars c t w Hno Hc line.
  assert (Hread : readSerial parse (chars ++ [(c, t)]) (""%string, w)
                  = (""%string,
                     if 0 <? Zlength_string line
                     then receiveLine w (parse line, t) else w)).
  { unfold readSerial. rewrite fold_left_app.
    fold (readSerial parse chars (""%string, w)).
    rewrite (readSerial_text parse chars ""%string w Hno) by (cbn; lia).
    cbn [fold_left readChar append]. rewrite Hc. reflexivity. }
  split; [exact Hread|].
  intros Hall. rewrite Hread.
  assert (Hl : line = ""%string).
  { unfold line. apply trim_allSpaces.
    destruct (substring_prefix 1536 (textOf chars)) as [rest Hrest].
    rewrite Hrest, allSpaces_append in Hall. now apply andb_true_iff in Hall as [H _]. }
  rewrite Hl. reflexivity.
Qed.

Lemma serial_line_is_trimmed_and_decoded_witness :
  readSerial (fun _ => DeserializationOk emptyDoc)
    ([(" "%char, 0); ("{"%char, 1); ("}"%char, 2)] ++ [("013"%char, 3)]) (""%string, world0)
  = (""%string, receiveLine world0 (DeserializationOk emptyDoc, 3)).
Proof.
  destruct (serial_line_is_trimmed_and_decoded (fun _ => DeserializationOk emptyDoc)
              [(" "%char, 0); ("{"%char, 1); ("}"%char, 2)] "013"%char 3 world0)
    as [H _]; [reflexivity|reflexivity|].
  exact H.
Defined.

(** X3: whitespace never reaches the parser.  Characters that are all
    blanks, tabs or line ends, in any order and on top of a blank buffer,
    leave the program state as it was: no decode and no error message, so
    the second character of a CR LF pair and empty lines cost nothing. *)
Theorem blank_input_is_ignored :
  forall (parse : string -> Deserialized) (chars : list (ascii * Z))
         (line : string) (w : World),
    forallb (fun ct => isspace (fst ct)) chars = true ->
    allSpaces line = true ->
    snd (readSerial parse chars (line, w)) = w
    /\ allSpaces (fst (readSerial parse chars (line, w))) = true.
Proof.
  intros parse chars. unfold readSerial.
  induction chars as [|[c t] chars IH]; intros line w Hcs Hl; [split; [reflexivity|exact Hl]|].
  cbn [forallb fst] in Hcs. apply andb_true_iff in Hcs as [Hc Hcs].
  cbn [fold_left readChar]. destruct (isLineEnd c).
  - rewrite (trim_allSpaces line Hl). cbn [Zlength_string String.length Z.of_nat Z.ltb Z.compare].
    apply IH; [exact Hcs|reflexivity].
  - apply IH; [exact Hcs|].
    destruct (Zlength_string line <? 1536); [|exact Hl].
    rewrite allSpaces_append, Hl. cbn [allSpaces]. now rewrite Hc.
Qed.

Lemma blank_input_is_ignored_witness :
  snd (readSerial (fun _ => DeserializationError "EmptyInput")
         [("013"%char, 1); ("010"%char, 2); (" "%char, 3); ("010"%char, 4)]
         (" "%string, world0))
  = world0.
Proof.
  apply (blank_input_is_ignored (fun _ => DeserializationError "EmptyInput")
           [("013"%char, 1); ("010"%char, 2); (" "%char, 3); ("010"%char, 4)]
           " "%string world0); reflexivity.
Defined.

Lemma readSerial_lines (parse : string -> Deserialized) (chars : list (ascii * Z)) :
  forall (line : string) (w : World),
    snd (readSerial parse chars (line, w))
    = fold_left receiveLine (completedLines parse line chars) w.
Proof.
  unfold readSerial.
  induction chars as [|[c t] chars IH]; intros line w; [reflexivity|].
  cbn [fold_left readChar completedLines]. destruct (isLineEnd c).
  - rewrite IH, fold_left_app. destruct (0 <? Zlength_string (trim line)); reflexivity.
  - apply IH.
Qed.

(** X4: reading the serial characters of a pass is the same as handing the
    lines they complete, in order, to the decoder: the state the reader
    leaves is the one [drainSerial] computes from the frame of those lines,
    and which lines are completed depends on the characters and the buffer
    only, not on the program state. *)
Theorem serial_reader_feeds_the_frame :
  forall (parse : string -> Deserialized) (chars : list (ascii * Z))
         (line : string) (w : World) (f : Frame),
    received f = completedLines parse line chars ->
    snd (readSerial parse chars (line, w)) = drainSerial f w.
Proof.
  intros parse chars line w f Hf. unfold drainSerial. rewrite Hf.
  apply readSerial_lines.
Qed.

Lemma serial_reader_feeds_the_frame_witness :
  snd (readSerial (fun _ => DeserializationOk emptyDoc)
         [("{"%char, 1); ("}"%char, 2); ("010"%char, 3)] (""%string, world0))
  = drainSerial (frameWith [(DeserializationOk emptyDoc, 3)] 3) world0.
Proof. apply serial_reader_feeds_the_frame. reflexivity. Defined.

(** ** The face stays in its corner *)

Ltac case_on t :=
  match goal with
  | |- context [t] => destruct t
  | _ => idtac
  end.

(** X10: whatever the snapshot and the state of the animation, with the head
    bob in its range -1 .. 1, every shape of the face lies in the columns
    71 .. 109 and the rows 10 .. 43: clear of the header (rows 0 .. 9), of the
    gauges (columns up to 41) and of the ticker line (row 55). *)
Theorem face_stays_in_its_corner :
  forall (f : Frame) (d : DataState) (u : UIState),
    -1 <= headBob u <= 1 ->
    forallb (insideBox 71 10 109 43) (fst (drawInfoLines f d u)) = true.
Proof.
  intros f d u Hbob. unfold drawInfoLines.
  destruct (sleepBubble f u) as [zzMs zzStep]. cbv zeta. cbn [fst].
  rewrite !forallb_app, !andb_true_iff.
  assert (Hb : headBob u = -1 \/ headBob u = 0 \/ headBob u = 1) by lia.
  destruct Hb as [-> | [-> | ->]]; repeat split;
    case_on (browsOf (tamaSleeping u) (moodLoad d));
    case_on (mouthOf (tamaSleeping u) (moodLoad d));
    case_on (tamaSleeping u); case_on (tamaBlink u); case_on (tamaWink u);
    case_on (tamaSweat u); case_on (zzStep =? 1); case_on (zzStep =? 2);
    vm_compute; reflexivity.
Qed.

Lemma face_stays_in_its_corner_witness :
  forallb (insideBox 71 10 109 43)
    (fst (drawInfoLines (frameAt 0) (snapshotOf F32.hundred 8000 4000)
            (ui (settledAt F32.hundred true 0 2 0))))
  = true.
Proof. apply face_stays_in_its_corner. cbn. lia. Defined.

(** ** The ticker *)

Lemma tick_ticker (f : Frame) (w : World) :
  tickerX (ui (tick f w))
  = (if tickerX (ui w) - 1 + tickerW (ui w) <? 0 then SCREEN_WIDTH else tickerX (ui w) - 1)
  /\ tickerW (ui (tick f w)) = tickerW (ui w)
  /\ tickerText (ui (tick f w)) = tickerText (ui w).
Proof.
  unfold tick, render, drawInfoLines.
  destruct (sleepBubble f _). repeat split; reflexivity.
Qed.

(** X7: between decodes the ticker moves one pixel to the left per tick,
    until the whole text has left the screen, and then starts again at the
    right edge: from position [x] with text width [W] it is at [x - n] after
    [n <= x + W] ticks and back at [SCREEN_WIDTH] after [x + W + 1] ticks, so
    from the right edge the cycle takes [W + 129] ticks.  Text and width do
    not change.  ([1 <= W] holds in every reachable state.) *)
Theorem ticker_scrolls_and_wraps :
  forall (fs : list Frame) (w : World),
    let x := tickerX (ui w) in
    let W := tickerW (ui w) in
    let n := Z.of_nat (List.length fs) in
    1 <= W -> 0 <= x + W ->
    tickerW (ui (ticksOf fs w)) = W
    /\ tickerText (ui (ticksOf fs w)) = tickerText (ui w)
    /\ (n <= x + W -> tickerX (ui (ticksOf fs w)) = x - n)
    /\ (n = x + W + 1 -> tickerX (ui (ticksOf fs w)) = SCREEN_WIDTH).
Proof.
  induction fs as [|f fs IH]; intros w x W n HW Hx.
  - subst n. cbn [List.length ticksOf fold_left Z.of_nat].
    repeat split; intros; lia.
  - destruct (tick_ticker f w) as (Htx & Htw & Htt).
    change (ticksOf (f :: fs) w) with (ticksOf fs (tick f w)).
    subst n. cbn [List.length]. rewrite Nat2Z.inj_succ.
    fold x W in Htx, Htw. revert Htx.
    destruct (Z.ltb_spec (x - 1 + W) 0) as [Hwrap|Hgo]; intros Htx.
    + (* the text has just left the screen *)
      assert (Hxw : x + W = 0) by lia.
      destruct fs as [|f' fs'].
      * cbn [ticksOf fold_left List.length Z.of_nat]. rewrite Htx, Htw, Htt.
        repeat split; intros; lia.
      * cbn [List.length]. rewrite Nat2Z.inj_succ.
        destruct (IH (tick f w)) as (I1 & I2 & _);
          [rewrite Htw; lia|rewrite Htx, Htw; unfold SCREEN_WIDTH; lia|].
        rewrite I1, I2, Htw, Htt. repeat split; intros; lia.
    + destruct (IH (tick f w)) as (I1 & I2 & I3 & I4);
        [rewrite Htw; lia|rewrite Htx, Htw; lia|].
      rewrite Htx, Htw in I3, I4. rewrite I1, I2, Htw, Htt.
      split; [reflexivity|]. split; [reflexivity|]. split; intros H.
      * rewrite I3 by lia. lia.
      * apply I4. lia.
Qed.

(** From the right edge with the placeholder text, 102 pixels wide. *)
Lemma ticker_scrolls_and_wraps_witness :
  let w := settledAt F32.zero false 0 0 1000 in
  tickerX (ui (ticksOf [frameAt 1060; frameAt 1120; frameAt 1180] w)) = 125.
Proof.
  intros w.
  destruct (ticker_scrolls_and_wraps [frameAt 1060; frameAt 1120; frameAt 1180] w)
    as (_ & _ & H & _).
  - vm_compute. discriminate.
  - vm_compute. discriminate.
  - apply H. vm_compute. discriminate.
Defined.

(** ** Counters *)

Lemma land_3_range (z : Z) : 0 <= Z.land z 3 <= 3.
Proof.
  assert (H : Z.land z 3 = z mod 4) by (apply (Z.land_ones z 2); lia).
  rewrite H. pose proof (Z.mod_pos_bound z 4 ltac:(lia)). lia.
Qed.

Lemma countersOk_world0 : countersOk world0.
Proof. unfold countersOk. cbn. repeat split; try lia; discriminate. Qed.

Lemma tickerOf_length (d : DataState) : 3 <= Zlength_string (tickerOf d).
Proof.
  rewrite tickerOf_fields. unfold tickerFrom, Zlength_string.
  destruct (tickerFields d); rewrite append_length; cbn; lia.
Qed.

Lemma countersOk_receiveLine (w : World) (l : Deserialized * Z) :
  countersOk w -> countersOk (receiveLine w l).
Proof.
  intros (Hm & Hs & Hx & Hw & Ht). destruct l as [[e|doc] t].
  { unfold countersOk. cbn. auto. }
  pose proof (tickerOf_length (mergeDoc doc (data w))) as Hlen.
  unfold countersOk. cbn -[Z.mul]. unfold textWidth.
  set (n := Zlength_string (tickerOf (mergeDoc doc (data w)))) in *.
  destruct (Z.ltb_spec SCREEN_WIDTH (tickerX (ui w))), (Z.ltb_spec (n * 6 * 1) 1);
    repeat split; try lia; intros; lia.
Qed.

Lemma countersOk_drainSerial (f : Frame) (w : World) :
  countersOk w -> countersOk (drainSerial f w).
Proof.
  unfold drainSerial. generalize (received f) as ls. intros ls. revert w.
  induction ls as [|l ls IH]; intros w H; [exact H|].
  cbn [fold_left]. apply IH, countersOk_receiveLine, H.
Qed.

Lemma tick_counters (f : Frame) (w : World) :
  tamaMouthPhase (ui (tick f w))
  = (if 300 <? u32 (ms_now f - tamaMouthMs (ui w))
     then Z.land (tamaMouthPhase (ui w) + 1) 3 else tamaMouthPhase (ui w))
  /\ hasData (ui (tick f w)) = hasData (ui w).
Proof.
  unfold tick, render, drawInfoLines.
  destruct (sleepBubble f _). split; reflexivity.
Qed.

Lemma countersOk_tick (f : Frame) (w : World) : countersOk w -> countersOk (tick f w).
Proof.
  intros (Hm & Hs & Hx & Hw & Ht).
  destruct (tick_ticker f w) as (Htx & Htw & Htt).
  destruct (tick_counters f w) as (Hmp & Hhd).
  assert (Hstep : sleepStep (ui (tick f w))
                  = let s := sleepStep (ui (animate f (stampAnim f w))) in
                    if tamaSleeping (ui (animate f (stampAnim f w)))
                       && (600 <? u32 (ms_zz f - sleepMs (ui (animate f (stampAnim f w)))))
                    then Z.rem (s + 1) 3 else s) by apply render_sleepStep.
  pose proof (animate_sleepStep f (stampAnim f w)) as Hs1.
  change (sleepStep (ui (stampAnim f w))) with (sleepStep (ui w)) in Hs1.
  cbv zeta in Hstep. set (s := sleepStep (ui (animate f (stampAnim f w)))) in *.
  assert (Hs2 : 0 <= s <= 2) by (rewrite Hs1; destruct (lowLoad _); lia).
  pose proof (Z.rem_bound_pos (s + 1) 3 ltac:(lia) ltac:(lia)) as Hrem.
  pose proof (land_3_range (tamaMouthPhase (ui w) + 1)) as Hland.
  unfold countersOk. rewrite Htx, Htw, Htt, Hmp, Hhd, Hstep.
  split; [destruct (300 <? _); lia|].
  split; [destruct (_ && _); lia|].
  split; [destruct (_ <? 0); unfold SCREEN_WIDTH in *; lia|].
  split; assumption.
Qed.

Lemma countersOk_loop (f : Frame) (w : World) : countersOk w -> countersOk (loop f w).
Proof.
  intros H. apply (countersOk_drainSerial f) in H. unfold loop.
  destruct (lastDataMs (drainSerial f w) =? 0).
  - unfold paintWaiting. now destruct (_ <? _).
  - assert (Hc : countersOk (connectionCheck f (drainSerial f w))).
    { unfold connectionCheck. now destruct (stale _ _). }
    destruct (animationDue _ _); [|exact Hc].
    apply (countersOk_tick f (connectionCheck f (drainSerial f w))) in Hc. exact Hc.
Qed.

(** X8: in every state the firmware reaches from power-on, whatever it
    receives, the mouth phase is 0 .. 3, the phase of the sleep bubble is
    0 .. 2, the ticker is never right of the right edge, and once a line has been
    decoded the ticker width is 6 pixels per character of its text and at
    least 18: the guard of line 177 against a width below 1 never fires. *)
Theorem counters_stay_in_range :
  forall (fs : list Frame),
    let w := run fs world0 in
    0 <= tamaMouthPhase (ui w) <= 3
    /\ 0 <= sleepStep (ui w) <= 2
    /\ tickerX (ui w) <= SCREEN_WIDTH
    /\ 1 <= tickerW (ui w)
    /\ (hasData (ui w) = true ->
        tickerW (ui w) = 6 * Zlength_string (tickerText (ui w)) /\ 18 <= tickerW (ui w)).
Proof.
  intros fs. cbv zeta. change (countersOk (run fs world0)).
  unfold run. generalize countersOk_world0. generalize world0.
  induction fs as [|f fs IH]; intros w H; [exact H|].
  cbn [fold_left]. apply IH, countersOk_loop, H.
Qed.

Lemma counters_stay_in_range_witness :
  let w := run [frameWith [(DeserializationOk emptyDoc, 1000)] 1000; frameAt 1060] world0 in
  tickerW (ui w) = 6 * Zlength_string (tickerText (ui w)) /\ 18 <= tickerW (ui w).
Proof.
  intros w.
  destruct (counters_stay_in_range
              [frameWith [(DeserializationOk emptyDoc, 1000)] 1000; frameAt 1060])
    as (_ & _ & _ & _ & H).
  apply H. reflexivity.
Defined.

(** ** Before the first decode *)

Lemma receiveLine_failure (w : World) (l : Deserialized * Z) :
  failsToParse l = true ->
  data (receiveLine w l) = data w /\ ui (receiveLine w l) = ui w
  /\ appName (receiveLine w l) = appName w
  /\ lastDataMs (receiveLine w l) = lastDataMs w
  /\ lastAnim (receiveLine w l) = lastAnim w
  /\ lastPaint (receiveLine w l) = lastPaint w
  /\ List.length (serialOut (receiveLine w l)) = S (List.length (serialOut w)).
Proof.
  destruct l as [[e|doc] t]; [|discriminate]. intros _. cbn.
  rewrite length_app. cbn. repeat split; lia.
Qed.

Lemma drainSerial_failures (f : Frame) (w : World) :
  forallb failsToParse (received f) = true ->
  data (drainSerial f w) = data w /\ ui (drainSerial f w) = ui w
  /\ appName (drainSerial f w) = appName w
  /\ lastDataMs (drainSerial f w) = lastDataMs w
  /\ lastAnim (drainSerial f w) = lastAnim w
  /\ lastPaint (drainSerial f w) = lastPaint w
  /\ List.length (serialOut (drainSerial f w))
     = (List.length (serialOut w) + List.length (received f))%nat.
Proof.
  unfold drainSerial. generalize (received f) as ls. intros ls. revert w.
  induction ls as [|l ls IH]; intros w H.
  - cbn. repeat split; lia.
  - cbn [forallb] in H. apply andb_true_iff in H as [Hl Hls]. cbn [fold_left List.length].
    destruct (receiveLine_failure w l Hl) as (R1 & R2 & R3 & R4 & R5 & R6 & R7).
    destruct (IH (receiveLine w l) Hls) as (I1 & I2 & I3 & I4 & I5 & I6 & I7).
    rewrite I1, I2, I3, I4, I5, I6, I7, R1, R2, R3, R4, R5, R6, R7.
    repeat split; lia.
Qed.

(** X5: until a line has been decoded nothing is animated.  A pass that
    starts with no decode on record and receives only lines that fail to
    parse leaves the snapshot, the whole UI state and the application name
    as they are and still has no decode on record; it prints one error
    message per line and repaints the waiting screen at most once per
    1000 ms. *)
Theorem nothing_moves_before_the_first_decode :
  forall (f : Frame) (w : World),
    lastDataMs w = 0 ->
    forallb failsToParse (received f) = true ->
    data (loop f w) = data w
    /\ ui (loop f w) = ui w
    /\ appName (loop f w) = appName w
    /\ lastDataMs (loop f w) = 0
    /\ lastAnim (loop f w) = lastAnim w
    /\ lastPaint (loop f w)
       = (if u32 (ms_wait f - lastPaint w) <? 1000 then lastPaint w else ms_wait_set f)
    /\ List.length (serialOut (loop f w))
       = (List.length (serialOut w) + List.length (received f))%nat.
Proof.
  intros f w H0 Hfail.
  destruct (drainSerial_failures f w Hfail) as (D1 & D2 & D3 & D4 & D5 & D6 & D7).
  unfold loop. rewrite D4, H0. cbn [Z.eqb]. unfold paintWaiting. rewrite D6.
  destruct (u32 (ms_wait f - lastPaint w) <? 1000); cbn;
    repeat split; congruence.
Qed.

Lemma nothing_moves_before_the_first_decode_witness :
  ui (loop (frameWith [(DeserializationError "InvalidInput", 1000)] 1000) world0) = ui0
  /\ lastPaint (loop (frameWith [(DeserializationError "InvalidInput", 1000)] 1000) world0)
     = 1000.
Proof.
  destruct (nothing_moves_before_the_first_decode
              (frameWith [(DeserializationError "InvalidInput", 1000)] 1000) world0)
    as (_ & H2 & _ & _ & _ & H6 & _); [reflexivity|reflexivity|].
  split; [exact H2|exact H6].
Defined.

(** ** The frame rate *)

Lemma receiveLine_animated (w : World) (l : Deserialized * Z) :
  lastAnim (receiveLine w l) = lastAnim w
  /\ curCpu (ui (receiveLine w l)) = curCpu (ui w)
  /\ curRamRatio (ui (receiveLine w l)) = curRamRatio (ui w)
  /\ curNetRatio (ui (receiveLine w l)) = curNetRatio (ui w).
Proof. destruct l as [[e|doc] t]; repeat split; reflexivity. Qed.

Lemma drainSerial_animated (f : Frame) (w : World) :
  lastAnim (drainSerial f w) = lastAnim w
  /\ curCpu (ui (drainSerial f w)) = curCpu (ui w)
  /\ curRamRatio (ui (drainSerial f w)) = curRamRatio (ui w)
  /\ curNetRatio (ui (drainSerial f w)) = curNetRatio (ui w).
Proof.
  unfold drainSerial. generalize (received f) as ls. intros ls. revert w.
  induction ls as [|l ls IH]; intros w; [repeat split; reflexivity|].
  cbn [fold_left]. destruct (IH (receiveLine w l)) as (-> & -> & -> & ->).
  apply receiveLine_animated.
Qed.

Lemma connectionCheck_animated (f : Frame) (w : World) :
  lastAnim (connectionCheck f w) = lastAnim w
  /\ curCpu (ui (connectionCheck f w)) = curCpu (ui w)
  /\ curRamRatio (ui (connectionCheck f w)) = curRamRatio (ui w)
  /\ curNetRatio (ui (connectionCheck f w)) = curNetRatio (ui w).
Proof. unfold connectionCheck. destruct (stale _ _); repeat split; reflexivity. Qed.

Lemma loop_lastAnim (f : Frame) (w : World) :
  lastAnim (loop f w) = if ticks f w then ms_anim f else lastAnim w.
Proof.
  destruct (ticks f w) eqn:Ht.
  - rewrite (loop_ticks f w Ht). unfold render, drawInfoLines.
    destruct (sleepBubble f _). reflexivity.
  - rewrite (loop_no_tick f w Ht).
    destruct (lastDataMs (drainSerial f w) =? 0).
    + unfold paintWaiting. destruct (_ <? _); cbn; apply drainSerial_animated.
    + destruct (connectionCheck_animated f (drainSerial f w)) as (-> & _).
      apply drainSerial_animated.
Qed.

(** X6: the animation runs at most once per 60 ms.  After a pass that
    ticked, a pass whose clock reads less than 60 ms more than the time
    stamp of that tick does not tick, whatever it receives: the three
    animated values and the time stamp stay as they are. *)
Theorem ticks_are_60_ms_apart :
  forall (f f' : Frame) (w : World),
    ticks f w = true ->
    u32 (ms_gate f' - ms_anim f) < 60 ->
    let w' := loop f w in
    ticks f' w' = false
    /\ lastAnim (loop f' w') = ms_anim f
    /\ curCpu (ui (loop f' w')) = curCpu (ui w')
    /\ curRamRatio (ui (loop f' w')) = curRamRatio (ui w')
    /\ curNetRatio (ui (loop f' w')) = curNetRatio (ui w').
Proof.
  intros f f' w Ht Hgate w'.
  assert (Hla : lastAnim w' = ms_anim f) by (unfold w'; now rewrite loop_lastAnim, Ht).
  assert (Hno : ticks f' w' = false).
  { unfold ticks, animationDue.
    destruct (connectionCheck_animated f' (drainSerial f' w')) as (-> & _).
    destruct (drainSerial_animated f' w') as (-> & _). rewrite Hla.
    apply Z.ltb_lt in Hgate. rewrite Hgate. apply andb_false_r. }
  split; [exact Hno|]. split; [now rewrite loop_lastAnim, Hno|].
  rewrite (loop_no_tick f' w' Hno).
  destruct (drainSerial_animated f' w') as (_ & D1 & D2 & D3).
  destruct (lastDataMs (drainSerial f' w') =? 0).
  - rewrite paintWaiting_ui. auto.
  - destruct (connectionCheck_animated f' (drainSerial f' w')) as (_ & -> & -> & ->). auto.
Qed.

Lemma ticks_are_60_ms_apart_witness :
  let w := settledAt F32.hundred false 0 0 1000 in
  ticks (frameAt 1100) (loop (frameAt 1060) w) = false.
Proof.
  intros w.
  destruct (ticks_are_60_ms_apart (frameAt 1060) (frameAt 1100) w) as (H & _).
  - vm_compute. reflexivity.
  - vm_compute. reflexivity.
  - exact H.
Defined.

(** ** Blinking *)

(** X9: a blink is due when the clock has passed [tamaNextBlink].  The
    tick that finds it due closes the eyes until 120 ms later and sets the
    next blink between 2000 and 4999 ms later; a tick that finds none due
    keeps the schedule and opens the eyes once the clock has passed
    [tamaBlinkUntil].  (The clock is taken 5 s clear of its wrap at
    [2^32].)  A wink never starts on a tick that ends with the eyes closed
    by a blink. *)
Theorem blink_schedule :
  forall (f : Frame) (w : World),
    let now := ms_now f in
    let u := ui w in
    let u' := ui (animate f w) in
    0 <= now -> now + 5000 < 2 ^ 32 ->
    (tamaNextBlink u < now ->
     tamaBlink u' = true /\ tamaBlinkUntil u' = now + 120
     /\ now + 2000 <= tamaNextBlink u' <= now + 4999)
    /\ (now <= tamaNextBlink u ->
        tamaNextBlink u' = tamaNextBlink u /\ tamaBlinkUntil u' = tamaBlinkUntil u
        /\ tamaBlink u' = (tamaBlink u && (now <=? tamaBlinkUntil u)))
    /\ (tamaWink u = false -> tamaBlink u' = true -> tamaWink u' = false).
Proof.
  intros f w now u u' H0 Hwrap.
  assert (Hb : tamaBlink u'
               = let due := tamaNextBlink u <? now in
                 let blink := if due then true else tamaBlink u in
                 let blinkUntil := if due then u32 (now + 120) else tamaBlinkUntil u in
                 if blink && (blinkUntil <? now) then false else blink) by reflexivity.
  assert (Hbu : tamaBlinkUntil u'
                = if tamaNextBlink u <? now then u32 (now + 120) else tamaBlinkUntil u)
    by reflexivity.
  assert (Hnb : tamaNextBlink u'
                = if tamaNextBlink u <? now then u32 (now + 2000 + now mod 3000)
                  else tamaNextBlink u) by reflexivity.
  assert (Hwk : tamaWink u'
                = let winks := (nextWink w <? now) && (rnd_wink f <? 10) && negb (tamaBlink u') in
                  let wink := if winks then true else tamaWink u in
                  let winkUntil := if winks then u32 (now + 120) else tamaWinkUntil u in
                  if wink && (winkUntil <? now) then false else wink) by reflexivity.
  cbv zeta in Hb, Hwk.
  pose proof (Z.mod_pos_bound now 3000 ltac:(lia)) as Hmod.
  assert (H120 : u32 (now + 120) = now + 120) by (apply Z.mod_small; lia).
  assert (Hnext : u32 (now + 2000 + now mod 3000) = now + 2000 + now mod 3000)
    by (apply Z.mod_small; lia).
  split; [|split].
  - intros Hdue. apply Z.ltb_lt in Hdue. rewrite Hb, Hbu, Hnb, Hdue, H120, Hnext.
    cbn [andb]. destruct (Z.ltb_spec (now + 120) now); [lia|].
    repeat split; lia.
  - intros Hnot. assert (Hdue : (tamaNextBlink u <? now) = false) by (apply Z.ltb_ge; lia).
    rewrite Hb, Hbu, Hnb, Hdue. split; [reflexivity|]. split; [reflexivity|].
    rewrite Z.leb_antisym. destruct (tamaBlink u), (tamaBlinkUntil u <? now); reflexivity.
  - intros Hw Hblink. rewrite Hwk, Hblink, Hw, andb_false_r. reflexivity.
Qed.

Lemma blink_schedule_witness :
  let w := settledAt F32.zero false 0 0 1000 in
  tamaBlink (ui (animate (frameAt 1060) w)) = true
  /\ tamaBlinkUntil (ui (animate (frameAt 1060) w)) = 1180.
Proof.
  intros w.
  destruct (blink_schedule (frameAt 1060) w) as (H & _).
  - cbn. lia.
  - cbn. lia.
  - destruct H as (H1 & H2 & _); [cbn; lia|].
    split; [exact H1|exact H2].
Defined.

(** * More binary32 facts *)

Lemma sub_valid (x y : F32.float) :
  F32.valid x = true -> F32.valid y = true -> F32.valid (F32.sub x y) = true.
Proof.
  intros Hx Hy.
  destruct x as [sx|sx| |sx mx ex], y as [sy|sy| |sy my ey]; try reflexivity;
    try assumption.
  - destruct sx, sy; reflexivity.
  - destruct sx, sy; reflexivity.
  - apply binary_normalize_valid.
Qed.

(** The value of the number built from a rounded mantissa. *)
Lemma round_result_scaled (s : bool) (mr E K : Z) :
  0 <= mr <= 2 ^ 24 -> -149 <= E <= 103 -> 150 <= K ->
  F32.is_finite (round_result s mr E) = true
  /\ scaled K (round_result s mr E) = cond_Zopp s (mr * 2 ^ (E + K)).
Proof.
  intros Hmr HE HK. unfold round_result.
  destruct (Z.eqb_spec mr 0) as [->|H0]; [split; [reflexivity|destruct s; reflexivity]|].
  destruct (Z.eqb_spec mr (2 ^ 24)) as [->|H24].
  - destruct (Z.leb_spec (E + 1) 104); [|lia]. split; [reflexivity|]. cbn [scaled].
    replace (E + 1 + K) with (1 + (E + K)) by lia. rewrite pow2_split by lia.
    f_equal. change (Z.pos (2 ^ 23)) with (2 ^ 23). change (2 ^ 1) with 2. lia.
  - destruct (Z.leb_spec E 104); [|lia]. split; [reflexivity|]. cbn [scaled].
    rewrite Z2Pos.id by lia. reflexivity.
Qed.

(** The quotient of two valid finite numbers, as the rounding of a
    fraction [N / D] scaled by [2^e]: [x / y = N / D * 2^e] exactly. *)
Lemma div_core (sx sy : bool) (mx my : positive) (ex ey : Z) :
  F32.valid (S754_finite sx mx ex) = true -> F32.valid (S754_finite sy my ey) = true ->
  exists N e,
    0 < N
    /\ e = Z.min (fexp32 (Z.pos (digits2_pos mx) + ex - (Z.pos (digits2_pos my) + ey)))
                 (ex - ey)
    /\ N = Z.pos mx * 2 ^ (ex - ey - e)
    /\ e <= fexp32 (Zdigits2 (N / Z.pos my) + e)
    /\ 0 <= rne N (Z.pos my * 2 ^ (fexp32 (Zdigits2 (N / Z.pos my) + e) - e)) <= 2 ^ 24
    /\ F32.div (S754_finite sx mx ex) (S754_finite sy my ey)
       = round_result (xorb sx sy)
           (rne N (Z.pos my * 2 ^ (fexp32 (Zdigits2 (N / Z.pos my) + e) - e)))
           (fexp32 (Zdigits2 (N / Z.pos my) + e)).
Proof.
  intros Hvx Hvy. apply valid_digits in Hvx, Hvy.
  destruct Hvx as (Hex & Hdx & Hdx' & Hmx & Hmx'). destruct Hvy as (Hey & Hdy & Hdy' & Hmy & Hmy').
  pose proof (digits2_pos_bounds mx) as [Hlx Hhx]. pose proof (digits2_pos_bounds my) as [Hly Hhy].
  set (d1 := Z.pos (digits2_pos mx)) in *. set (d2 := Z.pos (digits2_pos my)) in *.
  assert (Hd1 : 0 < d1) by (unfold d1; lia). assert (Hd2 : 0 < d2) by (unfold d2; lia).
  unfold F32.div, SFdiv, SFdiv_core_binary. change (fexp F32.prec F32.emax) with fexp32.
  change (Zdigits2 (Z.pos mx)) with d1. change (Zdigits2 (Z.pos my)) with d2.
  set (e' := Z.min (fexp32 (d1 + ex - (d2 + ey))) (ex - ey)).
  assert (He'lo : -253 <= e' <= ex - ey) by (unfold e', fexp32; lia).
  set (s := ex - ey - e').
  assert (Hs : 0 <= s) by (unfold s, e'; lia).
  set (m' := match s with Z.pos _ => Z.shiftl (Z.pos mx) s | 0 => Z.pos mx | Z.neg _ => 0 end).
  assert (Hm' : m' = Z.pos mx * 2 ^ s).
  { unfold m'. destruct s as [|p|p] eqn:Hsp; try lia.
    apply Z.shiftl_mul_pow2. lia. }
  clearbody m'.
  pose proof (pow2_pos s Hs) as Hps.
  assert (Hm'pos : 0 < m') by (rewrite Hm'; apply Z.mul_pos_pos; lia).
  pose proof (Z.div_mod m' (Z.pos my) ltac:(lia)) as Hdm.
  pose proof (Z.mod_pos_bound m' (Z.pos my) ltac:(lia)) as Hmod.
  assert (Hdiv : fst (Z.div_eucl m' (Z.pos my)) = m' / Z.pos my) by reflexivity.
  assert (Hmd : snd (Z.div_eucl m' (Z.pos my)) = m' mod Z.pos my) by reflexivity.
  destruct (Z.div_eucl m' (Z.pos my)) as [q r]. cbn [fst snd] in Hdiv, Hmd. subst q r.
  set (q := m' / Z.pos my) in *. set (r := m' mod Z.pos my) in *.
  assert (Hq0 : 0 <= q) by (apply Z.div_pos; lia).
  assert (Hal : e' <= fexp32 (Zdigits2 q + e')).
  { unfold fexp32. destruct (Z_le_gt_dec e' (-149)) as [|Hgt]; [lia|].
    assert (He'eq : e' = d1 + ex - (d2 + ey) - 24) by (unfold e', fexp32 in *; lia).
    assert (Hseq : s = 24 - d1 + d2) by (unfold s; lia).
    assert (H23 : 2 ^ 23 <= q).
    { apply Z.div_le_lower_bound; [lia|].
      assert (H1 : 2 ^ 23 * 2 ^ d2 <= m').
      { rewrite Hm', Hseq. replace (24 - d1 + d2) with ((24 - d1) + d2) by lia.
        rewrite pow2_split by lia.
        assert (2 ^ 23 <= Z.pos mx * 2 ^ (24 - d1)).
        { replace 23 with ((d1 - 1) + (24 - d1)) by lia. rewrite pow2_split by lia.
          apply Z.mul_le_mono_nonneg_r; [apply Z.lt_le_incl, pow2_pos|]; lia. }
        pose proof (pow2_pos d2 ltac:(lia)). nia. }
      nia. }
    apply Zdigits2_ge in H23; lia. }
  exists m', e'. split; [exact Hm'pos|]. split; [reflexivity|].
  split; [exact Hm'|]. fold q. split; [exact Hal|].
  destruct (binary_round_aux_spec (xorb sx sy) q e' (new_location (Z.pos my) r) m' (Z.pos my))
    as [Hmr Heq]; try lia; try reflexivity.
  { apply new_location_location_of. exact Hmod. }
  split; [exact Hmr|exact Heq].
Qed.

Lemma div_valid (x y : F32.float) :
  F32.valid x = true -> F32.valid y = true -> F32.valid (F32.div x y) = true.
Proof.
  intros Hx Hy.
  destruct x as [sx|sx| |sx mx ex], y as [sy|sy| |sy my ey]; try reflexivity.
  destruct (div_core sx sy mx my ex ey Hx Hy) as (N & e & HN & He & _ & Hal & _ & ->).
  apply (round_result_valid (xorb sx sy) (N / Z.pos my) e N (Z.pos my));
    try lia; reflexivity.
Qed.

(** A difference is on the same side of every valid number as the exact
    difference. *)
Lemma sub_between (x y z : F32.float) (K k : Z) :
  150 <= K -> k <= 127 -> 0 <= k + K ->
  finite x -> finite y -> finite z ->
  Z.abs (scaled K x - scaled K y) < 2 ^ (k + K) ->
  (scaled K x - scaled K y <= scaled K z -> scaled K (F32.sub x y) <= scaled K z)
  /\ (scaled K z <= scaled K x - scaled K y -> scaled K z <= scaled K (F32.sub x y)).
Proof.
  intros HK Hk HkK Hx Hy Hz Hlt.
  destruct x as [sx|sx| |sx mx ex], y as [sy|sy| |sy my ey];
    try (destruct Hx as [_ Hx]; discriminate Hx);
    try (destruct Hy as [_ Hy]; discriminate Hy).
  - assert (Hs : exists s, F32.sub (S754_zero sx) (S754_zero sy) = S754_zero s)
      by (destruct sx, sy; eexists; reflexivity).
    destruct Hs as [s ->]. cbn [scaled]. lia.
  - change (F32.sub (S754_zero sx) (S754_finite sy my ey)) with (S754_finite (negb sy) my ey).
    cbn [scaled]. destruct sy; cbn [negb cond_Zopp]; lia.
  - change (F32.sub (S754_finite sx mx ex) (S754_zero sy)) with (S754_finite sx mx ex).
    cbn [scaled]. lia.
  - pose proof (finite_exponent _ _ _ Hx) as Hex. pose proof (finite_exponent _ _ _ Hy) as Hey.
    unfold F32.sub, SFsub. set (ez := Z.min ex ey).
    destruct (shl_align_spec mx ex ez) as [_ Hmx]. destruct (shl_align_spec my ey ez) as [_ Hmy].
    rewrite Hmx, Hmy. rewrite (Z.min_r ex ez), (Z.min_r ey ez) by (unfold ez; lia).
    set (M := cond_Zopp sx _ - cond_Zopp sy _).
    assert (HM : M * 2 ^ (ez + K) = scaled K (S754_finite sx mx ex) - scaled K (S754_finite sy my ey)).
    { subst M. cbn [scaled]. rewrite Z.mul_sub_distr_r.
      assert (H1 : 2 ^ (ex + K) = 2 ^ (ex - ez) * 2 ^ (ez + K))
        by (rewrite <- pow2_split by (unfold ez; lia); f_equal; lia).
      assert (H2 : 2 ^ (ey + K) = 2 ^ (ey - ez) * 2 ^ (ez + K))
        by (rewrite <- pow2_split by (unfold ez; lia); f_equal; lia).
      rewrite H1, H2. destruct sx, sy; cbn [cond_Zopp]; ring. }
    destruct (binary_normalize_between M ez K k) as [H1 _]; try lia.
    rewrite HM in H1. apply H1, Hz.
Qed.

(** A product is on the same side of every valid number as the exact
    product. *)
Lemma mul_between (x z : F32.float) (sy : bool) (my : positive) (ey K k : Z) :
  150 <= K -> k <= 127 -> 0 <= k + K -> 149 <= ey + K ->
  finite x -> finite (S754_finite sy my ey) -> finite z ->
  Z.abs (scaled (ey + K) x) * Z.pos my < 2 ^ (k + K) ->
  let Q := cond_Zopp sy (scaled (ey + K) x * Z.pos my) in
  let P := scaled K (F32.mul x (S754_finite sy my ey)) in
  (Q <= scaled K z -> P <= scaled K z) /\ (scaled K z <= Q -> scaled K z <= P).
Proof.
  intros HK Hk HkK HeyK Hx Hy Hz Hlt Q P. subst Q P.
  destruct x as [sx|sx| |sx mx ex]; try (destruct Hx as [_ Hx]; discriminate Hx).
  - change (F32.mul (S754_zero sx) (S754_finite sy my ey)) with (S754_zero (xorb sx sy)).
    cbn [scaled]. destruct sy; cbn; lia.
  - pose proof (finite_exponent _ _ _ Hx) as Hex.
    pose proof (mul_aligned sx sy mx my ex ey Hx Hy) as Hal.
    cbn [scaled] in Hlt |- *.
    assert (Hee : ex + (ey + K) = ex + ey + K) by lia.
    rewrite Hee in *.
    pose proof (pow2_pos (ex + ey + K) ltac:(lia)) as Hpe.
    assert (Hlt' : Z.pos (mx * my) * 2 ^ (ex + ey + K) < 2 ^ (k + K)).
    { rewrite Pos2Z.inj_mul. destruct sx; cbn [cond_Zopp] in Hlt; lia. }
    destruct (binary_round_aux_between (xorb sx sy) (Z.pos (mx * my)) (ex + ey) K k z)
      as [H1 H2]; try lia; try assumption.
    change (F32.mul (S754_finite sx mx ex) (S754_finite sy my ey))
      with (binary_round_aux 24 128 (xorb sx sy) (Z.pos (mx * my)) (ex + ey) loc_Exact).
    assert (HQ : cond_Zopp sy (cond_Zopp sx (Z.pos mx * 2 ^ (ex + ey + K)) * Z.pos my)
                 = cond_Zopp (xorb sx sy) (Z.pos (mx * my) * 2 ^ (ex + ey + K))).
    { rewrite Pos2Z.inj_mul. destruct sx, sy; cbn [cond_Zopp xorb]; ring. }
    rewrite HQ. split; assumption.
Qed.

(** The sum of two non-negative numbers below a valid bound. *)
Lemma add_range (x y z : F32.float) :
  finite x -> finite y -> finite z ->
  0 <= scaled 175 x -> 0 <= scaled 175 y ->
  scaled 175 x + scaled 175 y <= scaled 175 z -> scaled 175 z < 2 ^ (127 + 175) ->
  finite (F32.add x y) /\ 0 <= scaled 175 (F32.add x y) <= scaled 175 z.
Proof.
  intros Hx Hy Hz Hx0 Hy0 Hle Hlt.
  assert (Habs : Z.abs (scaled 175 x + scaled 175 y) < 2 ^ (127 + 175)) by lia.
  destruct (add_scaled x y 175 127) as [Hf _]; try lia; try assumption.
  destruct (add_between x y z 175 127) as [Hup _]; try lia; try assumption.
  destruct (add_between x y F32.zero 175 127) as [_ Hdown]; try lia; try assumption;
    [apply finite_zero|].
  change (scaled 175 F32.zero) with 0 in Hdown.
  split; [exact Hf|]. split; [apply Hdown; lia|apply Hup; lia].
Qed.

(** [(int)x] of a non-negative finite number is its integer part. *)
Lemma to_int_floor (x : F32.float) (K : Z) :
  150 <= K -> finite x -> 0 <= scaled K x -> F32.to_int x = scaled K x / 2 ^ K.
Proof.
  intros HK Hx H0. destruct x as [s|s| |s m e];
    try (destruct Hx as [_ Hx]; discriminate Hx).
  - reflexivity.
  - pose proof (finite_exponent _ _ _ Hx) as He.
    pose proof (pow2_pos K ltac:(lia)) as HpK.
    pose proof (pow2_pos (e + K) ltac:(lia)) as HpeK.
    cbn [scaled] in *. destruct s; cbn [cond_Zopp] in *; [lia|].
    unfold F32.to_int. destruct e as [|p|p].
    + rewrite Z.shiftl_0_r. cbn [Z.add]. rewrite Z.div_mul by lia. reflexivity.
    + rewrite Z.shiftl_mul_pow2 by lia. rewrite pow2_split by lia.
      rewrite Z.mul_assoc, Z.div_mul by lia. reflexivity.
    + rewrite Z.shiftr_div_pow2 by lia.
      assert (HK2 : 2 ^ K = 2 ^ Z.pos p * 2 ^ (Z.neg p + K))
        by (rewrite <- pow2_split by lia; f_equal; lia).
      rewrite HK2, Z.div_mul_cancel_r by lia. reflexivity.
Qed.

(** ** The smoothed load *)

Lemma finite_of_within (hi x : F32.float) :
  F32.is_finite hi = true -> F32.valid x = true ->
  F32.within F32.zero hi x = true -> finite x.
Proof. intros Hhi Hv Hw. split; [exact Hv|]. now apply (within_is_finite hi). Qed.

(** A percentage in range divided by 100. *)
Lemma percent_range (c : F32.float) :
  finite c -> F32.within F32.zero F32.hundred c = true ->
  finite (F32.div c F32.hundred)
  /\ 0 <= scaled 175 (F32.div c F32.hundred) <= 2 ^ 175.
Proof.
  intros Hc Hw.
  assert (Hq : F32.within F32.zero F32.one (F32.div c F32.hundred) = true).
  { unfold F32.within in Hw. apply andb_true_iff in Hw as [H0 H1].
    destruct c as [s|s| |s m e]; try (destruct Hc as [_ Hc]; discriminate Hc).
    - destruct s; reflexivity.
    - destruct s; [discriminate H0|].
      apply div_le_one; [exact Hc|split; reflexivity|exact H1]. }
  assert (Hf : finite (F32.div c F32.hundred)).
  { apply (finite_of_within F32.one); [reflexivity| |exact Hq].
    apply div_valid; [apply Hc|reflexivity]. }
  split; [exact Hf|].
  apply (within_scaled F32.one _ ltac:(split; reflexivity) Hf) in Hq. exact Hq.
Qed.

(** Lines 469 and 482: with the animated values in range the load is a
    number between 0 and 1. *)
Lemma smoothedLoad_range (c r : F32.float) :
  finite c -> finite r ->
  F32.within F32.zero F32.hundred c = true -> F32.within F32.zero F32.one r = true ->
  finite (smoothedLoad c r)
  /\ 0 <= scaled 175 (smoothedLoad c r) <= 2 ^ 175.
Proof.
  intros Hc Hr Hwc Hwr.
  destruct (percent_range c Hc Hwc) as [Hq HQ].
  apply (within_scaled F32.one r ltac:(split; reflexivity) Hr) in Hwr.
  change (scaled 175 F32.one) with (2 ^ 175) in Hwr.
  unfold smoothedLoad. set (q := F32.div c F32.hundred) in *.
  assert (Hp302 : 2 ^ 177 < 2 ^ (127 + 175)) by (apply Z.pow_lt_mono_r; lia).
  assert (H176 : 2 ^ 176 = 2 * 2 ^ 175) by reflexivity.
  assert (H177 : 2 ^ 177 = 4 * 2 ^ 175) by reflexivity.
  pose proof (pow2_pos 175 ltac:(lia)) as Hp175.
  destruct (add_range F32.zero q F32.one (finite_zero false) Hq ltac:(split; reflexivity))
    as [Ha1 HA1]; try (change (scaled 175 F32.zero) with 0);
    try (change (scaled 175 F32.one) with (2 ^ 175)); try lia.
  change (scaled 175 F32.one) with (2 ^ 175) in HA1.
  set (a1 := F32.add F32.zero q) in *.
  destruct (add_range a1 r (F32.of_Z 2) Ha1 Hr ltac:(split; reflexivity))
    as [Ha2 HA2]; try (change (scaled 175 (F32.of_Z 2)) with (2 ^ 176)); try lia.
  change (scaled 175 (F32.of_Z 2)) with (2 ^ 176) in HA2.
  set (a2 := F32.add a1 r) in *.
  assert (Hsh : scaled 175 a2 = scaled 151 a2 * 2 ^ 24).
  { change 175 with (151 + 24). apply scaled_shift; [exact Ha2|lia|lia]. }
  change (2 ^ 24) with 16777216 in Hsh.
  assert (Hsmall : Z.abs (scaled (-24 + 175) a2) * Z.pos 8388608 < 2 ^ (2 + 175)).
  { change (-24 + 175) with 151. change (2 + 175) with 177. lia. }
  change F32.c0_5 with (S754_finite false 8388608 (-24)).
  destruct (mul_scaled a2 false 8388608 (-24) 175 2) as [Hl _];
    try lia; try assumption; try (split; reflexivity).
  destruct (mul_between a2 F32.one false 8388608 (-24) 175 2) as [Hup _];
    try lia; try assumption; try (split; reflexivity).
  destruct (mul_between a2 F32.zero false 8388608 (-24) 175 2) as [_ Hdown];
    try lia; try assumption; try (split; reflexivity).
  change (-24 + 175) with 151 in Hup, Hdown. cbn [cond_Zopp] in Hup, Hdown.
  change (scaled 175 F32.one) with (2 ^ 175) in Hup.
  change (scaled 175 F32.zero) with 0 in Hdown.
  split; [exact Hl|]. split; [apply Hdown; lia|apply Hup; lia].
Qed.

(** The chance of a sweat drop for a load between 0 and 1. *)
Lemma sweatChance_range (load : F32.float) :
  finite load -> 0 <= scaled 175 load <= 2 ^ 175 ->
  5 <= sweatChance load <= 35.
Proof.
  intros Hl HL. unfold sweatChance.
  pose proof (pow2_pos 175 ltac:(lia)) as Hp175.
  assert (Hc7 : finite F32.c0_7) by (split; reflexivity).
  assert (HC7 : scaled 175 F32.c0_7 = 11744051 * 2 ^ 151) by reflexivity.
  assert (H175 : 2 ^ 175 = 16777216 * 2 ^ 151) by reflexivity.
  pose proof (pow2_pos 151 ltac:(lia)) as Hp151.
  assert (Hp302 : 2 ^ 176 < 2 ^ (127 + 175)) by (apply Z.pow_lt_mono_r; lia).
  assert (H176 : 2 ^ 176 = 2 * 2 ^ 175) by reflexivity.
  (* the difference *)
  set (z1 := S754_finite false 10066330 (-25)).
  assert (Hz1 : finite z1) by (split; reflexivity).
  assert (HZ1 : scaled 175 z1 = 5033165 * 2 ^ 151) by reflexivity.
  destruct (sub_scaled load F32.c0_7 175 127) as [Hd _]; try lia; try assumption.
  destruct (sub_between load F32.c0_7 z1 175 127) as [Hdup _]; try lia; try assumption.
  set (d := F32.sub load F32.c0_7) in *.
  (* the larger of it and zero *)
  assert (Hm : finite (F32.max F32.zero d)
               /\ 0 <= scaled 175 (F32.max F32.zero d) <= 5033165 * 2 ^ 151).
  { unfold F32.max.
    pose proof (scaled_ltb F32.zero d 175 ltac:(lia) (finite_zero false) Hd) as Hlt.
    change (scaled 175 F32.zero) with 0 in Hlt.
    destruct (F32.ltb F32.zero d).
    - split; [exact Hd|]. assert (0 < scaled 175 d) by (apply Hlt; reflexivity). lia.
    - split; [apply finite_zero|]. change (scaled 175 F32.zero) with 0. lia. }
  destruct Hm as [Hm HM]. set (m := F32.max F32.zero d) in *.
  (* times 100 *)
  assert (Hsh : scaled 175 m = scaled 158 m * 2 ^ 17).
  { change 175 with (158 + 17). apply scaled_shift; [exact Hm|lia|lia]. }
  change (2 ^ 17) with 131072 in Hsh.
  set (z2 := S754_finite false 15728641 (-19)).
  assert (Hz2 : finite z2) by (split; reflexivity).
  assert (HZ2 : scaled 175 z2 = 15728641 * 32 * 2 ^ 151) by reflexivity.
  assert (Hsmall : Z.abs (scaled (-17 + 175) m) * Z.pos 13107200 < 2 ^ (5 + 175)).
  { change (-17 + 175) with 158. change (2 ^ (5 + 175)) with (32 * 2 ^ 175). lia. }
  change F32.hundred with (S754_finite false 13107200 (-17)).
  destruct (mul_scaled m false 13107200 (-17) 175 5) as [Hp _];
    try lia; try assumption; try (split; reflexivity).
  destruct (mul_between m z2 false 13107200 (-17) 175 5) as [Hup _];
    try lia; try assumption; try (split; reflexivity).
  destruct (mul_between m F32.zero false 13107200 (-17) 175 5) as [_ Hdown];
    try lia; try assumption; try (split; reflexivity).
  change (-17 + 175) with 158 in Hup, Hdown. cbn [cond_Zopp] in Hup, Hdown.
  change (scaled 175 F32.zero) with 0 in Hdown.
  set (p := F32.mul m (S754_finite false 13107200 (-17))) in *.
  assert (HP : 0 <= scaled 175 p <= 15728641 * 32 * 2 ^ 151)
    by (split; [apply Hdown; lia|rewrite <- HZ2; apply Hup; lia]).
  rewrite (to_int_floor p 175 ltac:(lia) Hp ltac:(lia)).
  assert (0 <= scaled 175 p / 2 ^ 175) by (apply Z.div_pos; lia).
  assert (scaled 175 p / 2 ^ 175 < 31) by (apply Z.div_lt_upper_bound; lia).
  lia.
Qed.

(** ** Canonical numbers in every state *)

Lemma clamp_valid (hi x : F32.float) :
  F32.valid hi = true -> F32.valid x = true -> F32.valid (clamp hi x) = true.
Proof.
  intros Hh Hx. unfold clamp.
  destruct (F32.ltb x F32.zero); destruct (F32.ltb hi _); auto.
Qed.

Lemma smooth_valid (hi cur tgt : F32.float) :
  F32.valid hi = true -> F32.valid cur = true -> F32.valid tgt = true ->
  F32.valid (smooth hi cur tgt) = true.
Proof.
  intros Hh Hc Ht. apply clamp_valid; [exact Hh|]. unfold approach.
  apply add_valid; [exact Hc|]. apply mul_valid; [|reflexivity].
  now apply sub_valid.
Qed.

Lemma numbersOk_world0 : numbersOk world0.
Proof. repeat split; reflexivity. Qed.

Lemma numbersOk_receiveLine (w : World) (l : Deserialized * Z) :
  wfLine l = true -> numbersOk w -> numbersOk (receiveLine w l).
Proof.
  destruct l as [[e|doc] t]; intros Hwf H; [exact H|].
  destruct H as (Hc & Htc & Htr & Hcc & Hcr).
  unfold wfLine, wfDoc in Hwf. cbn [fst] in Hwf. rewrite !andb_true_iff in Hwf.
  destruct Hwf as ((((((((Wcpu & _) & _) & _) & _) & _) & _) & _) & _).
  assert (Hc' : F32.valid (cpu (mergeDoc doc (data w))) = true)
    by now apply whenSome_or_default.
  unfold numbersOk. cbn.
  split; [exact Hc'|]. split; [destruct (cpuKnown _); assumption|].
  split; [|split; assumption].
  destruct (ramKnown _); [|exact Htr].
  apply div_valid; apply binary_normalize_valid.
Qed.

Lemma numbersOk_drainSerial (f : Frame) (w : World) :
  wfFrame f = true -> numbersOk w -> numbersOk (drainSerial f w).
Proof.
  unfold wfFrame, drainSerial. generalize (received f) as ls. intros ls. revert w.
  induction ls as [|l ls IH]; intros w Hwf H; [exact H|].
  cbn [forallb] in Hwf. apply andb_true_iff in Hwf as [Hl Hls].
  cbn [fold_left]. apply IH; [exact Hls|]. now apply numbersOk_receiveLine.
Qed.

Lemma numbersOk_animate (f : Frame) (w : World) : numbersOk w -> numbersOk (animate f w).
Proof.
  intros (Hc & Htc & Htr & Hcc & Hcr). unfold numbersOk.
  cbn [animate set_statics set_ui set_data_ui data ui
         curCpu curRamRatio tgtCpu tgtRamRatio].
  repeat split; try assumption; apply smooth_valid; try assumption; reflexivity.
Qed.

Lemma numbersOk_loop (f : Frame) (w : World) :
  wfFrame f = true -> numbersOk w -> numbersOk (loop f w).
Proof.
  intros Hwf H. apply (numbersOk_drainSerial f w Hwf) in H. unfold loop.
  destruct (lastDataMs (drainSerial f w) =? 0).
  - unfold paintWaiting. now destruct (_ <? _).
  - assert (Hc : numbersOk (connectionCheck f (drainSerial f w))).
    { unfold connectionCheck. now destruct (stale _ _). }
    destruct (animationDue _ _); [|exact Hc].
    unfold tick, render, drawInfoLines. destruct (sleepBubble f _).
    apply (numbersOk_animate f (stampAnim f (connectionCheck f (drainSerial f w)))).
    exact Hc.
Qed.

Lemma numbersOk_run (fs : list Frame) (w : World) :
  forallb wfFrame fs = true -> numbersOk w -> numbersOk (run fs w).
Proof.
  revert w. induction fs as [|f fs IH]; intros w Hwf H; [exact H|].
  cbn [forallb] in Hwf. apply andb_true_iff in Hwf as [Hf Hfs].
  apply IH; [exact Hfs|]. now apply numbersOk_loop.
Qed.

(** The load of a tick from a state that keeps the ranges. *)
Lemma loadAfter_range (f : Frame) (w : World) :
  gaugesOk w -> numbersOk w ->
  finite (loadAfter f w) /\ 0 <= scaled 175 (loadAfter f w) <= 2 ^ 175.
Proof.
  intros Hg Hn.
  apply (gaugesOk_animate f) in Hg. apply (numbersOk_animate f) in Hn.
  destruct Hg as (_ & _ & _ & _ & Hcc & Hcr & _).
  destruct Hn as (_ & _ & _ & Hvc & Hvr).
  unfold loadAfter. apply smoothedLoad_range; try assumption.
  - apply (finite_of_within F32.hundred); [reflexivity|exact Hvc|exact Hcc].
  - apply (finite_of_within F32.one); [reflexivity|exact Hvr|exact Hcr].
Qed.

(** X16: the load that a tick compares with 0.22 is always a number between
    0 and 1.  In every state reached from power-on on well-formed input the
    smoothed load of the next tick is not NaN and lies in [0, 1], so the
    sleep logic is decided by a comparison of numbers: when the load is not
    below 0.22 it is at least 0.22. *)
Theorem smoothed_load_is_between_0_and_1 :
  forall (fs : list Frame) (f : Frame),
    forallb wfFrame fs = true ->
    let load := loadAfter f (run fs world0) in
    F32.within F32.zero F32.one load = true
    /\ (lowLoad load = false -> F32.leb F32.c0_22 load = true).
Proof.
  intros fs f Hwf load.
  destruct (loadAfter_range f (run fs world0)) as [Hf HL].
  { apply gaugesOk_run; [exact Hwf|exact gaugesOk_world0]. }
  { apply numbersOk_run; [exact Hwf|exact numbersOk_world0]. }
  fold load in Hf, HL. split.
  - apply within_scaled; [split; reflexivity|exact Hf|exact HL].
  - intros Hlow. apply leb_total; [now apply finite_not_nan|reflexivity|exact Hlow].
Qed.

Lemma smoothed_load_is_between_0_and_1_witness :
  F32.within F32.zero F32.one
    (loadAfter (frameAt 1060)
       (run [frameWith [(DeserializationOk (loadDoc (F32.of_Z 150) 1000 2000), 1000)] 1000]
          world0))
  = true.
Proof.
  destruct (smoothed_load_is_between_0_and_1
              [frameWith [(DeserializationOk (loadDoc (F32.of_Z 150) 1000 2000), 1000)] 1000]
              (frameAt 1060)) as [H _]; [reflexivity|exact H].
Defined.

Lemma animate_sweat (f : Frame) (w : World) :
  tamaSweatUntil (ui (animate f w))
  = (if sweatStarts f w then u32 (ms_now f + 500) else tamaSweatUntil (ui w))
  /\ tamaSweat (ui (animate f w))
     = (let sweat := if sweatStarts f w then true else tamaSweat (ui w) in
        if sweat && (tamaSweatUntil (ui (animate f w)) <? ms_now f) then false else sweat)
  /\ nextSweat (animate f w)
     = (if nextSweat w <? ms_now f then u32 (ms_now f + 2000 + rnd_sweat_next f)
        else nextSweat w).
Proof. repeat split; reflexivity. Qed.

(** X17: the chance of a sweat drop is between 5 and 35 percent.  When a
    drop is due, in a state reached from power-on on well-formed input, it
    starts if [random(100)] is below a threshold that is at least 5 and at
    most 35: a draw below 5 always starts one, a draw of 35 or more never
    does; a drop that starts lasts until 500 ms later, and none starts
    unless one is due. *)
Theorem sweat_chance_is_5_to_35_percent :
  forall (fs : list Frame) (f : Frame),
    forallb wfFrame fs = true ->
    let w := run fs world0 in
    5 <= sweatChance (loadAfter f w) <= 35
    /\ (nextSweat w < ms_now f -> rnd_sweat f < 5 -> sweatStarts f w = true)
    /\ (sweatStarts f w = true -> nextSweat w < ms_now f /\ rnd_sweat f < 35)
    /\ (sweatStarts f w = true ->
        tamaSweatUntil (ui (animate f w)) = u32 (ms_now f + 500)).
Proof.
  intros fs f Hwf w.
  destruct (loadAfter_range f w) as [Hf HL].
  { apply gaugesOk_run; [exact Hwf|exact gaugesOk_world0]. }
  { apply numbersOk_run; [exact Hwf|exact numbersOk_world0]. }
  pose proof (sweatChance_range (loadAfter f w) Hf HL) as Hch.
  split; [exact Hch|]. unfold sweatStarts. split; [|split].
  - intros Hdue Hr. apply andb_true_iff. split; [apply Z.ltb_lt; lia|apply Z.ltb_lt; lia].
  - intros H. apply andb_true_iff in H as [H1 H2].
    apply Z.ltb_lt in H1, H2. lia.
  - intros H. destruct (animate_sweat f w) as (Hu & _). rewrite Hu.
    unfold sweatStarts. now rewrite H.
Qed.

Lemma sweat_chance_is_5_to_35_percent_witness :
  sweatStarts (frameWith [] 1060 )
    (run [frameWith [(DeserializationOk (loadDoc (F32.of_Z 150) 1000 2000), 1000)] 1000]
       world0)
  = false.
Proof.
  destruct (sweat_chance_is_5_to_35_percent
              [frameWith [(DeserializationOk (loadDoc (F32.of_Z 150) 1000 2000), 1000)] 1000]
              (frameWith [] 1060))
    as (_ & _ & H & _); [reflexivity|].
  destruct (sweatStarts _ _) eqn:E; [|reflexivity].
  destruct (H eq_refl) as [_ Hr]. vm_compute in Hr. discriminate Hr.
Defined.

(** ** Conversions of integers are monotone *)

Lemma rne_monotone (N N' D : Z) : 0 < D -> N <= N' -> rne N D <= rne N' D.
Proof.
  intros HD Hle.
  destruct (rne_bounds N D HD) as (Hb & _). destruct (rne_bounds N' D HD) as (Hb' & _).
  assert (Hq : N / D <= N' / D) by (apply Z.div_le_mono; lia).
  destruct (Z.eq_dec (N / D) (N' / D)) as [Heq|Hne]; [|lia].
  pose proof (Z.div_mod N D ltac:(lia)) as H1. pose proof (Z.div_mod N' D ltac:(lia)) as H2.
  assert (Hr : N mod D <= N' mod D) by (rewrite Heq in H1; nia).
  unfold rne. rewrite <- Heq.
  destruct (Z.compare_spec (2 * (N mod D)) D), (Z.compare_spec (2 * (N' mod D)) D);
    try destruct (Z.even (N / D)); lia.
Qed.

(** The value of [binary_round]: the mantissa aligned to the exponent of
    the last place, then rounded. *)
Lemma binary_round_value (s : bool) (m : positive) (e K k : Z) :
  150 <= K -> 0 <= e + K -> k <= 127 -> 0 <= k + K ->
  Z.pos m * 2 ^ (e + K) < 2 ^ (k + K) ->
  let E := fexp32 (Z.pos (digits2_pos m) + e) in
  let ez := Z.min e E in
  scaled K (binary_round 24 128 s m e)
  = cond_Zopp s (rne (Z.pos m * 2 ^ (e - ez)) (2 ^ (E - ez)) * 2 ^ (E + K)).
Proof.
  intros HK HeK Hk HkK Hlt E ez. unfold binary_round.
  rewrite fexp_fexp32. fold E.
  destruct (shl_align_spec m e E) as [Hez Hmz].
  destruct (shl_align m e E) as [mz ez']. cbn [fst snd] in Hez, Hmz.
  fold ez in Hez, Hmz. subst ez'.
  assert (HE0 : -149 <= E) by (subst E; unfold fexp32; lia).
  assert (Hval : Z.pos mz * 2 ^ (ez + K) = Z.pos m * 2 ^ (e + K)).
  { rewrite Hmz, <- Z.mul_assoc, <- pow2_split by lia. f_equal. f_equal. lia. }
  assert (Hdig : Zdigits2 (Z.pos mz) + ez = Z.pos (digits2_pos m) + e).
  { rewrite Hmz, Zdigits2_shift by lia. cbn [Zdigits2]. lia. }
  destruct (binary_round_aux_value s (Z.pos mz) ez K k) as [_ Hsc]; try lia.
  { rewrite Hdig. fold E. lia. }
  cbv zeta in Hsc. rewrite Hdig in Hsc. fold E in Hsc. rewrite Hsc, Hmz. reflexivity.
Qed.

(** [(float)a <= (float)b] for [0 <= a <= b]. *)
Lemma of_Z_monotone (a b : Z) :
  0 <= a <= b -> b < 2 ^ 31 ->
  finite (F32.of_Z a) /\ finite (F32.of_Z b)
  /\ 0 <= scaled 175 (F32.of_Z a) <= scaled 175 (F32.of_Z b).
Proof.
  intros Hab Hb.
  assert (Hfin : forall z, 0 <= z < 2 ^ 31 ->
                           finite (F32.of_Z z) /\ 0 <= scaled 175 (F32.of_Z z)).
  { intros z Hz.
    destruct (binary_normalize_scaled z 0 175 31) as (Hv & Hf & _ & _ & Hs & _); try lia.
    split; [split; assumption|].
    specialize (Hs ltac:(lia)). unfold F32.of_Z, F32.prec, F32.emax.
    destruct (binary_normalize 24 128 z 0 false) as [sz|sz| |sz mz ez];
      cbn [scaled]; try lia.
    cbn [signbit] in Hs. subst sz. cbn [cond_Zopp].
    apply Z.lt_le_incl, Z.mul_pos_pos; [lia|].
    apply pow2_pos. pose proof (finite_exponent _ _ _ (conj Hv Hf)). lia. }
  destruct (Hfin a ltac:(lia)) as [Hfa Ha0]. destruct (Hfin b ltac:(lia)) as [Hfb Hb0].
  split; [exact Hfa|]. split; [exact Hfb|]. split; [exact Ha0|].
  destruct (Z.eq_dec a 0) as [->|Hane]; [exact Hb0|].
  destruct a as [|pa|pa]; try lia. destruct b as [|pb|pb]; try lia.
  pose proof (digits2_pos_bounds pa) as [Hla Hha].
  pose proof (digits2_pos_bounds pb) as [Hlb Hhb].
  set (da := Z.pos (digits2_pos pa)) in *. set (db := Z.pos (digits2_pos pb)) in *.
  assert (Hda : 0 < da) by (unfold da; lia). assert (Hdb : 0 < db) by (unfold db; lia).
  assert (Hdb31 : db <= 31).
  { change db with (Zdigits2 (Z.pos pb)). apply Zdigits2_le; lia. }
  assert (Hdab : da <= db).
  { destruct (Z_le_gt_dec da db) as [|Hgt]; [assumption|exfalso].
    assert (2 ^ db <= 2 ^ (da - 1)) by (apply pow2_le; lia). lia. }
  assert (Hlt : forall p, Z.pos p < 2 ^ 31 -> Z.pos p * 2 ^ (0 + 175) < 2 ^ (31 + 175)).
  { intros p Hp. change (0 + 175) with 175. rewrite pow2_split by lia.
    apply Z.mul_lt_mono_pos_r; [apply pow2_pos|]; lia. }
  destruct (Z.eq_dec da db) as [Heq|Hne].
  - (* the same exponent of the last place *)
    unfold F32.of_Z, F32.prec, F32.emax. cbn [binary_normalize].
    rewrite (binary_round_value false pa 0 175 31), (binary_round_value false pb 0 175 31)
      by (try apply Hlt; lia).
    cbv zeta. fold da db. rewrite Heq. rewrite !Z.add_0_r.
    set (E := fexp32 db). set (ez := Z.min 0 E).
    assert (HE : -149 <= E) by (unfold E, fexp32; lia).
    cbn [cond_Zopp]. apply Z.mul_le_mono_nonneg_r; [apply Z.lt_le_incl, pow2_pos; lia|].
    apply rne_monotone; [apply pow2_pos; unfold ez; lia|].
    apply Z.mul_le_mono_nonneg_r; [apply Z.lt_le_incl, pow2_pos; unfold ez; lia|lia].
  - (* a power of two lies between them *)
    set (y := S754_finite false 8388608 (db - 24)).
    assert (Hy : finite y).
    { split; [|reflexivity]. apply valid_finite. cbn [digits2_pos Pos.succ].
      unfold fexp32. lia. }
    assert (HY : scaled 175 y = 2 ^ (db - 1 + 175)).
    { cbn [scaled cond_Zopp]. replace (db - 1 + 175) with (23 + (db - 24 + 175)) by lia.
      rewrite (pow2_split 23 (db - 24 + 175)) by lia. reflexivity. }
    assert (Hpow : 2 ^ (db - 1 + 175) = 2 ^ (db - 1) * 2 ^ 175) by (apply pow2_split; lia).
    pose proof (pow2_pos 175 ltac:(lia)) as Hp175.
    assert (Hmid : 2 ^ da <= 2 ^ (db - 1)) by (apply pow2_le; lia).
    destruct (binary_normalize_between (Z.pos pa) 0 175 31) as [Ha _]; try lia.
    destruct (binary_normalize_between (Z.pos pb) 0 175 31) as [Hb' _]; try lia.
    destruct (Ha y Hy) as [Hup _]. destruct (Hb' y Hy) as [_ Hdown].
    change (0 + 175) with 175 in Hup, Hdown. rewrite HY, Hpow in Hup, Hdown.
    unfold F32.of_Z, F32.prec, F32.emax.
    assert (H1 : Z.pos pa * 2 ^ 175 <= 2 ^ (db - 1) * 2 ^ 175)
      by (apply Z.mul_le_mono_nonneg_r; lia).
    assert (H2 : 2 ^ (db - 1) * 2 ^ 175 <= Z.pos pb * 2 ^ 175)
      by (apply Z.mul_le_mono_nonneg_r; lia).
    specialize (Hup H1). specialize (Hdown H2). lia.
Qed.

(** The ratio of a [long] to a larger one is between 0 and 1. *)
Lemma ratio_in_range (used total : Z) :
  0 <= used <= total -> 0 < total < 2 ^ 31 ->
  F32.within F32.zero F32.one (F32.div (F32.of_Z used) (F32.of_Z total)) = true.
Proof.
  intros Hu Ht.
  destruct (of_Z_monotone used total Hu ltac:(lia)) as (Hfu & Hft & Hle).
  destruct (of_Z_positive total Ht) as (mt & et & Het). rewrite Het in *.
  destruct (of_Z_nonneg used ltac:(lia)) as [->|(mu & eu & Heu)]; [reflexivity|].
  rewrite Heu in *. apply div_le_one; try assumption.
  apply (leb_scaled _ _ 175); try assumption; lia.
Qed.

(** ** The gauges *)

Lemma mul_comm (x y : F32.float) : F32.mul x y = F32.mul y x.
Proof.
  destruct x as [sx|sx| |sx mx ex], y as [sy|sy| |sy my ey]; cbn [F32.mul SFmul];
    rewrite ?(xorb_comm sx sy); try reflexivity.
  rewrite (Pos.mul_comm mx my), (Z.add_comm ex ey). reflexivity.
Qed.

(** The number the fill of a gauge is truncated from: [38 * r + 1/2] with
    an error below [2^-18]. *)
Lemma fill_before_truncation (r : F32.float) :
  finite r -> 0 <= scaled 175 r <= 2 ^ 175 ->
  finite (F32.add (F32.mul (F32.of_Z 38) r) F32.c0_5)
  /\ Z.abs (scaled 175 (F32.add (F32.mul (F32.of_Z 38) r) F32.c0_5)
            - (38 * scaled 175 r + 2 ^ 174)) <= 2 ^ 157.
Proof.
  intros Hr HR.
  change (F32.of_Z 38) with (S754_finite false 9961472 (-18)). rewrite mul_comm.
  pose proof (scaled_shift r 157 18 Hr ltac:(lia) ltac:(lia)) as Hsh.
  change (157 + 18) with 175 in Hsh.
  destruct (mul_scaled r false 9961472 (-18) 175 6) as [Hfp HP]; try lia;
    try assumption; try (split; reflexivity).
  { change (-18 + 175) with 157. lia. }
  change (-18 + 175) with 157 in HP. cbn [cond_Zopp] in HP.
  change (fexp32 6 + 175 - 1) with 156 in HP.
  set (p := F32.mul r (S754_finite false 9961472 (-18))) in *.
  assert (Hc : scaled 175 F32.c0_5 = 2 ^ 174) by reflexivity.
  destruct (add_scaled p F32.c0_5 175 6) as [Hfs HS]; try lia;
    try assumption; try (split; reflexivity).
  change (fexp32 6 + 175 - 1) with 156 in HS. rewrite Hc in HS.
  split; [exact Hfs|]. lia.
Qed.

(** The fill of a gauge of 38 pixels is the truncation of that number;
    neither of the two bounds of lines 230 and 239 is ever applied. *)
Lemma gaugeFill_floor (r : F32.float) :
  finite r -> 0 <= scaled 175 r <= 2 ^ 175 ->
  0 <= gaugeFill 38 r <= 38
  /\ Z.abs (2 ^ 175 * gaugeFill 38 r - 38 * scaled 175 r) <= 2 ^ 174 + 2 ^ 157.
Proof.
  intros Hr HR. destruct (fill_before_truncation r Hr HR) as [Hf HS].
  set (s := F32.add (F32.mul (F32.of_Z 38) r) F32.c0_5) in *.
  assert (H0 : 0 <= scaled 175 s) by lia.
  pose proof (to_int_floor s 175 ltac:(lia) Hf H0) as Hfl.
  pose proof (Z.div_mod (scaled 175 s) (2 ^ 175) ltac:(lia)) as Hdm.
  pose proof (Z.mod_pos_bound (scaled 175 s) (2 ^ 175) ltac:(lia)) as Hmod.
  unfold gaugeFill. fold s. rewrite Hfl.
  set (fw := scaled 175 s / 2 ^ 175) in *.
  assert (Hfw : 0 <= fw <= 38) by lia.
  destruct (Z.ltb_spec fw 0); [lia|]. destruct (Z.ltb_spec 38 fw); [lia|].
  split; [exact Hfw|]. lia.
Qed.

(** A percentage in range divided by 100: one hundred times the quotient
    is the percentage with an error of at most [50 * 2^-23]. *)
Lemma percent_error (c : F32.float) :
  finite c -> F32.within F32.zero F32.hundred c = true ->
  Z.abs (100 * scaled 175 (F32.div c F32.hundred) - scaled 175 c) <= 50 * 2 ^ 152.
Proof.
  intros Hc Hw.
  assert (Hle : F32.leb c F32.hundred = true)
    by (unfold F32.within in Hw; apply andb_true_iff in Hw; tauto).
  assert (Hfh : finite F32.hundred) by (split; reflexivity).
  pose proof (scaled_leb _ _ 500 ltac:(lia) Hc Hfh Hle) as Hval.
  apply within_scaled in Hw; [|exact Hfh|exact Hc].
  destruct c as [s|s| |s m e]; try (destruct Hc as [_ Hc]; discriminate Hc).
  - destruct s; cbn; lia.
  - pose proof (finite_exponent _ _ _ Hc) as Hex.
    pose proof (pow2_pos (e + 175) ltac:(lia)) as Hpe.
    destruct s; [cbn [scaled cond_Zopp] in Hw; lia|].
    unfold F32.hundred in *. destruct Hc as [Hvc _].
    destruct (div_core false false m 13107200 e (-17) Hvc eq_refl)
      as (N & e' & HN & He' & HNeq & Hal & Hmr & Heq).
    rewrite Heq. cbn [xorb]. clear Heq.
    apply valid_digits in Hvc. destruct Hvc as (_ & Hdx & Hdx' & Hmx & Hmx').
    pose proof (digits2_pos_bounds m) as [Hlx Hhx].
    change (Z.pos (digits2_pos 13107200)) with 24 in He'.
    set (d1 := Z.pos (digits2_pos m)) in *.
    assert (Hd1 : 0 < d1) by (unfold d1; lia).
    cbn [scaled cond_Zopp] in Hval.
    assert (Hdelta : d1 + e - (24 + -17) <= 0).
    { destruct (Z_le_gt_dec (d1 + e - (24 + -17)) 0) as [|Hgt]; [assumption|exfalso].
      assert (H1 : 2 ^ 507 <= 2 ^ (d1 - 1 + (e + 500))) by (apply pow2_le; lia).
      rewrite (pow2_split (d1 - 1) (e + 500)) in H1 by lia.
      pose proof (pow2_pos (e + 500) ltac:(lia)).
      assert (2 ^ (d1 - 1) * 2 ^ (e + 500) <= Z.pos m * 2 ^ (e + 500))
        by (apply Z.mul_le_mono_nonneg_r; lia).
      change (-17 + 500) with 483 in Hval. lia. }
    assert (He'24 : -253 <= e' <= -24) by (rewrite He'; unfold fexp32; lia).
    assert (Hs : 0 <= e - -17 - e') by (rewrite He'; lia).
    pose proof (pow2_pos (e' + 483) ltac:(lia)) as HP.
    assert (H1 : Z.pos m * 2 ^ (e + 500) = N * 2 ^ (e' + 483)).
    { rewrite HNeq, <- Z.mul_assoc, <- pow2_split by lia. f_equal. f_equal. lia. }
    assert (Hbound : N <= 13107200 * 2 ^ (- e')).
    { assert (H2 : 13107200 * 2 ^ (-17 + 500) = 13107200 * 2 ^ (- e') * 2 ^ (e' + 483)).
      { rewrite <- Z.mul_assoc, <- pow2_split by lia. f_equal. f_equal. lia. }
      rewrite H1, H2 in Hval. apply Z.mul_le_mono_pos_r in Hval; assumption. }
    set (q := N / 13107200) in *.
    pose proof (pow2_pos (- e') ltac:(lia)) as Hpe'.
    assert (Hq0 : 0 <= q) by (apply Z.div_pos; lia).
    assert (Hq : q <= 2 ^ (- e')) by (apply Z.div_le_upper_bound; lia).
    assert (Hdq : Zdigits2 q + e' <= 1).
    { assert (Zdigits2 q <= - e' + 1); [|lia].
      apply Zdigits2_le; [lia|]. rewrite pow2_split by lia. change (2 ^ 1) with 2. lia. }
    set (E := fexp32 (Zdigits2 q + e')) in *.
    assert (HE : -149 <= E <= -23) by (unfold E, fexp32; lia).
    set (D := 13107200 * 2 ^ (E - e')) in *.
    pose proof (pow2_pos (E - e') ltac:(lia)) as HpD.
    assert (HD : 0 < D) by (unfold D; lia).
    destruct (rne_bounds N D HD) as (_ & _ & Herr).
    set (mr := rne N D) in *.
    destruct (round_result_scaled false mr E 175 Hmr ltac:(lia) ltac:(lia)) as [_ HQ].
    rewrite HQ. cbn [cond_Zopp scaled].
    (* in units of 2^-500 *)
    assert (HA : 100 * 2 ^ (E + 500) = D * 2 ^ (e' + 483)).
    { unfold D. rewrite <- Z.mul_assoc, <- pow2_split by lia.
      replace (E - e' + (e' + 483)) with (E + 483) by lia.
      replace (E + 500) with (17 + (E + 483)) by lia.
      rewrite (pow2_split 17 (E + 483)) by lia. change (2 ^ 17) with 131072. lia. }
    assert (HE5 : 2 ^ (E + 500) = 2 ^ (E + 175) * 2 ^ 325)
      by (rewrite <- pow2_split by lia; f_equal; lia).
    assert (He5 : 2 ^ (e + 500) = 2 ^ (e + 175) * 2 ^ 325)
      by (rewrite <- pow2_split by lia; f_equal; lia).
    assert (HE477 : 2 ^ (E + 500) <= 2 ^ 477) by (apply pow2_le; lia).
    set (X := 100 * (mr * 2 ^ (E + 175)) - Z.pos m * 2 ^ (e + 175)).
    assert (HX : X * 2 ^ 325 = (mr * D - N) * 2 ^ (e' + 483)).
    { unfold X. rewrite Z.mul_sub_distr_r.
      replace (100 * (mr * 2 ^ (E + 175)) * 2 ^ 325) with (mr * (100 * 2 ^ (E + 500)))
        by (rewrite HE5; ring).
      replace (Z.pos m * 2 ^ (e + 175) * 2 ^ 325) with (Z.pos m * 2 ^ (e + 500))
        by (rewrite He5; ring).
      rewrite HA, H1. ring. }
    assert (HX2 : 2 * (Z.abs X * 2 ^ 325) <= 100 * 2 ^ 477).
    { replace (Z.abs X * 2 ^ 325) with (Z.abs (X * 2 ^ 325))
        by (rewrite Z.abs_mul; f_equal; apply Z.abs_eq; lia).
      rewrite HX, Z.abs_mul, (Z.abs_eq (2 ^ (e' + 483))) by lia.
      transitivity (D * 2 ^ (e' + 483)); [|lia].
      rewrite Z.mul_assoc. apply Z.mul_le_mono_nonneg_r; lia. }
    lia.
Qed.

(** From a bound on integers to a bound on rationals. *)
Lemma Qabs_of_scaled (x : Q) (T D : Z) :
  0 < D -> (x * inject_Z D == inject_Z T)%Q -> Z.abs T * 1000 <= 501 * D ->
  (Qabs x <= (1 # 2) + (1 # 1000))%Q.
Proof.
  intros HD Heq HT.
  assert (HDq : (0 < inject_Z D)%Q) by (rewrite <- (Zlt_Qlt 0); exact HD).
  apply (Qmult_le_r _ _ (inject_Z D)); [exact HDq|].
  rewrite <- (Qabs_pos (inject_Z D)) at 1 by (apply Qlt_le_weak, HDq).
  rewrite <- Qabs_Qmult, Heq. change (Qabs (inject_Z T)) with (inject_Z (Z.abs T)).
  apply (Qmult_le_r _ _ (inject_Z 1000)); [reflexivity|].
  rewrite <- inject_Z_mult.
  setoid_replace (((1 # 2) + (1 # 1000)) * inject_Z D * inject_Z 1000)%Q
    with (inject_Z (501 * D)).
  - rewrite <- Zle_Qle. exact HT.
  - rewrite inject_Z_mult. change (inject_Z 1000) with (1000 # 1)%Q.
    change (inject_Z 501) with (501 # 1)%Q. field.
Qed.

(** The fills of the two gauges, for values inside their ranges. *)
Lemma gaugeFill_accuracy (c r : F32.float) :
  finite c -> finite r ->
  F32.within F32.zero F32.hundred c = true -> F32.within F32.zero F32.one r = true ->
  let fc := gaugeFill 38 (F32.div c F32.hundred) in
  let fr := gaugeFill 38 r in
  0 <= fc <= 38 /\ 0 <= fr <= 38
  /\ (Qabs (inject_Z fc - (38 # 100) * value c) <= (1 # 2) + (1 # 1000))%Q
  /\ (Qabs (inject_Z fr - (38 # 1) * value r) <= (1 # 2) + (1 # 1000))%Q.
Proof.
  intros Hc Hr Hwc Hwr fc fr.
  destruct (percent_range c Hc Hwc) as [Hfq HQ].
  pose proof (percent_error c Hc Hwc) as Herr.
  apply within_scaled in Hwr; [|split; reflexivity|exact Hr].
  change (scaled 175 F32.one) with (2 ^ 175) in Hwr.
  destruct (gaugeFill_floor _ Hfq HQ) as [Hc38 Hcf].
  destruct (gaugeFill_floor r Hr Hwr) as [Hr38 Hrf].
  fold fc in Hc38, Hcf. fold fr in Hr38, Hrf.
  pose proof (value_scaled c Hc) as Hvc. pose proof (value_scaled r Hr) as Hvr.
  set (C := scaled 175 c) in *. set (R := scaled 175 r) in *.
  set (Qc := scaled 175 (F32.div c F32.hundred)) in *.
  split; [exact Hc38|]. split; [exact Hr38|].
  assert (HcZ : Z.abs (100 * (2 ^ 175 * fc) - 38 * C) * 1000 <= 501 * (100 * 2 ^ 175)) by lia.
  assert (HrZ : Z.abs (2 ^ 175 * fr - 38 * R) * 1000 <= 501 * 2 ^ 175) by lia.
  split.
  - apply (Qabs_of_scaled _ (100 * (2 ^ 175 * fc) - 38 * C) (100 * 2 ^ 175)); [lia| |exact HcZ].
    unfold Zminus. rewrite inject_Z_plus, inject_Z_opp, !inject_Z_mult, <- Hvc.
    change (inject_Z 100) with (100 # 1)%Q. change (inject_Z 38) with (38 # 1)%Q.
    set (P := inject_Z (2 ^ 175)). ring.
  - apply (Qabs_of_scaled _ (2 ^ 175 * fr - 38 * R) (2 ^ 175)); [lia| |exact HrZ].
    unfold Zminus. rewrite inject_Z_plus, inject_Z_opp, !inject_Z_mult, <- Hvr.
    change (inject_Z 38) with (38 # 1)%Q.
    set (P := inject_Z (2 ^ 175)). ring.
Qed.

(** X18: [drawGauges], lines 212-244.  In every state reached from power-on
    on well-formed input the two gauges are painted at fixed places, a
    label and a frame of 40 by 7 pixels each, and the bar inside each frame
    is the gauge's share of the 38 inner pixels rounded to the nearest
    pixel: its width is between 0 and 38 and differs from [38 * cpu / 100],
    respectively [38 * ramRatio], by at most half a pixel and the rounding
    of the binary32 operations (below one thousandth of a pixel). *)
Theorem gauge_bars_are_the_rounded_shares :
  forall (fs : list Frame),
    forallb wfFrame fs = true ->
    let u := ui (run fs world0) in
    let fc := gaugeFill 38 (F32.div (curCpu u) F32.hundred) in
    let fr := gaugeFill 38 (curRamRatio u) in
    drawGaugesPaints u
    = [PaintText 0 12 "CPU:"; PaintRect 2 20 40 7] ++ gaugeBar 3 21 fc
      ++ [PaintText 0 30 "RAM:"; PaintRect 2 38 40 7] ++ gaugeBar 3 39 fr
    /\ 0 <= fc <= 38 /\ 0 <= fr <= 38
    /\ (Qabs (inject_Z fc - (38 # 100) * value (curCpu u)) <= (1 # 2) + (1 # 1000))%Q
    /\ (Qabs (inject_Z fr - (38 # 1) * value (curRamRatio u)) <= (1 # 2) + (1 # 1000))%Q.
Proof.
  intros fs Hwf u fc fr. split; [reflexivity|].
  pose proof (gaugesOk_run fs world0 Hwf gaugesOk_world0)
    as (_ & _ & _ & _ & Hcc & Hcr & _).
  pose proof (numbersOk_run fs world0 Hwf numbersOk_world0) as (_ & _ & _ & Hvc & Hvr).
  fold u in Hcc, Hcr, Hvc, Hvr.
  apply gaugeFill_accuracy; try assumption.
  - exact (finite_of_within F32.hundred _ eq_refl Hvc Hcc).
  - exact (finite_of_within F32.one _ eq_refl Hvr Hcr).
Qed.

Lemma gauge_bars_are_the_rounded_shares_witness :
  gaugeFill 38
    (F32.div
       (curCpu (ui (run [frameWith [(DeserializationOk (loadDoc (F32.of_Z 150) 1000 2000), 1000)]
                           1000; frameAt 1060] world0)))
       F32.hundred) <= 38.
Proof.
  destruct (gauge_bars_are_the_rounded_shares
              [frameWith [(DeserializationOk (loadDoc (F32.of_Z 150) 1000 2000), 1000)] 1000;
               frameAt 1060]) as (_ & H & _); [reflexivity|exact (proj2 H)].
Defined.

(** X19: [updateFromJsonLine], lines 159-160.  A report whose merged
    snapshot is consistent, [0 <= ram_used <= ram] with [ram > 0], sets the
    RAM target to the quotient of the two converted integers, and that
    quotient is a number between 0 and 1: neither the roundings of the
    conversions of the two [long]s to [float] nor the rounding of the
    division take it above 1. *)
Theorem consistent_report_sets_a_ram_target_in_range :
  forall (doc : JsonDoc) (w : World),
    wfDoc doc = true -> gaugesOk w ->
    let w' := snd (updateFromJsonLine (DeserializationOk doc) w) in
    0 < ram (data w') -> 0 <= ram_used (data w') <= ram (data w') ->
    tgtRamRatio (ui w') = F32.div (F32.of_Z (ram_used (data w'))) (F32.of_Z (ram (data w')))
    /\ F32.within F32.zero F32.one (tgtRamRatio (ui w')) = true.
Proof.
  intros doc w Hwf Hok w' Hram Hused.
  pose proof (gaugesOk_decode doc w Hwf Hok) as (Hlong & _). fold w' in Hlong.
  unfold inLong in Hlong. apply andb_true_iff in Hlong as [_ Hhi]. apply Z.ltb_lt in Hhi.
  assert (Heq : tgtRamRatio (ui w')
                = F32.div (F32.of_Z (ram_used (data w'))) (F32.of_Z (ram (data w')))).
  { unfold w'. cbn [updateFromJsonLine snd set_data_ui ui data updateUi tgtRamRatio].
    unfold w' in Hram, Hused. cbn [updateFromJsonLine snd set_data_ui data] in Hram, Hused.
    unfold ramKnown.
    destruct (Z.ltb_spec 0 (ram (mergeDoc doc (data w)))); [|lia].
    destruct (Z.leb_spec 0 (ram_used (mergeDoc doc (data w)))); [|lia].
    reflexivity. }
  split; [exact Heq|]. rewrite Heq. apply ratio_in_range; lia.
Qed.

Lemma consistent_report_sets_a_ram_target_in_range_witness :
  F32.within F32.zero F32.one
    (tgtRamRatio (ui (snd (updateFromJsonLine
                             (DeserializationOk (loadDoc (F32.of_Z 150) 16777217 16777216))
                             world0))))
  = true.
Proof.
  destruct (consistent_report_sets_a_ram_target_in_range
              (loadDoc (F32.of_Z 150) 16777217 16777216) world0) as [_ H];
    [reflexivity|exact gaugesOk_world0|reflexivity|cbn; lia|exact H].
Defined.
